(** * Untangle (untangle.c): a shallow embedding of the game engine

    The development follows the C source: the crossing predicate [cross],
    the parameters and presets, the grid and its points, the edge generator,
    the circle scrambler and the two strings written by [new_game_desc],
    the description validator [validate_desc] and its reader [new_game],
    the move interpreter [execute_move] together with [dup_game] and
    [free_game], and the user interface ([interpret_move], the times of the
    animation and of the flash).

    Conventions.
    - A C [int] is a [Z] kept in the range of 32 bits; every arithmetic
      operation of the source is followed by an explicit wrap-around
      ([wrap]), the two's complement reading of signed overflow.
    - A C string is a [string]; reading [*s] at the end of the string gives
      the terminating NUL ([cur]).
    - [long] and [unsigned long] have 64 bits, and the conversions of
      numerals ([atoi], [%d]) are those of the GNU C library.
    - The 2-3-4 trees of the source ([tree234]) are used as sorted sets and
      are read by position; they are lists kept in the order of their
      comparison function.
    - The reference-counted [struct graph] is shared between game states, so
      it lives in a store (a [gmap] from addresses to graphs) and a state
      holds the address.
    - A loop whose number of turns is not given by a list is run with a
      bound ([result]); the bounds used are shown never to be reached, the
      loop of the scrambler apart, which need not end. *)

From Stdlib Require Import ZArith Lia Bool Ascii.
From stdpp Require Import base option list sorting strings gmap.

Local Open Scope Z_scope.

(** ** Machine integers *)

Definition INT_MIN : Z := - 2 ^ 31.
Definition INT_MAX : Z := 2 ^ 31 - 1.

Definition wrap (z : Z) : Z := (z + 2 ^ 31) mod 2 ^ 32 - 2 ^ 31.

Definition in_int (z : Z) : Prop := INT_MIN <= z <= INT_MAX.

(** [long] has 64 bits. *)
Definition LONG_MIN : Z := - 2 ^ 63.
Definition LONG_MAX : Z := 2 ^ 63 - 1.

Definition iadd (u v : Z) : Z := wrap (u + v).
Definition isub (u v : Z) : Z := wrap (u - v).
Definition imul (u v : Z) : Z := wrap (u * v).

Declare Scope int_scope.
Delimit Scope int_scope with int.
Infix "+!" := iadd (at level 50, left associativity) : int_scope.
Infix "-!" := isub (at level 50, left associativity) : int_scope.
Infix "*!" := imul (at level 40, left associativity) : int_scope.
Local Open Scope int_scope.

(** ** Points and edges *)

(** [struct point]: rational coordinates over a common denominator. *)
Record point : Type := mkpoint { x : Z; y : Z; d : Z }.

(** [struct edge]: two point indices, stored as (lower, higher). *)
Record edge : Type := mkedge { a : Z; b : Z }.

#[global] Instance point_eq_dec : EqDecision point.
Proof. solve_decision. Defined.

#[global] Instance edge_eq_dec : EqDecision edge.
Proof. solve_decision. Defined.

#[global] Instance point_inhabited : Inhabited point := populate (mkpoint 0 0 0).

(** ** The crossing predicate *)

(** [(d1 > 0 && d2 > 0) || (d1 < 0 && d2 < 0)] *)
Definition same_side (d1 d2 : Z) : bool :=
  ((0 <? d1) && (0 <? d2)) || ((d1 <? 0) && (d2 <? 0)).

(** The collinear block of [cross]: entered when both dot products are zero,
    it answers [true] when one of its two [return FALSE] is taken. *)
Definition collinear_apart (a1 a2 : point) (b1x b1y b2x b2y : Z) : bool :=
  let px := a2.(x) *! a1.(d) -! a1.(x) *! a2.(d) in
  let py := a2.(y) *! a1.(d) -! a1.(y) *! a2.(d) in
  let d1 := b1x *! px +! b1y *! py in
  let d2 := b2x *! px +! b2y *! py in
  if (d1 <? 0) && (d2 <? 0) then true
  else
    let d3 := px *! px +! py *! py in
    (d3 <? d1) && (d3 <? d2).

Definition cross (a1 a2 b1 b2 : point) : bool :=
  let b1x := b1.(x) *! a1.(d) -! a1.(x) *! b1.(d) in
  let b1y := b1.(y) *! a1.(d) -! a1.(y) *! b1.(d) in
  let b2x := b2.(x) *! a1.(d) -! a1.(x) *! b2.(d) in
  let b2y := b2.(y) *! a1.(d) -! a1.(y) *! b2.(d) in
  let px := a1.(y) *! a2.(d) -! a2.(y) *! a1.(d) in
  let py := a2.(x) *! a1.(d) -! a1.(x) *! a2.(d) in
  let d1 := b1x *! px +! b1y *! py in
  let d2 := b2x *! px +! b2y *! py in
  if same_side d1 d2 then false
  else if (d1 =? 0) && (d2 =? 0) && collinear_apart a1 a2 b1x b1y b2x b2y
  then false
  else
    let b1x := a1.(x) *! b1.(d) -! b1.(x) *! a1.(d) in
    let b1y := a1.(y) *! b1.(d) -! b1.(y) *! a1.(d) in
    let b2x := a2.(x) *! b1.(d) -! b1.(x) *! a2.(d) in
    let b2y := a2.(y) *! b1.(d) -! b1.(y) *! a2.(d) in
    let px := b1.(y) *! b2.(d) -! b2.(y) *! b1.(d) in
    let py := b2.(x) *! b1.(d) -! b1.(x) *! b2.(d) in
    let d1 := b1x *! px +! b1y *! py in
    let d2 := b2x *! px +! b2y *! py in
    if same_side d1 d2 then false else true.

(** ** C strings and the C library

    [isdigit], [isspace], [atoi] and [sscanf] come from the C library.  The
    conversions of [atoi] and of [%d] skip white space, read an optional sign
    and then decimal digits.  They are the GNU C library's, where [atoi] is
    [(int) strtol] and [%d] converts with [strtol] as well: a value beyond
    the range of [long] is held at [LONG_MIN] or [LONG_MAX], and the [long]
    is then cut to an [int]. *)

Definition NUL : ascii := "000"%char.

(** [*s] *)
Definition cur (s : string) : ascii :=
  match s with
  | EmptyString => NUL
  | String c _ => c
  end.

(** [s + 1], for a string whose current character is not NUL. *)
Definition advance (s : string) : string :=
  match s with
  | EmptyString => EmptyString
  | String _ r => r
  end.

Definition isdigit (c : ascii) : bool :=
  let k := nat_of_ascii c in (48 <=? k)%nat && (k <=? 57)%nat.

Definition isspace (c : ascii) : bool :=
  let k := nat_of_ascii c in (k =? 32)%nat || ((9 <=? k)%nat && (k <=? 13)%nat).

Definition digit_val (c : ascii) : Z := Z.of_nat (nat_of_ascii c) - 48.

Definition is_char (c c' : ascii) : bool := Ascii.eqb c c'.

Fixpoint skip_space (s : string) : string :=
  match s with
  | String c r => if isspace c then skip_space r else s
  | EmptyString => s
  end.

(** The loop of [validate_desc] and [new_game] that steps over the digits at
    the head of the description. *)
Fixpoint skip_digits (s : string) : string :=
  match s with
  | String c r => if isdigit c then skip_digits r else s
  | EmptyString => s
  end.

(** The digits at the head of [s], accumulated in base ten on top of [acc],
    and what follows them. *)
Fixpoint scan_digits (s : string) (acc : Z) : Z * string :=
  match s with
  | String c r => if isdigit c then scan_digits r (10 * acc + digit_val c) else (acc, s)
  | EmptyString => (acc, s)
  end.

(** The optional sign of a number: whether it is negative, and the rest. *)
Definition scan_sign (s : string) : bool * string :=
  if is_char (cur s) "-" then (true, advance s)
  else if is_char (cur s) "+" then (false, advance s)
  else (false, s).

(** The [int] that the library stores for the decimal value [v] read after
    the sign [neg]. *)
Definition to_int (neg : bool) (v : Z) : Z :=
  wrap (Z.max LONG_MIN (Z.min LONG_MAX (if neg then - v else v))).

Definition atoi (s : string) : Z :=
  let '(neg, s1) := scan_sign (skip_space s) in
  let v := fst (scan_digits s1 0) in
  to_int neg v.

(** One [%d] of [sscanf]: fails when no digit follows the optional sign. *)
Definition scan_int (s : string) : option (Z * string) :=
  let '(neg, s1) := scan_sign (skip_space s) in
  if isdigit (cur s1) then
    let '(v, rest) := scan_digits s1 0 in
    Some (to_int neg v, rest)
  else None.

(** An ordinary character of a [sscanf] format. *)
Definition scan_lit (c : ascii) (s : string) : option string :=
  if is_char (cur s) c then Some (advance s) else None.

(** [sscanf(s, "%d:%d,%d/%d%n", &p, &x, &y, &d, &k) == 4]: the four values
    and the input left after the [k] characters read. *)
Definition sscanf_point (s : string) : option (Z * Z * Z * Z * string) :=
  '(pv, s) ← scan_int s;
  s ← scan_lit ":" s;
  '(xv, s) ← scan_int s;
  s ← scan_lit "," s;
  '(yv, s) ← scan_int s;
  s ← scan_lit "/" s;
  '(dv, s) ← scan_int s;
  Some (pv, xv, yv, dv, s).

(** The outcome of a loop run with a bound on its iterations. *)
Inductive result (A : Type) : Type :=
  | Diverge : result A
  | Done : A → result A.
Arguments Diverge {A}.
Arguments Done {A} _.

(** ** Game states and the shared graph *)

(** [struct graph]: reference count and edge set.  The edge tree is read in
    order, so it is the list of its elements in the order of [edgecmp]. *)
Record struct_graph : Type := mkgraph { refcount : Z; edges : list edge }.

Record game_params : Type := mkparams { n : Z }.

(** [struct game_state]; [graph] is the address of the shared graph. *)
Record game_state : Type := mkstate {
  params : game_params;
  w : Z;
  h : Z;
  pts : list point;
  graph : positive;
  completed : bool;
  cheated : bool;
  just_solved : bool
}.

(** The store of the graphs allocated so far. *)
Abbreviation store := (gmap positive struct_graph).

(** [ps[i]].  The source never reads outside the array; there, where C
    leaves the result undefined, the default point is read. *)
Definition pt (ps : list point) (i : Z) : point :=
  if i <? 0 then inhabitant else ps !!! Z.to_nat i.

Definition set_pt (st : game_state) (i : Z) (q : point) : game_state :=
  mkstate st.(params) st.(w) st.(h) (<[Z.to_nat i := q]> st.(pts)) st.(graph)
          st.(completed) st.(cheated) st.(just_solved).

Definition set_completed (st : game_state) (v : bool) : game_state :=
  mkstate st.(params) st.(w) st.(h) st.(pts) st.(graph) v st.(cheated) st.(just_solved).

Definition set_just_solved (st : game_state) (v : bool) : game_state :=
  mkstate st.(params) st.(w) st.(h) st.(pts) st.(graph) st.(completed) st.(cheated) v.

(** [ret->cheated = ret->just_solved = TRUE] *)
Definition set_solved (st : game_state) : game_state :=
  mkstate st.(params) st.(w) st.(h) st.(pts) st.(graph) st.(completed) true true.

(** [ret->graph->edges], read in order; no edge when the graph is gone. *)
Definition graph_edges (σ : store) (st : game_state) : list edge :=
  match σ !! st.(graph) with
  | Some g => g.(edges)
  | None => []
  end.

(** [dup_game]: the points are copied, the graph is shared and its
    reference count goes up by one. *)
Definition dup_game (σ : store) (state : game_state) : store * game_state :=
  (alter (λ g, mkgraph (g.(refcount) +! 1) g.(edges)) state.(graph) σ,
   mkstate state.(params) state.(w) state.(h) state.(pts) state.(graph)
           state.(completed) state.(cheated) state.(just_solved)).

(** [free_game]: the reference count goes down by one and the graph is
    released when it reaches zero; the state itself is dropped. *)
Definition free_game (σ : store) (state : game_state) : store :=
  match σ !! state.(graph) with
  | Some g =>
      let rc := g.(refcount) -! 1 in
      if rc <=? 0 then delete state.(graph) σ
      else <[state.(graph) := mkgraph rc g.(edges)]> σ
  | None => σ
  end.

(** ** The completion check *)

(** [e2->a == e->a || e2->a == e->b || e2->b == e->a || e2->b == e->b] *)
Definition shares (e2 e : edge) : bool :=
  (e2.(a) =? e.(a)) || (e2.(a) =? e.(b)) || (e2.(b) =? e.(a)) || (e2.(b) =? e.(b)).

(** The inner loop over the edges [e2] that follow [e] in the tree: [true]
    when it is left by [break], that is with [e2 != NULL]. *)
Fixpoint crossing_with (P : Z → point) (e : edge) (es : list edge) : bool :=
  match es with
  | [] => false
  | e2 :: es =>
      if shares e2 e then crossing_with P e es
      else if cross (P e2.(a)) (P e2.(b)) (P e.(a)) (P e.(b)) then true
      else crossing_with P e es
  end.

(** The outer loop over the edges [e]: [true] when it is left with
    [e != NULL], a crossing having been found. *)
Fixpoint find_crossing (P : Z → point) (es : list edge) : bool :=
  match es with
  | [] => false
  | e :: es => if crossing_with P e es then true else find_crossing P es
  end.

(** ** Moves *)

(** The body of [while ( *move )] in [execute_move], run on the copy [ret].
    [Done None] is the [return NULL] of the source. *)
Fixpoint move_loop (fuel : nat) (nv : Z) (ret : game_state) (move : string)
  : result (option game_state) :=
  if is_char (cur move) NUL then Done (Some ret)
  else
    match fuel with
    | O => Diverge
    | S fuel =>
        let '(ret, move) :=
          if is_char (cur move) "S" then
            let move := advance move in
            let move := if is_char (cur move) ";" then advance move else move in
            (set_solved ret, move)
          else (ret, move) in
        if is_char (cur move) "P" then
          match sscanf_point (advance move) with
          | Some (pv, xv, yv, dv, rest) =>
              if (0 <=? pv) && (pv <? nv) && (0 <? dv) then
                let ret := set_pt ret pv (mkpoint xv yv dv) in
                let move := if is_char (cur rest) ";" then advance rest else rest in
                move_loop fuel nv ret move
              else Done None
          | None => Done None
          end
        else Done None
    end.

(** [execute_move]: the new state, or nothing when the move is refused,
    together with the store it leaves.  Every turn of the loop reads at least
    one character, so the bound is never reached ([move_loop_total]). *)
Definition execute_move (σ : store) (state : game_state) (move : string)
  : store * option game_state :=
  let nv := state.(params).(n) in
  let '(σ1, ret) := dup_game σ state in
  let ret := set_just_solved ret false in
  match move_loop (S (String.length move)) nv ret move with
  | Done (Some ret) =>
      if ret.(completed) then (σ1, Some ret)
      else
        let crossing := find_crossing (pt ret.(pts)) (graph_edges σ1 ret) in
        (σ1, Some (set_completed ret (negb crossing)))
  | Done None => (free_game σ1 ret, None)
  | Diverge => (σ1, None)
  end.

(** ** Descriptions *)

Definition out_of_range (nv v : Z) : bool := (v <? 0) || (nv <=? v).

(** The body of [while ( *desc )] in [validate_desc]; [Done None] is the
    [return NULL] that accepts the description. *)
Fixpoint validate_loop (fuel : nat) (nv : Z) (desc : string) : result (option string) :=
  if is_char (cur desc) NUL then Done None
  else
    match fuel with
    | O => Diverge
    | S fuel =>
        if out_of_range nv (atoi desc)
        then Done (Some "Number out of range in game description")
        else
          let desc := skip_digits desc in
          if negb (is_char (cur desc) "-")
          then Done (Some "Expected '-' after number in game description")
          else
            let desc := advance desc in
            if out_of_range nv (atoi desc)
            then Done (Some "Number out of range in game description")
            else
              let desc := skip_digits desc in
              if is_char (cur desc) NUL then validate_loop fuel nv desc
              else if negb (is_char (cur desc) ",")
              then Done (Some "Expected ',' after number in game description")
              else validate_loop fuel nv (advance desc)
    end.

(** [validate_desc]: an error message, or nothing for a description that is
    accepted ([validate_loop_total] shows the bound is never reached). *)
Definition validate_desc (pr : game_params) (desc : string) : option string :=
  match validate_loop (S (String.length desc)) pr.(n) desc with
  | Done r => r
  | Diverge => None
  end.

(** ** Sorted sets ([tree234]) and sorting ([qsort]) *)

Section Tree234.
Context {A : Type} (cmp : A → A → Z).

(** Modelled from the spec: tree234.c is not among the sources; the spec
    asks for an ordered container that is re-keyed when a degree changes.
    [add234] inserts an element at its place in the order and leaves the
    tree alone when an equal element is present. *)
Fixpoint add234 (t : list A) (e : A) : list A :=
  match t with
  | [] => [e]
  | e' :: t' =>
      let c := cmp e e' in
      if c <? 0 then e :: t
      else if c =? 0 then t
      else e' :: add234 t' e
  end.

(** Modelled from the spec: tree234.c is not among the sources.  [del234]
    removes the element that compares equal to [e]. *)
Fixpoint del234 (t : list A) (e : A) : list A :=
  match t with
  | [] => []
  | e' :: t' => if cmp e e' =? 0 then t' else e' :: del234 t' e
  end.

(** Modelled from the spec: tree234.c is not among the sources.  [find234]
    gives the element that compares equal to [e], if any. *)
Fixpoint find234 (t : list A) (e : A) : option A :=
  match t with
  | [] => None
  | e' :: t' => if cmp e e' =? 0 then Some e' else find234 t' e
  end.

(** Modelled from the spec: tree234.c is not among the sources.
    [index234] gives the element at a position of the order, and nothing
    (NULL) outside the tree. *)
Definition index234 (t : list A) (i : Z) : option A :=
  if i <? 0 then None else t !! Z.to_nat i.

(** [qsort] is the C library's: it leaves the array sorted by the comparison
    function.  Insertion sort stands for it; the records of [vlist] have
    different indices, so there is one sorted arrangement only. *)
Fixpoint sort_insert (v : A) (l : list A) : list A :=
  match l with
  | [] => [v]
  | u :: r => if cmp v u <=? 0 then v :: l else u :: sort_insert v r
  end.

Definition qsort (l : list A) : list A := foldr sort_insert [] l.
End Tree234.

(** ** The generator of [new_game_desc] *)

Definition MAXDEGREE : Z := 4.

(** [struct vertex] *)
Record vertex : Type := mkvertex { param : Z; vindex : Z }.

#[global] Instance vertex_inhabited : Inhabited vertex := populate (mkvertex 0 0).

#[global] Instance vertex_eq_dec : EqDecision vertex.
Proof. solve_decision. Defined.

Definition vertcmpC (u v : vertex) : Z :=
  if u.(param) <? v.(param) then -1
  else if v.(param) <? u.(param) then 1
  else if u.(vindex) <? v.(vindex) then -1
  else if v.(vindex) <? u.(vindex) then 1
  else 0.

Definition vertcmp : vertex → vertex → Z := vertcmpC.

Definition edgecmpC (u v : edge) : Z :=
  if u.(a) <? v.(a) then -1
  else if v.(a) <? u.(a) then 1
  else if u.(b) <? v.(b) then -1
  else if v.(b) <? u.(b) then 1
  else 0.

Definition edgecmp : edge → edge → Z := edgecmpC.

(** [addedge]; [min] and [max] are the macros of puzzles.h. *)
Definition addedge (es : list edge) (u v : Z) : list edge :=
  add234 edgecmp es (mkedge (Z.min u v) (Z.max u v)).

Definition isedge (es : list edge) (u v : Z) : bool :=
  bool_decide (is_Some (find234 edgecmp es (mkedge (Z.min u v) (Z.max u v)))).

(** The variables of the edge-adding loop: the array [vs] of the vertices by
    index, the tree [vertices] of the same records ordered by (degree,
    index), and the tree [edges].  The tree holds pointers into [vs]; a
    record leaves the tree before its degree is changed and is put back
    afterwards, so the tree is modelled by the values. *)
Record gen_state : Type := mkgen {
  vs : list vertex;
  vertices : list vertex;
  gen_edges : list edge
}.

(** The loop that fills [vlist] for the vertex [j], run over the vertices
    [later] that follow it in the tree. *)
Fixpoint build_vlist (ps : list point) (es : list edge) (j : Z) (later : list vertex)
  : list vertex :=
  match later with
  | [] => []
  | kv :: later =>
      let ki := kv.(vindex) in
      if (MAXDEGREE <=? kv.(param)) || isedge es ki j then build_vlist ps es j later
      else
        let dx := (pt ps ki).(x) -! (pt ps j).(x) in
        let dy := (pt ps ki).(y) -! (pt ps j).(y) in
        mkvertex (dx *! dx +! dy *! dy) ki :: build_vlist ps es j later
  end.

(** [vlist] after [qsort], for the vertex at position [i] of the tree. *)
Definition sorted_vlist (ps : list point) (st : gen_state) (i : nat) (j : Z) : list vertex :=
  qsort vertcmpC (build_vlist ps st.(gen_edges) j (drop (S i) st.(vertices))).

(** The first inner loop over [p]: the edge [ki]-[j] passes through a point. *)
Definition hits_point (ps : list point) (nv : Z) (ki j : Z) : bool :=
  existsb (λ p, negb (p =? ki) && negb (p =? j) &&
                cross (pt ps ki) (pt ps j) (pt ps p) (pt ps p))
          (seqZ 0 nv).

(** The second inner loop over the edges: the edge [ki]-[j] crosses one. *)
Definition hits_edge (ps : list point) (es : list edge) (ki j : Z) : bool :=
  existsb (λ e, negb (e.(a) =? ki) && negb (e.(a) =? j) &&
                negb (e.(b) =? ki) && negb (e.(b) =? j) &&
                cross (pt ps ki) (pt ps j) (pt ps e.(a)) (pt ps e.(b)))
          es.

(** The loop over [vlist]: the first candidate whose edge can be added. *)
Fixpoint first_fit (ps : list point) (nv : Z) (es : list edge) (j : Z) (vlist : list vertex)
  : option Z :=
  match vlist with
  | [] => None
  | c :: vlist =>
      let ki := c.(vindex) in
      if hits_point ps nv ki j then first_fit ps nv es j vlist
      else if hits_edge ps es ki j then first_fit ps nv es j vlist
      else Some ki
  end.

(** [del234(vertices, vs+j); vs[j].param++; add234(vertices, vs+j);] *)
Definition bump (st : gen_state) (j : Z) : gen_state :=
  let v := st.(vs) !!! Z.to_nat j in
  let t := del234 vertcmp st.(vertices) v in
  let v' := mkvertex (v.(param) +! 1) v.(vindex) in
  mkgen (<[Z.to_nat j := v']> st.(vs)) (add234 vertcmp t v') st.(gen_edges).

(** The edge [j]-[ki] is added and both degrees go up. *)
Definition link (st : gen_state) (j ki : Z) : gen_state :=
  let st := mkgen st.(vs) st.(vertices) (addedge st.(gen_edges) j ki) in
  bump (bump st j) ki.

(** The loop [for (i = 0; i < n; i++)]: the state after the edge it adds, or
    nothing when it adds none.  [todo] counts the positions still to visit.
    The tree holds [n] records throughout, so the loop over [k] from [i+1]
    to [n-1] in [sorted_vlist] visits the records after position [i]. *)
Fixpoint scan (ps : list point) (nv : Z) (st : gen_state) (i todo : nat) : option gen_state :=
  match todo with
  | O => None
  | S todo =>
      match index234 st.(vertices) (Z.of_nat i) with
      | None => None
      | Some v =>
          let j := v.(vindex) in
          if MAXDEGREE <=? v.(param) then None
          else
            match first_fit ps nv st.(gen_edges) j (sorted_vlist ps st i j) with
            | Some ki => Some (link st j ki)
            | None => scan ps nv st (S i) todo
            end
      end
  end.

(** The state before the first round: every degree is zero. *)
Definition gen_init (nv : Z) : gen_state :=
  let vs0 := (λ i, mkvertex 0 i) <$> seqZ 0 nv in
  mkgen vs0 (foldl (add234 vertcmp) [] vs0) [].

(** The loop [while (1)] around the scan. *)
Fixpoint grow (fuel : nat) (ps : list point) (nv : Z) (st : gen_state) : result gen_state :=
  match fuel with
  | O => Diverge
  | S fuel =>
      match scan ps nv st 0 (Z.to_nat nv) with
      | Some st' => grow fuel ps nv st'
      | None => Done st
      end
  end.

(** The states the generator goes through. *)
Inductive gen_reach (ps : list point) (nv : Z) : gen_state → Prop :=
  | reach_init : gen_reach ps nv (gen_init nv)
  | reach_round st st' :
      gen_reach ps nv st →
      scan ps nv st 0 (Z.to_nat nv) = Some st' →
      gen_reach ps nv st'.

(** ** The scrambler of [new_game_desc] *)

Section Scrambler.
(** [shuffle] (misc.c) and the random state are not among the sources:
    they are parameters.  The circle [pts2] of [make_circle] is computed in
    floating point and is a parameter as well. *)
Context {random_state : Type}.
Variable shuffle : list Z → random_state → list Z * random_state.

(** [pts2[tmp[i]]] *)
Definition permuted (pts2 : list point) (tmp : list Z) (i : Z) : point :=
  pt pts2 (tmp !!! Z.to_nat i).

(** The loop [while (1)] that shuffles until a crossing is found. *)
Fixpoint scramble (fuel : nat) (pts2 : list point) (es : list edge)
         (tmp : list Z) (rs : random_state) : result (list Z * random_state) :=
  match fuel with
  | O => Diverge
  | S fuel =>
      let '(tmp, rs) := shuffle tmp rs in
      if find_crossing (permuted pts2 tmp) es then Done (tmp, rs)
      else scramble fuel pts2 es tmp rs
  end.
End Scrambler.

(** ** The text of a move, as the specification describes it

    A move is a sequence of point updates [P<i>:<x>,<y>/<d>] with
    [0 <= i < n] and [d > 0], each one possibly preceded by a solve marker
    [S] and followed by a separator [;].  A number is written as [%d] reads
    it: white space, an optional sign, decimal digits; the conditions on
    [i] and [d] are on the [int]s that [%d] stores ([to_int]). *)

Fixpoint all_chars (f : ascii → bool) (s : string) : bool :=
  match s with
  | EmptyString => true
  | String c r => f c && all_chars f r
  end.

Fixpoint has_char (c : ascii) (s : string) : bool :=
  match s with
  | EmptyString => false
  | String c' r => is_char c' c || has_char c r
  end.

(** The decimal value of a string of digits, on top of [acc]. *)
Fixpoint digits_value (s : string) (acc : Z) : Z :=
  match s with
  | EmptyString => acc
  | String c r => digits_value r (10 * acc + digit_val c)
  end.

Inductive sign_text : string → bool → Prop :=
  | sign_none : sign_text "" false
  | sign_plus : sign_text "+" false
  | sign_minus : sign_text "-" true.

(** A number as [%d] reads it, with the value [%d] stores: the decimal
    value, negated after a minus sign, held within the range of [long] and
    cut to an [int]. *)
Inductive int_text : string → Z → Prop :=
  | int_text_intro ws sg ds neg :
      all_chars isspace ws = true →
      sign_text sg neg →
      ds ≠ "" →
      all_chars isdigit ds = true →
      int_text (ws +:+ sg +:+ ds)
               (to_int neg (digits_value ds 0)).

(** One update record and the update it stands for. *)
Inductive record_text (nv : Z) : string → Z * point → Prop :=
  | record_text_intro tp tx ty td pv xv yv dv :
      int_text tp pv → int_text tx xv → int_text ty yv → int_text td dv →
      0 <= pv < nv →
      0 < dv →
      record_text nv ("P" +:+ tp +:+ ":" +:+ tx +:+ "," +:+ ty +:+ "/" +:+ td)
                  (pv, mkpoint xv yv dv).

(** The solve marker in front of a record: none, [S] or [S;]. *)
Inductive marker_text : string → bool → Prop :=
  | marker_none : marker_text "" false
  | marker_S : marker_text "S" true
  | marker_S_sep : marker_text "S;" true.

Inductive sep_text : string → Prop :=
  | sep_none : sep_text ""
  | sep_semi : sep_text ";".

(** A whole move: the updates it carries, in order, and whether it carries
    a solve marker. *)
Inductive move_text (nv : Z) : string → list (Z * point) → bool → Prop :=
  | move_text_nil : move_text nv "" [] false
  | move_text_cons mk r sep rest u ups solved solved' :
      marker_text mk solved →
      record_text nv r u →
      sep_text sep →
      move_text nv rest ups solved' →
      move_text nv (mk +:+ r +:+ sep +:+ rest) (u :: ups) (solved || solved').

(** The updates of a move applied to the points, first to last. *)
Definition apply_updates (ups : list (Z * point)) (ps : list point) : list point :=
  foldl (λ ps u, <[Z.to_nat u.1 := u.2]> ps) ps ups.

(** The state a move leaves, before the completion check: the points are
    updated, and a solve marker raises [cheated] and [just_solved]. *)
Definition moved (ret : game_state) (ups : list (Z * point)) (solved : bool) : game_state :=
  mkstate ret.(params) ret.(w) ret.(h) (apply_updates ups ret.(pts)) ret.(graph)
          ret.(completed) (ret.(cheated) || solved) (ret.(just_solved) || solved).

(** A C string holds no NUL before its end. *)
Definition no_nul (s : string) : Prop := has_char NUL s = false.

(** ** What the completion check decides *)

(** The edges [e] and [e2] have no endpoint in common. *)
Definition apart (e e2 : edge) : Prop :=
  e2.(a) ≠ e.(a) ∧ e2.(a) ≠ e.(b) ∧ e2.(b) ≠ e.(a) ∧ e2.(b) ≠ e.(b).

(** No edge of the tree crosses an earlier edge that it has no endpoint in
    common with, where [cross] takes the later edge first and the earlier
    edge second, and is asked in that order only. *)
Definition no_crossing (P : Z → point) (es : list edge) : Prop :=
  ∀ (i j : nat) (e e2 : edge),
    (i < j)%nat → es !! i = Some e → es !! j = Some e2 →
    apart e e2 →
    cross (P e2.(a)) (P e2.(b)) (P e.(a)) (P e.(b)) = false.

(** The graph of a state is allocated and its reference count is sound. *)
Definition graph_live (σ : store) (st : game_state) : Prop :=
  ∃ g, σ !! st.(graph) = Some g ∧ 0 < g.(refcount) < INT_MAX.

(** ** The text of a description, as the specification describes it

    A description is a list of tokens [a-b] separated by commas, [a] and [b]
    decimal numbers in [0, n), as the [int]s that [atoi] returns for them.
    Nothing is asked of the order of [a] and [b] nor of the tokens being
    different. *)

Inductive num_text : string → Z → Prop :=
  | num_text_intro ds :
      ds ≠ "" → all_chars isdigit ds = true →
      num_text ds (to_int false (digits_value ds 0)).

Inductive token_text (nv : Z) : string → Z * Z → Prop :=
  | token_text_intro ta tb av bv :
      num_text ta av → num_text tb bv →
      0 <= av < nv → 0 <= bv < nv →
      token_text nv (ta +:+ "-" +:+ tb) (av, bv).

Inductive desc_text (nv : Z) : string → list (Z * Z) → Prop :=
  | desc_text_nil : desc_text nv "" []
  | desc_text_one t u : token_text nv t u → desc_text nv t [u]
  | desc_text_more t u rest toks :
      token_text nv t u → desc_text nv rest toks → toks ≠ [] →
      desc_text nv (t +:+ "," +:+ rest) (u :: toks).

(** ** What the generator maintains *)

(** The edge [e] ends at the vertex [u]. *)
Definition incident (e : edge) (u : Z) : bool := (e.(a) =? u) || (e.(b) =? u).

(** The number of edges that end at [u]. *)
Fixpoint degree (es : list edge) (u : Z) : Z :=
  match es with
  | [] => 0
  | e :: es => (if incident e u then 1 else 0) + degree es u
  end.

(** Some edge joins [u] and [v]. *)
Definition adjacent (es : list edge) (u v : Z) : Prop :=
  ∃ e, e ∈ es ∧ ((e.(a) = u ∧ e.(b) = v) ∨ (e.(a) = v ∧ e.(b) = u)).

(** The squared Euclidean distance of two grid points (denominator 1). *)
Definition sqdist (p q : point) : Z :=
  (p.(x) - q.(x)) ^ 2 + (p.(y) - q.(y)) ^ 2.

(** The order of the candidates of the vertex [j]: nearer first, and the
    lower index first at the same distance. *)
Definition nearer (ps : list point) (j : Z) (c1 c2 : vertex) : Prop :=
  let d1 := sqdist (pt ps c1.(vindex)) (pt ps j) in
  let d2 := sqdist (pt ps c2.(vindex)) (pt ps j) in
  d1 < d2 ∨ (d1 = d2 ∧ c1.(vindex) < c2.(vindex)).

(** The order of the tree [vertices]. *)
Definition vert_lt (u v : vertex) : Prop := vertcmp u v < 0.

(** The grid points of the generator have small coordinates. *)
Definition grid_points (ps : list point) : Prop :=
  Forall (λ p, 0 <= p.(x) < 2 ^ 15 ∧ 0 <= p.(y) < 2 ^ 15) ps.

(** The array [vs] and the tree [vertices] hold the same records, one per
    index, the tree in its order; no degree exceeds the maximum. *)
Record gen_struct (nv : Z) (st : gen_state) : Prop := mk_gen_struct {
  st_length : length st.(vs) = Z.to_nat nv;
  st_index : ∀ (i : nat) v, st.(vs) !! i = Some v → v.(vindex) = Z.of_nat i;
  st_members : ∀ v, v ∈ st.(vertices) ↔ v ∈ st.(vs);
  st_sorted : StronglySorted vert_lt st.(vertices);
  st_bound : ∀ v, v ∈ st.(vs) → 0 <= v.(param) <= MAXDEGREE
}.

(** Moreover the recorded degrees are the degrees in the edge set, and the
    edges are stored as (lower, higher) over the indices of the points. *)
Record gen_inv (nv : Z) (st : gen_state) : Prop := mk_gen_inv {
  inv_struct : gen_struct nv st;
  inv_degree : ∀ (i : nat) v,
    st.(vs) !! i = Some v → v.(param) = degree st.(gen_edges) (Z.of_nat i);
  inv_edges : ∀ e, e ∈ st.(gen_edges) → 0 <= e.(a) < e.(b) ∧ e.(b) < nv
}.

(** The sum of the recorded degrees, the measure of the generator's
    progress. *)
Fixpoint degree_sum (l : list vertex) : Z :=
  match l with
  | [] => 0
  | v :: l => v.(param) + degree_sum l
  end.

(** ** Sample data

    A cycle 0-1-3-2 over the corners of a square.  In [tangled_state] the two
    edges 0-2 and 1-3 are the diagonals; in [solved_state] the vertices 2 and
    3 have changed places and no edge crosses another. *)

Definition square_graph : struct_graph :=
  mkgraph 1 [mkedge 0 1; mkedge 0 2; mkedge 1 3; mkedge 2 3].

Definition square_store : store := {[ 1%positive := square_graph ]}.

Definition tangled_state : game_state :=
  mkstate (mkparams 4) 3 3
          [mkpoint 0 0 1; mkpoint 2 0 1; mkpoint 2 2 1; mkpoint 0 2 1]
          1%positive false false false.

Definition solved_state : game_state :=
  mkstate (mkparams 4) 3 3
          [mkpoint 0 0 1; mkpoint 2 0 1; mkpoint 0 2 1; mkpoint 2 2 1]
          1%positive true false false.

(** Two collinear edges that overlap: 0-1 from (3/4,0) to (2,0), written
    over the denominator 4, and 2-3 from (0,0) to (1,0). *)
Definition overlap_store : store :=
  {[ 1%positive := mkgraph 1 [mkedge 0 1; mkedge 2 3] ]}.

Definition overlap_state : game_state :=
  mkstate (mkparams 4) 3 3
          [mkpoint 3 0 4; mkpoint 8 0 4; mkpoint 0 0 1; mkpoint 1 0 1]
          1%positive false false false.

(** A sample random source for the scrambler: the state counts the draws;
    the first draw leaves the square untangled, the later ones tangle it. *)
Definition sample_shuffle (tmp : list Z) (rs : nat) : list Z * nat :=
  (match rs with
   | O => [0; 1; 3; 2]
   | S _ => [0; 1; 2; 3]
   end, S rs).

Definition square_circle : list point :=
  [mkpoint 0 0 1; mkpoint 2 0 1; mkpoint 2 2 1; mkpoint 0 2 1].

(** Sample points for the generator, on a grid of side 4. *)
Definition sample_points : list point :=
  [mkpoint 0 0 1; mkpoint 2 1 1; mkpoint 1 3 1; mkpoint 3 3 1; mkpoint 1 1 1].

(** ** Printing numbers

    [sprintf] with [%d] writes an [int] in decimal, with a minus sign in
    front of a negative number.  An [int] has at most ten digits. *)

Definition digit_char (v : Z) : ascii := ascii_of_nat (48 + Z.to_nat v).
Arguments digit_char : simpl never.

(** The digits of [v], least significant first, put in front of [acc]. *)
Fixpoint print_digits (fuel : nat) (v : Z) (acc : string) : string :=
  match fuel with
  | O => acc
  | S fuel =>
      let acc := String (digit_char (v mod 10)) acc in
      if v <? 10 then acc else print_digits fuel (v / 10) acc
  end.

Definition print_int (v : Z) : string :=
  if v <? 0 then String "-" (print_digits 10 (- v) "") else print_digits 10 v "".

(** ** Parameters *)

Definition default_params : game_params := mkparams 10.

(** [game_fetch_preset]: the name and the parameters of preset [i], or
    nothing ([FALSE]) past the last one. *)
Definition game_fetch_preset (i : Z) : option (string * game_params) :=
  let preset (nv : Z) := Some (print_int nv +:+ " points", mkparams nv) in
  if i =? 0 then preset 6
  else if i =? 1 then preset 10
  else if i =? 2 then preset 15
  else if i =? 3 then preset 20
  else if i =? 4 then preset 25
  else None.

(** [decode_params] writes the only field of the parameters. *)
Definition decode_params (s : string) : game_params := mkparams (atoi s).

Definition encode_params (pr : game_params) : string := print_int pr.(n).

(** [config_item] and its type tags are declared in puzzles.h. *)
Inductive config_type : Type := C_STRING | C_END.

Record config_item : Type := mkconfig {
  cfg_name : option string;
  cfg_type : config_type;
  cfg_sval : option string;
  cfg_ival : Z
}.

(** [game_configure]: the two items it fills in (the array has room for a
    third, which is left as allocated). *)
Definition game_configure (pr : game_params) : list config_item :=
  [mkconfig (Some "Number of points") C_STRING (Some (print_int pr.(n))) 0;
   mkconfig None C_END None 0].

(** [custom_params] reads [cfg[0].sval]. *)
Definition custom_params (cfg : list config_item) : option game_params :=
  match cfg with
  | item :: _ =>
      match item.(cfg_sval) with
      | Some s => Some (mkparams (atoi s))
      | None => None
      end
  | [] => None
  end.

Definition validate_params (pr : game_params) : option string :=
  if pr.(n) <? 4 then Some "Number of points must be at least four" else None.

(** ** The side of the grid *)

(** An [unsigned long], taken to be 64 bits wide; on the arguments below
    [2^32] the code of [squarert] stays below [2^32], so that a width of 32
    bits gives the same results there. *)
Definition uwrap (z : Z) : Z := z mod 2 ^ 64.

(** The body of [do ... while (b)] in [squarert]. *)
Fixpoint squarert_loop (fuel : nat) (dv av bv : Z) : result Z :=
  match fuel with
  | O => Diverge
  | S fuel =>
      let av := Z.shiftr av 1 in
      let di := uwrap (uwrap (2 * av) + bv) in
      let '(dv, av) :=
        if di <=? dv then (uwrap (dv - di), uwrap (av + bv)) else (dv, av) in
      let bv := Z.shiftr bv 2 in
      if bv =? 0 then Done av else squarert_loop fuel dv av bv
  end.

(** [squarert]; [b] starts at [1 << 30] and is shifted by two bits a turn,
    so the loop makes sixteen turns. *)
Definition squarert (nv : Z) : Z :=
  match squarert_loop 16 nv 0 (Z.shiftl 1 30) with
  | Done r => r
  | Diverge => 0
  end.

Definition POINTDENSITY : Z := 3.

(** [COORDLIMIT(n)]: the product is an [int], converted to [unsigned long]. *)
Definition COORDLIMIT (nv : Z) : Z := squarert (uwrap (nv *! POINTDENSITY)).

(** ** Writing and reading a description *)

(** [sprintf(buf, "%d-%d", e.a, e.b)] *)
Definition print_edge (e : edge) : string :=
  print_int e.(a) +:+ "-" +:+ print_int e.(b).

(** The loop of [new_game_desc] that writes the sorted array [ea], with the
    separator [sep] in front of each edge: empty for the first edge, a comma
    from then on. *)
Fixpoint print_edges (sep : string) (ea : list edge) : string :=
  match ea with
  | [] => ""
  | e :: ea => sep +:+ print_edge e +:+ print_edges "," ea
  end.

(** [ea[i]]: the edge [e] after the permutation [tmp] of the points. *)
Definition permute_edge (tmp : list Z) (e : edge) : edge :=
  let u := tmp !!! Z.to_nat e.(a) in
  let v := tmp !!! Z.to_nat e.(b) in
  mkedge (Z.min u v) (Z.max u v).

(** The description [new_game_desc] returns for the edge tree [es]. *)
Definition encode_desc (tmp : list Z) (es : list edge) : string :=
  print_edges "" (qsort edgecmpC (permute_edge tmp <$> es)).

(** [retlen], the size of the buffer of the description, as the first loop
    over the edges adds it up. *)
Fixpoint desc_retlen (ea : list edge) : Z :=
  match ea with
  | [] => 0
  | e :: ea => (1 + Z.of_nat (String.length (print_edge e))) + desc_retlen ea
  end.

(** The body of [while ( *desc )] in [new_game]; [Done None] is a failed
    [assert], including the one of [addedge]. *)
Fixpoint new_game_loop (fuel : nat) (nv : Z) (es : list edge) (desc : string)
  : result (option (list edge)) :=
  if is_char (cur desc) NUL then Done (Some es)
  else
    match fuel with
    | O => Diverge
    | S fuel =>
        let av := atoi desc in
        if out_of_range nv av then Done None
        else
          let desc := skip_digits desc in
          if negb (is_char (cur desc) "-") then Done None
          else
            let desc := advance desc in
            let bv := atoi desc in
            if out_of_range nv bv then Done None
            else
              let desc := skip_digits desc in
              if negb (is_char (cur desc) NUL) && negb (is_char (cur desc) ",")
              then Done None
              else
                let desc := if is_char (cur desc) NUL then desc else advance desc in
                if av =? bv then Done None
                else new_game_loop fuel nv (addedge es av bv) desc
    end.

Section New_game.
(** [make_circle] works in floating point; the points it gives for [n] and
    [w] are a parameter. *)
Variable make_circle : Z → Z → list point.

(** [new_game]: the store with the new graph and the first state, or nothing
    when an [assert] fails.  The graph is allocated at an address that is
    not in use. *)
Definition new_game (σ : store) (pr : game_params) (desc : string)
  : option (store * game_state) :=
  let nv := pr.(n) in
  let wv := wrap (COORDLIMIT nv) in
  match new_game_loop (S (String.length desc)) nv [] desc with
  | Done (Some es) =>
      let l := fresh (dom σ) in
      Some (<[l := mkgraph 1 es]> σ,
            mkstate pr wv wv (make_circle nv wv) l false false false)
  | Done None => None
  | Diverge => None
  end.
End New_game.

(** The order of the edge tree. *)
Definition edge_lt (u v : edge) : Prop := edgecmp u v < 0.

(** The pairs of numbers a list of edges is written as. *)
Definition edge_pairs (ea : list edge) : list (Z * Z) := (λ e, (e.(a), e.(b))) <$> ea.

(** ** The solution kept as [aux] *)

(** [u / v] on [int]: the quotient is rounded towards zero. *)
Definition idiv (u v : Z) : Z := wrap (Z.quot u v).

(** [sprintf(buf, "P%d:%d,%d/%d", i, p.x, p.y, p.d)] *)
Definition print_record (i : Z) (p : point) : string :=
  "P" +:+ print_int i +:+ ":" +:+ print_int p.(x) +:+ "," +:+ print_int p.(y)
      +:+ "/" +:+ print_int p.(d).

(** The point [pts[i]] as [new_game_desc] stores it in [pts2]: written over
    an even denominator and moved by half a unit in both directions. *)
Definition centre (p : point) : point :=
  let p := if negb (Z.land p.(d) 1 =? 0)
           then mkpoint (p.(x) *! 2) (p.(y) *! 2) (p.(d) *! 2) else p in
  mkpoint (p.(x) +! idiv p.(d) 2) (p.(y) +! idiv p.(d) 2) p.(d).

(** The first loop over the points, [pts2[tmp[i]] = pts[i]] and so on, and
    [auxlen] as it adds up the lengths.  The indices [tmp[i]] lie in the
    array: [tmp] is a permutation of the points. *)
Fixpoint place (pts : list point) (tmp : list Z) (pts2 : list point) (auxlen : Z)
    (todo : list Z) : list point * Z :=
  match todo with
  | [] => (pts2, auxlen)
  | i :: todo =>
      let j := tmp !!! Z.to_nat i in
      let q := centre (pt pts i) in
      place pts tmp (<[Z.to_nat j := q]> pts2)
            (auxlen +! Z.of_nat (String.length (";" +:+ print_record i q))) todo
  end.

(** The second loop over the points, which writes after the leading [S]. *)
Fixpoint print_records (pts2 : list point) (todo : list Z) : string :=
  match todo with
  | [] => ""
  | i :: todo => ";" +:+ print_record i (pt pts2 i) +:+ print_records pts2 todo
  end.

Definition aux_string (pts2 : list point) (nv : Z) : string :=
  String "S" (print_records pts2 (seqZ 0 nv)).

(** The updates the records of [aux_string] stand for. *)
Definition aux_updates (pts2 : list point) (todo : list Z) : list (Z * point) :=
  (λ i, (i, pt pts2 i)) <$> todo.

(** The components of a point are [int]s and its denominator is positive. *)
Definition point_ok (p : point) : Prop :=
  in_int p.(x) ∧ in_int p.(y) ∧ in_int p.(d) ∧ 0 < p.(d).

(** ** The points of the solution *)

(** [u % v] on [int]: the remainder of the division rounded towards zero. *)
Definition irem (u v : Z) : Z := wrap (Z.rem u v).

Section Points.
(** [shuffle] (misc.c) and the random state are not among the sources:
    they are parameters. *)
Context {random_state : Type}.
Variable shuffle : list Z → random_state → list Z * random_state.

(** The loop that reads the first [n] cells of the shuffled grid. *)
Definition grid_cells (tmp : list Z) (nv wv : Z) : list point :=
  (λ i, let c := tmp !!! Z.to_nat i in mkpoint (irem c wv) (idiv c wv) 1) <$> seqZ 0 nv.

(** The start of [new_game_desc]: the side of the grid, its cells in
    shuffled order, and the [n] points. *)
Definition choose_points (nv : Z) (rs : random_state) : list point * random_state :=
  let wv := wrap (COORDLIMIT nv) in
  let hv := wv in
  let '(tmp, rs) := shuffle (seqZ 0 (wv *! hv)) rs in
  (grid_cells tmp nv wv, rs).
End Points.

(** ** The user interface *)

(** The mouse events of puzzles.h that [interpret_move] tells apart; every
    other value of [button] is [OTHER_BUTTON]. *)
Inductive button : Type := LEFT_BUTTON | LEFT_DRAG | LEFT_RELEASE | OTHER_BUTTON.

Definition CIRCLE_RADIUS : Z := 6.
Definition DRAG_THRESHOLD : Z := CIRCLE_RADIUS *! 2.

(** The times the game returns are the constants of the source (and
    [0.0F]); nothing is computed with them. *)
Inductive duration : Type := NO_TIME | FLASH_TIME | ANIM_TIME | SOLVEANIM_TIME.

(** [struct game_ui] *)
Record game_ui : Type := mkui {
  dragpoint : Z;
  newpoint : point;
  just_dragged : bool;
  just_moved : bool;
  anim_length : duration
}.

(** [struct game_drawstate] *)
Record game_drawstate : Type := mkds { tilesize : Z }.

(** [new_ui] leaves [newpoint] and [anim_length] as allocated: what they
    hold is a parameter. *)
Definition new_ui (newpoint0 : point) (anim_length0 : duration) : game_ui :=
  mkui (-1) newpoint0 false false anim_length0.

Definition game_changed_state (ui : game_ui) : game_ui :=
  mkui (-1) ui.(newpoint) false ui.(just_dragged) ui.(anim_length).

Definition game_set_size (ds : game_drawstate) (ts : Z) : game_drawstate := mkds ts.

(** [COORDLIMIT(params->n) * tilesize] is computed in [unsigned long] and
    stored in an [int]. *)
Definition game_compute_size (pr : game_params) (ts : Z) : Z * Z :=
  let v := wrap (uwrap (COORDLIMIT pr.(n) * uwrap ts)) in (v, v).

(** [d] in the loop of [interpret_move]: the square of the distance on the
    screen from the point [i] to the pointer. *)
Definition screen_dist (state : game_state) (ds : game_drawstate) (xv yv i : Z) : Z :=
  let p := pt state.(pts) i in
  let px := idiv (p.(x) *! ds.(tilesize)) p.(d) in
  let py := idiv (p.(y) *! ds.(tilesize)) p.(d) in
  let dx := px -! xv in
  let dy := py -! yv in
  dx *! dx +! dy *! dy.

(** The loop over the points that looks for the nearest one; [dist i] is
    the value of [d] for the point [i]. *)
Fixpoint nearest (dist : Z → Z) (best bestd : Z) (todo : list Z) : Z * Z :=
  match todo with
  | [] => (best, bestd)
  | i :: todo =>
      if (best =? -1) || (dist i <? bestd)
      then nearest dist i (dist i) todo
      else nearest dist best bestd todo
  end.

(** [interpret_move]: the user interface as it leaves it, and the string
    returned; [None] is [NULL] and the empty string asks for a redraw. *)
Definition interpret_move (state : game_state) (ui : game_ui) (ds : game_drawstate)
    (xv yv : Z) (b : button) : game_ui * option string :=
  let nv := state.(params).(n) in
  let drag (p : Z) :=
    mkui p (mkpoint xv yv ds.(tilesize)) ui.(just_dragged) ui.(just_moved)
         ui.(anim_length) in
  match b with
  | LEFT_BUTTON =>
      let '(best, bestd) := nearest (screen_dist state ds xv yv) (-1) 0 (seqZ 0 nv) in
      if bestd <=? DRAG_THRESHOLD *! DRAG_THRESHOLD
      then (drag best, Some "")
      else (ui, None)
  | LEFT_DRAG =>
      if 0 <=? ui.(dragpoint) then (drag ui.(dragpoint), Some "") else (ui, None)
  | LEFT_RELEASE =>
      if 0 <=? ui.(dragpoint) then
        let p := ui.(dragpoint) in
        let q := ui.(newpoint) in
        if (q.(x) <? 0) || (state.(w) *! q.(d) <=? q.(x)) ||
           (q.(y) <? 0) || (state.(h) *! q.(d) <=? q.(y))
        then (mkui (-1) q ui.(just_dragged) ui.(just_moved) ui.(anim_length), Some "")
        else (mkui (-1) q true ui.(just_moved) ui.(anim_length),
              Some (print_record p q))
      else (ui, None)
  | OTHER_BUTTON => (ui, None)
  end.

(** [game_anim_length] stores the time it returns, unless the move was
    made by dragging. *)
Definition game_anim_length (oldstate newstate : game_state) (dir : Z) (ui : game_ui)
  : game_ui * duration :=
  if ui.(just_moved) then (ui, NO_TIME)
  else
    let t := if (if dir <? 0 then oldstate else newstate).(just_solved)
             then SOLVEANIM_TIME else ANIM_TIME in
    (mkui ui.(dragpoint) ui.(newpoint) ui.(just_dragged) ui.(just_moved) t, t).

Definition game_flash_length (oldstate newstate : game_state) (dir : Z) (ui : game_ui)
  : duration :=
  if negb oldstate.(completed) && newstate.(completed) &&
     negb oldstate.(cheated) && negb newstate.(cheated)
  then FLASH_TIME else NO_TIME.

(** The drag of the user interface is off, or it holds a point. *)
Definition ui_ok (nv : Z) (ui : game_ui) : Prop :=
  ui.(dragpoint) = -1 ∨ 0 <= ui.(dragpoint) < nv.

(** [solve_game]: the solution kept in [aux], or the error message when
    there is none. *)
Definition solve_game (state currstate : game_state) (aux : option string)
  : string + string :=
  match aux with
  | None => inr "Solution not known for this puzzle"
  | Some s => inl s
  end.

(** * Properties *)

(** ** Strings *)

Lemma sapp_nil_l (s : string) : "" +:+ s = s.
Proof. reflexivity. Qed.

Lemma sapp_cons (c : ascii) (s r : string) : String c s +:+ r = String c (s +:+ r).
Proof. reflexivity. Qed.

Ltac sapp := repeat (rewrite sapp_cons || rewrite sapp_nil_l).

Lemma sapp_assoc (s1 s2 s3 : string) : (s1 +:+ s2) +:+ s3 = s1 +:+ s2 +:+ s3.
Proof. induction s1 as [|c s1 IH]; sapp; [done|by f_equal]. Qed.

Lemma sapp_nil_r (s : string) : s +:+ "" = s.
Proof. induction s as [|c s IH]; sapp; [done|by f_equal]. Qed.

Lemma slength_app (s1 s2 : string) :
  String.length (s1 +:+ s2) = (String.length s1 + String.length s2)%nat.
Proof. induction s1 as [|c s1 IH]; sapp; simpl; [done|by rewrite IH]. Qed.

Lemma is_char_eq (c c' : ascii) : is_char c c' = true ↔ c = c'.
Proof. apply Ascii.eqb_eq. Qed.

Lemma is_char_refl (c : ascii) : is_char c c = true.
Proof. by apply is_char_eq. Qed.

Lemma is_char_cur (s : string) (c : ascii) :
  c ≠ NUL → is_char (cur s) c = true → s = String c (advance s).
Proof.
  intros Hc Heq. apply is_char_eq in Heq. destruct s as [|c' r]; simpl in *; congruence.
Qed.

Lemma has_char_app c (s1 s2 : string) :
  has_char c (s1 +:+ s2) = has_char c s1 || has_char c s2.
Proof.
  induction s1 as [|c' s1 IH]; sapp; simpl; [done|].
  rewrite <- orb_assoc. by f_equal.
Qed.

(** Facts on character classes, by enumeration of the 256 characters. *)
Ltac by_chars c := destruct c as [[] [] [] [] [] [] [] []]; vm_compute; congruence.

Lemma digit_not_space c : isdigit c = true → isspace c = false.
Proof. by_chars c. Qed.

Lemma digit_not_minus c : isdigit c = true → is_char c "-" = false.
Proof. by_chars c. Qed.

Lemma digit_not_plus c : isdigit c = true → is_char c "+" = false.
Proof. by_chars c. Qed.

Lemma digit_not_S c : isdigit c = true → is_char c "S" = false.
Proof. by_chars c. Qed.

Lemma digit_not_nul c : isdigit c = true → is_char c NUL = false.
Proof. by_chars c. Qed.

Lemma space_not_S c : isspace c = true → is_char c "S" = false.
Proof. by_chars c. Qed.

(** ** Reading numbers *)

Lemma skip_space_app (ws r : string) :
  all_chars isspace ws = true → skip_space (ws +:+ r) = skip_space r.
Proof.
  induction ws as [|c ws IH]; sapp; simpl; [done|].
  intros [Hc Hws]%andb_true_iff. rewrite Hc. auto.
Qed.

Lemma skip_space_id (r : string) : isspace (cur r) = false → skip_space r = r.
Proof. destruct r as [|c r]; simpl; [done|]. by intros ->. Qed.

Lemma skip_space_sound (s : string) :
  ∃ ws, s = ws +:+ skip_space s ∧ all_chars isspace ws = true.
Proof.
  induction s as [|c s (ws & Heq & Hws)]; simpl.
  - by exists "".
  - destruct (isspace c) eqn:Hc.
    + exists (String c ws). sapp. simpl. rewrite Hc, Hws. split; [by f_equal|done].
    + by exists "".
Qed.

Lemma scan_digits_app (ds rest : string) (acc : Z) :
  all_chars isdigit ds = true → isdigit (cur rest) = false →
  scan_digits (ds +:+ rest) acc = (digits_value ds acc, rest).
Proof.
  revert acc. induction ds as [|c ds IH]; sapp; simpl; intros acc Hds Hrest.
  - destruct rest as [|c r]; simpl in *; [done|]. by rewrite Hrest.
  - apply andb_true_iff in Hds as [Hc Hds]. rewrite Hc. auto.
Qed.

Lemma scan_digits_sound (s : string) (acc : Z) :
  ∃ ds, s = ds +:+ (scan_digits s acc).2 ∧ all_chars isdigit ds = true ∧
        (scan_digits s acc).1 = digits_value ds acc ∧
        isdigit (cur (scan_digits s acc).2) = false ∧
        (isdigit (cur s) = true → ds ≠ "").
Proof.
  revert acc. induction s as [|c s IH]; simpl; intros acc.
  - by exists "".
  - destruct (isdigit c) eqn:Hc.
    + destruct (IH (10 * acc + digit_val c)) as (ds & Heq & Hds & Hv & Hr & _).
      exists (String c ds). sapp. simpl. rewrite Hc, Hds. repeat split; try done.
      by f_equal.
    + exists "". simpl. by rewrite Hc.
Qed.

Lemma scan_sign_sound (s : string) :
  ∃ sg, s = sg +:+ (scan_sign s).2 ∧ sign_text sg (scan_sign s).1.
Proof.
  unfold scan_sign.
  destruct (is_char (cur s) "-") eqn:Hm.
  { exists "-". split; [|constructor]. by apply is_char_cur in Hm. }
  destruct (is_char (cur s) "+") eqn:Hp.
  { exists "+". split; [|constructor]. by apply is_char_cur in Hp. }
  exists "". split; [done|constructor].
Qed.

Lemma scan_sign_app (sg r : string) (neg : bool) :
  sign_text sg neg → isdigit (cur r) = true → scan_sign (sg +:+ r) = (neg, r).
Proof.
  intros Hsg Hr. destruct Hsg; sapp; try done.
  unfold scan_sign. by rewrite (digit_not_minus _ Hr), (digit_not_plus _ Hr).
Qed.

Lemma cur_digits (ds r : string) :
  ds ≠ "" → all_chars isdigit ds = true → isdigit (cur (ds +:+ r)) = true.
Proof.
  destruct ds as [|c ds]; [done|]. sapp. simpl. by intros _ [? _]%andb_true_iff.
Qed.

Lemma cur_sign_digits (sg ds r : string) (neg : bool) :
  sign_text sg neg → ds ≠ "" → all_chars isdigit ds = true →
  isspace (cur (sg +:+ ds +:+ r)) = false.
Proof.
  intros Hsg Hne Hds. destruct Hsg; sapp; try done.
  apply digit_not_space. by apply cur_digits.
Qed.

Lemma scan_int_complete (t rest : string) (v : Z) :
  int_text t v → isdigit (cur rest) = false →
  scan_int (t +:+ rest) = Some (v, rest).
Proof.
  intros [ws sg ds neg Hws Hsg Hne Hds] Hrest.
  unfold scan_int. rewrite !sapp_assoc.
  rewrite (skip_space_app _ _ Hws).
  rewrite skip_space_id by eauto using cur_sign_digits.
  rewrite (scan_sign_app _ _ _ Hsg) by eauto using cur_digits.
  rewrite cur_digits by done.
  by rewrite scan_digits_app.
Qed.

Lemma scan_int_sound (s rest : string) (v : Z) :
  scan_int s = Some (v, rest) →
  ∃ t, s = t +:+ rest ∧ int_text t v ∧ isdigit (cur rest) = false.
Proof.
  unfold scan_int. intros Hs.
  destruct (skip_space_sound s) as (ws & Hs1 & Hws).
  destruct (scan_sign_sound (skip_space s)) as (sg & Hs2 & Hsg).
  destruct (scan_sign (skip_space s)) as [neg s1]. simpl in *.
  destruct (isdigit (cur s1)) eqn:Hd; [|done].
  destruct (scan_digits_sound s1 0) as (ds & Hs3 & Hds & Hv & Hr & Hne).
  destruct (scan_digits s1 0) as [v' rest']. simpl in *.
  injection Hs as <- <-. exists (ws +:+ sg +:+ ds). split_and!.
  - rewrite !sapp_assoc. congruence.
  - rewrite Hv. constructor; auto.
  - done.
Qed.

Lemma scan_lit_sound (c : ascii) (s rest : string) :
  c ≠ NUL → scan_lit c s = Some rest → s = String c rest.
Proof.
  unfold scan_lit. intros Hc. destruct (is_char (cur s) c) eqn:Heq; [|done].
  intros [= <-]. by apply is_char_cur.
Qed.

Lemma scan_lit_complete (c : ascii) (rest : string) :
  scan_lit c (String c rest) = Some rest.
Proof. unfold scan_lit. simpl. by rewrite is_char_refl. Qed.

(** ** Reading a point record *)

Ltac snorm := repeat (rewrite sapp_assoc || rewrite sapp_cons || rewrite sapp_nil_l).

Lemma sscanf_point_complete (tp tx ty td rest : string) (pv xv yv dv : Z) :
  int_text tp pv → int_text tx xv → int_text ty yv → int_text td dv →
  isdigit (cur rest) = false →
  sscanf_point (tp +:+ String ":" (tx +:+ String "," (ty +:+ String "/" (td +:+ rest))))
  = Some (pv, xv, yv, dv, rest).
Proof.
  intros Hp Hx Hy Hd Hrest. unfold sscanf_point.
  rewrite (scan_int_complete _ _ _ Hp) by (by sapp). simpl. sapp.
  rewrite ?scan_lit_complete; simpl.
  rewrite (scan_int_complete _ _ _ Hx) by (by sapp). simpl. sapp.
  rewrite ?scan_lit_complete; simpl.
  rewrite (scan_int_complete _ _ _ Hy) by (by sapp). simpl. sapp.
  rewrite ?scan_lit_complete; simpl.
  by rewrite (scan_int_complete _ _ _ Hd).
Qed.

Lemma sscanf_point_sound (s rest : string) (pv xv yv dv : Z) :
  sscanf_point s = Some (pv, xv, yv, dv, rest) →
  ∃ tp tx ty td,
    s = tp +:+ ":" +:+ tx +:+ "," +:+ ty +:+ "/" +:+ td +:+ rest ∧
    int_text tp pv ∧ int_text tx xv ∧ int_text ty yv ∧ int_text td dv ∧
    isdigit (cur rest) = false.
Proof.
  unfold sscanf_point. intros Hs.
  destruct (scan_int s) as [[pv' s1]|] eqn:H1; [|done]. simpl in Hs.
  destruct (scan_lit ":" s1) as [s2|] eqn:H2; [|done]. simpl in Hs.
  destruct (scan_int s2) as [[xv' s3]|] eqn:H3; [|done]. simpl in Hs.
  destruct (scan_lit "," s3) as [s4|] eqn:H4; [|done]. simpl in Hs.
  destruct (scan_int s4) as [[yv' s5]|] eqn:H5; [|done]. simpl in Hs.
  destruct (scan_lit "/" s5) as [s6|] eqn:H6; [|done]. simpl in Hs.
  destruct (scan_int s6) as [[dv' s7]|] eqn:H7; [|done]. simpl in Hs.
  injection Hs as <- <- <- <- <-.
  apply scan_int_sound in H1 as (tp & -> & Hp & _).
  apply scan_lit_sound in H2 as ->; [|done].
  apply scan_int_sound in H3 as (tx & -> & Hx & _).
  apply scan_lit_sound in H4 as ->; [|done].
  apply scan_int_sound in H5 as (ty & -> & Hy & _).
  apply scan_lit_sound in H6 as ->; [|done].
  apply scan_int_sound in H7 as (td & -> & Hd & Hr).
  exists tp, tx, ty, td. by sapp.
Qed.

(** ** The loop of [execute_move] against the text of a move *)

Lemma moved_nil (ret : game_state) : moved ret [] false = ret.
Proof. destruct ret. unfold moved. simpl. by rewrite !orb_false_r. Qed.

Lemma moved_cons_plain (ret : game_state) pv q ups solved :
  moved (set_pt ret pv q) ups solved = moved ret ((pv, q) :: ups) solved.
Proof. done. Qed.

Lemma moved_cons_solved (ret : game_state) pv q ups solved :
  moved (set_pt (set_solved ret) pv q) ups solved = moved ret ((pv, q) :: ups) true.
Proof. unfold moved. simpl. by rewrite !orb_true_r. Qed.

Lemma record_text_cur nv r u : record_text nv r u → ∃ body, r = String "P" body.
Proof. intros []. eexists. by sapp. Qed.

(** A move starts with [S] or [P], or is empty. *)
Lemma move_text_cur nv s ups solved :
  move_text nv s ups solved →
  isdigit (cur s) = false ∧ is_char (cur s) ";" = false.
Proof.
  intros [|mk r sep rest u ups' f f' Hmk Hr _ _]; [done|].
  apply record_text_cur in Hr as [body ->]. by destruct Hmk; sapp.
Qed.

Lemma sep_rest_cur nv sep rest ups solved :
  sep_text sep → move_text nv rest ups solved →
  isdigit (cur (sep +:+ rest)) = false ∧
  (if is_char (cur (sep +:+ rest)) ";" then advance (sep +:+ rest) else sep +:+ rest) = rest.
Proof.
  intros Hsep Hrest. apply move_text_cur in Hrest as [Hd Hs].
  destruct Hsep; sapp; [|done]. by rewrite Hs.
Qed.

Lemma move_text_length nv mk r sep rest u solved :
  marker_text mk solved → record_text nv r u → sep_text sep →
  (String.length rest < String.length (mk +:+ r +:+ sep +:+ rest))%nat.
Proof.
  intros _ [body ->]%record_text_cur _. rewrite !slength_app. simpl. lia.
Qed.

(** Completeness: a move that is written as the specification says is read
    to its end, and leaves the state its updates describe. *)
Lemma move_loop_complete nv move ups solved :
  move_text nv move ups solved →
  ∀ fuel ret, (String.length move < fuel)%nat →
    move_loop fuel nv ret move = Done (Some (moved ret ups solved)).
Proof.
  induction 1 as [|mk r sep rest u ups solved solved' Hmk Hr Hsep Hrest IH];
    intros fuel ret Hfuel.
  { destruct fuel; simpl; by rewrite moved_nil. }
  pose proof (move_text_length nv mk r sep rest u solved Hmk Hr Hsep) as Hlen.
  destruct fuel as [|fuel]; [lia|].
  destruct (sep_rest_cur _ _ _ _ _ Hsep Hrest) as [Hdig Hnext].
  destruct Hr as [tp tx ty td pv xv yv dv Hp Hx Hy Hd Hpv Hdv].
  assert (Hchk : (0 <=? pv) && (pv <? nv) && (0 <? dv) = true).
  { apply andb_true_iff; split; [apply andb_true_iff; split|]; lia. }
  destruct Hmk; snorm; simpl;
    rewrite (sscanf_point_complete _ _ _ _ _ _ _ _ _ Hp Hx Hy Hd Hdig);
    rewrite Hchk, Hnext; (rewrite IH by lia);
    by rewrite ?moved_cons_solved, ?moved_cons_plain.
Qed.
Lemma move_loop_unfold fuel nv ret move :
  move_loop fuel nv ret move =
  if is_char (cur move) NUL then Done (Some ret)
  else
    match fuel with
    | O => Diverge
    | S fuel =>
        let '(ret, move) :=
          if is_char (cur move) "S" then
            let move := advance move in
            let move := if is_char (cur move) ";" then advance move else move in
            (set_solved ret, move)
          else (ret, move) in
        if is_char (cur move) "P" then
          match sscanf_point (advance move) with
          | Some (pv, xv, yv, dv, rest) =>
              if (0 <=? pv) && (pv <? nv) && (0 <? dv) then
                let ret := set_pt ret pv (mkpoint xv yv dv) in
                let move := if is_char (cur rest) ";" then advance rest else rest in
                move_loop fuel nv ret move
              else Done None
          | None => Done None
          end
        else Done None
    end.
Proof. by destruct fuel. Qed.

Lemma no_nul_cur (s : string) : no_nul s → is_char (cur s) NUL = true → s = "".
Proof.
  unfold no_nul. destruct s as [|c r]; [done|]. simpl. intros H Hc.
  rewrite Hc in H. done.
Qed.

Lemma no_nul_app (s1 s2 : string) : no_nul (s1 +:+ s2) → no_nul s2.
Proof. unfold no_nul. rewrite has_char_app. by intros [_ ?]%orb_false_iff. Qed.

(** The marker step of the loop, read back as text. *)
Lemma marker_step (move : string) :
  ∃ mk solved,
    marker_text mk solved ∧
    move = mk +:+ (if is_char (cur move) "S"
                   then if is_char (cur (advance move)) ";"
                        then advance (advance move) else advance move
                   else move) ∧
    solved = is_char (cur move) "S".
Proof.
  destruct (is_char (cur move) "S") eqn:HS.
  - apply is_char_cur in HS; [|done].
    destruct (is_char (cur (advance move)) ";") eqn:Hsemi.
    + apply is_char_cur in Hsemi; [|done].
      exists "S;", true. split_and!; [constructor| |done].
      rewrite HS at 1. rewrite Hsemi at 1. by sapp.
    + exists "S", true. split_and!; [constructor| |done].
      rewrite HS at 1. by sapp.
  - exists "", false. split_and!; [constructor|done|done].
Qed.

(** The record step of the loop, read back as text. *)
Lemma record_step nv (m rest0 : string) (pv xv yv dv : Z) :
  is_char (cur m) "P" = true →
  sscanf_point (advance m) = Some (pv, xv, yv, dv, rest0) →
  (0 <=? pv) && (pv <? nv) && (0 <? dv) = true →
  ∃ r sep,
    record_text nv r (pv, mkpoint xv yv dv) ∧ sep_text sep ∧
    m = r +:+ sep +:+ (if is_char (cur rest0) ";" then advance rest0 else rest0).
Proof.
  intros HP Hscan Hchk.
  apply is_char_cur in HP; [|done].
  apply sscanf_point_sound in Hscan as (tp & tx & ty & td & Hm & Hp & Hx & Hy & Hd & _).
  apply andb_true_iff in Hchk as [[H1 H2]%andb_true_iff H3].
  exists ("P" +:+ tp +:+ ":" +:+ tx +:+ "," +:+ ty +:+ "/" +:+ td).
  assert (Hr : record_text nv ("P" +:+ tp +:+ ":" +:+ tx +:+ "," +:+ ty +:+ "/" +:+ td)
                 (pv, mkpoint xv yv dv)) by (constructor; auto; lia).
  destruct (is_char (cur rest0) ";") eqn:Hsemi.
  - apply is_char_cur in Hsemi; [|done].
    exists ";". split_and!; [done|constructor|].
    rewrite HP, Hm, Hsemi at 1. by snorm.
  - exists "". split_and!; [done|constructor|].
    rewrite HP, Hm at 1. by snorm.
Qed.

(** Soundness: a move that the loop reads to its end is written as the
    specification says, and the state is the one its updates describe. *)
Lemma move_loop_sound fuel nv ret move ret' :
  no_nul move →
  move_loop fuel nv ret move = Done (Some ret') →
  ∃ ups solved, move_text nv move ups solved ∧ ret' = moved ret ups solved.
Proof.
  revert ret move. induction fuel as [|fuel IH]; intros ret move Hnul;
    rewrite move_loop_unfold;
    destruct (is_char (cur move) NUL) eqn:Hend.
  1,3: intros [= <-]; apply no_nul_cur in Hend as ->; [|done];
       exists [], false; split; [constructor|by rewrite moved_nil].
  { done. }
  destruct (marker_step move) as (mk & solved & Hmk & Hmove & Hsolved).
  set (m := if is_char (cur move) "S" then _ else move) in Hmove.
  assert (Hloop : ∀ ret0,
    (if is_char (cur m) "P" then
       match sscanf_point (advance m) with
       | Some (pv, xv, yv, dv, rest) =>
           if (0 <=? pv) && (pv <? nv) && (0 <? dv) then
             move_loop fuel nv (set_pt ret0 pv (mkpoint xv yv dv))
                       (if is_char (cur rest) ";" then advance rest else rest)
           else Done None
       | None => Done None
       end
     else Done None) = Done (Some ret') →
    ∃ u ups solved', move_text nv move (u :: ups) (solved || solved') ∧
                     ret' = moved (set_pt ret0 u.1 u.2) ups solved').
  { intros ret0 Hrun.
    destruct (is_char (cur m) "P") eqn:HP; [|done].
    destruct (sscanf_point (advance m)) as [[[[[pv xv] yv] dv] rest0]|] eqn:Hscan; [|done].
    destruct ((0 <=? pv) && (pv <? nv) && (0 <? dv)) eqn:Hchk; [|done].
    destruct (record_step nv m rest0 pv xv yv dv HP Hscan Hchk) as (r & sep & Hr & Hsep & Hm).
    apply IH in Hrun as (ups & solved' & Hrest & ->).
    - exists (pv, mkpoint xv yv dv), ups, solved'. split; [|done].
      rewrite Hmove, Hm. by econstructor.
    - rewrite Hmove, Hm in Hnul. by do 3 apply no_nul_app in Hnul. }
  destruct (is_char (cur move) "S") eqn:HS; subst solved m; intros Hrun;
    apply Hloop in Hrun as ([pv q] & ups & solved' & Htext & ->);
    eexists _, _; (split; [exact Htext|]).
  - by rewrite moved_cons_solved.
  - by rewrite moved_cons_plain.
Qed.

(** The bound of [execute_move] is never reached: a turn of the loop reads
    at least one character. *)
Lemma move_loop_total fuel nv ret move :
  (String.length move < fuel)%nat → move_loop fuel nv ret move ≠ Diverge.
Proof.
  revert ret move. induction fuel as [|fuel IH]; intros ret move Hlen; [lia|].
  rewrite move_loop_unfold.
  destruct (is_char (cur move) NUL); [done|].
  destruct (marker_step move) as (mk & solved & Hmk & Hmove & _).
  set (m := if is_char (cur move) "S" then _ else move) in Hmove.
  assert (Hm : (String.length m <= String.length move)%nat).
  { rewrite Hmove at 1. rewrite slength_app. lia. }
  assert (Hloop : ∀ ret0,
    (if is_char (cur m) "P" then
       match sscanf_point (advance m) with
       | Some (pv, xv, yv, dv, rest) =>
           if (0 <=? pv) && (pv <? nv) && (0 <? dv) then
             move_loop fuel nv (set_pt ret0 pv (mkpoint xv yv dv))
                       (if is_char (cur rest) ";" then advance rest else rest)
           else Done None
       | None => Done None
       end
     else Done None) ≠ Diverge).
  { intros ret0.
    destruct (is_char (cur m) "P") eqn:HP; [|done].
    destruct (sscanf_point (advance m)) as [[[[[pv xv] yv] dv] rest0]|] eqn:Hscan; [|done].
    destruct ((0 <=? pv) && (pv <? nv) && (0 <? dv)) eqn:Hchk; [|done].
    destruct (record_step nv m rest0 pv xv yv dv HP Hscan Hchk) as (r & sep & Hr & Hsep & Hm').
    apply IH. apply record_text_cur in Hr as [body ->].
    rewrite Hm' in Hm. rewrite !slength_app in Hm. simpl in Hm. lia. }
  destruct (is_char (cur move) "S"); subst m; apply Hloop.
Qed.

(** ** A move followed by more text *)

Lemma move_text_app_cur nv rest ups solved t :
  move_text nv rest ups solved →
  isdigit (cur t) = false → is_char (cur t) ";" = false →
  isdigit (cur (rest +:+ t)) = false ∧ is_char (cur (rest +:+ t)) ";" = false.
Proof.
  intros [|mk r sep rest' u ups' f f' Hmk Hr _ _] Hd Hs; [done|].
  apply record_text_cur in Hr as [body ->]. by destruct Hmk; snorm.
Qed.

Lemma sep_rest_app_cur nv sep rest ups solved t :
  sep_text sep → move_text nv rest ups solved →
  isdigit (cur t) = false → is_char (cur t) ";" = false →
  isdigit (cur (sep +:+ rest +:+ t)) = false ∧
  (if is_char (cur (sep +:+ rest +:+ t)) ";"
   then advance (sep +:+ rest +:+ t) else sep +:+ rest +:+ t) = rest +:+ t.
Proof.
  intros Hsep Hrest Hd Hs.
  destruct (move_text_app_cur _ _ _ _ _ Hrest Hd Hs) as [Hd' Hs'].
  destruct Hsep; sapp; [|done]. by rewrite Hs'.
Qed.

(** The loop reads a well-formed move and goes on with what follows it,
    provided this does not start with a digit or a separator. *)
Lemma move_loop_app nv s1 ups solved t :
  move_text nv s1 ups solved →
  isdigit (cur t) = false → is_char (cur t) ";" = false →
  ∀ fuel ret, (String.length (s1 +:+ t) < fuel)%nat →
    ∃ fuel', (String.length t < fuel')%nat ∧
             move_loop fuel nv ret (s1 +:+ t) = move_loop fuel' nv (moved ret ups solved) t.
Proof.
  intros Htext Hd Hs.
  induction Htext as [|mk r sep rest u ups solved solved' Hmk Hr Hsep Hrest IH];
    intros fuel ret Hfuel.
  { exists fuel. by rewrite moved_nil. }
  assert (Hlen : (String.length (rest +:+ t) < String.length ((mk +:+ r +:+ sep +:+ rest) +:+ t))%nat).
  { apply record_text_cur in Hr as [body ->]. rewrite !slength_app. simpl. lia. }
  destruct fuel as [|fuel]; [lia|].
  destruct (sep_rest_app_cur _ _ _ _ _ _ Hsep Hrest Hd Hs) as [Hdig Hnext].
  destruct Hr as [tp tx ty td pv xv yv dv Hp Hx Hy Hdv Hpv Hdpos].
  assert (Hchk : (0 <=? pv) && (pv <? nv) && (0 <? dv) = true).
  { apply andb_true_iff; split; [apply andb_true_iff; split|]; lia. }
  destruct (IH fuel (set_pt (if solved then set_solved ret else ret) pv (mkpoint xv yv dv)))
    as (fuel' & Hfuel' & Hrun); [lia|].
  exists fuel'. split; [done|].
  assert (Hstate : moved (set_pt (if solved then set_solved ret else ret) pv (mkpoint xv yv dv))
                     ups solved'
                   = moved ret ((pv, mkpoint xv yv dv) :: ups) (solved || solved')).
  { destruct solved; simpl; [|done].
    unfold moved. simpl. by rewrite !orb_true_r. }
  rewrite <- Hstate, <- Hrun.
  pose proof (sscanf_point_complete _ _ _ _ _ _ _ _ _ Hp Hx Hy Hdv Hdig) as Hscan.
  revert Hscan Hnext. snorm. intros Hscan Hnext.
  destruct Hmk; snorm; simpl; rewrite Hscan, Hchk, Hnext; done.
Qed.

(** ** The solve marker in the text of a move *)

Lemma space_text_no_S (ws : string) : all_chars isspace ws = true → has_char "S" ws = false.
Proof.
  induction ws as [|c ws IH]; simpl; [done|].
  intros [Hc Hws]%andb_true_iff. by rewrite (space_not_S _ Hc), IH.
Qed.

Lemma digit_text_no_S (ds : string) : all_chars isdigit ds = true → has_char "S" ds = false.
Proof.
  induction ds as [|c ds IH]; simpl; [done|].
  intros [Hc Hds]%andb_true_iff. by rewrite (digit_not_S _ Hc), IH.
Qed.

Lemma int_text_no_S (t : string) (v : Z) : int_text t v → has_char "S" t = false.
Proof.
  intros [ws sg ds neg Hws Hsg _ Hds]. rewrite !has_char_app.
  rewrite (space_text_no_S _ Hws), (digit_text_no_S _ Hds). by destruct Hsg.
Qed.

Lemma record_text_no_S nv r u : record_text nv r u → has_char "S" r = false.
Proof.
  intros [tp tx ty td pv xv yv dv Hp Hx Hy Hd _ _]. rewrite !has_char_app.
  by rewrite (int_text_no_S _ _ Hp), (int_text_no_S _ _ Hx),
             (int_text_no_S _ _ Hy), (int_text_no_S _ _ Hd).
Qed.

(** A move carries a solve marker exactly when the letter [S] occurs in it. *)
Lemma move_text_solved nv s ups solved :
  move_text nv s ups solved → solved = has_char "S" s.
Proof.
  induction 1 as [|mk r sep rest u ups solved solved' Hmk Hr Hsep Hrest IH]; [done|].
  rewrite !has_char_app, (record_text_no_S _ _ _ Hr), <- IH.
  by destruct Hmk, Hsep.
Qed.

Lemma move_text_app nv s1 ups1 f1 s2 ups2 f2 :
  move_text nv s1 ups1 f1 → move_text nv s2 ups2 f2 →
  move_text nv (s1 +:+ s2) (ups1 ++ ups2) (f1 || f2).
Proof.
  induction 1 as [|mk r sep rest u ups solved solved' Hmk Hr Hsep Hrest IH];
    intros H2; [done|].
  rewrite !sapp_assoc, <- orb_assoc. simpl. econstructor; eauto.
Qed.

(** A marker may be put in front of a move that starts with a record. *)
Lemma move_text_mark nv mk s ups solved :
  marker_text mk true → move_text nv s ups solved → is_char (cur s) "P" = true →
  move_text nv (mk +:+ s) ups true.
Proof.
  intros Hmk Hs HP.
  destruct Hs as [|mk' r sep rest u ups solved solved' Hmk' Hr Hsep Hrest]; [done|].
  destruct Hmk'; [|done..]. sapp. simpl.
  change true with (true || solved'). by econstructor.
Qed.

(** ** The completion check *)

Lemma crossing_with_false P e es :
  crossing_with P e es = false ↔
  ∀ e2, e2 ∈ es → shares e2 e = false →
        cross (P e2.(a)) (P e2.(b)) (P e.(a)) (P e.(b)) = false.
Proof.
  induction es as [|e' es IH]; simpl.
  - split; [|done]. intros _ e2 Hin. by apply elem_of_nil in Hin.
  - split.
    + intros Hrun e2 Hin Hsh. apply elem_of_cons in Hin as [->|Hin].
      * rewrite Hsh in Hrun. by destruct (cross _ _ _ _).
      * apply IH; [|done..].
        destruct (shares e' e); [done|]. by destruct (cross _ _ _ _).
    + intros Hall. destruct (shares e' e) eqn:Hsh.
      * apply IH. intros e2 Hin. apply Hall. by right.
      * rewrite (Hall e'); [|by left|done]. apply IH.
        intros e2 Hin. apply Hall. by right.
Qed.

Lemma find_crossing_false P es :
  find_crossing P es = false ↔
  ∀ (i j : nat) (e e2 : edge),
    (i < j)%nat → es !! i = Some e → es !! j = Some e2 →
    shares e2 e = false →
    cross (P e2.(a)) (P e2.(b)) (P e.(a)) (P e.(b)) = false.
Proof.
  induction es as [|e0 es IH]; simpl.
  - split; [|done]. intros _ i j e e2 _ Hi. by rewrite lookup_nil in Hi.
  - split.
    + intros Hrun i j e e2 Hij Hi Hj Hsh.
      destruct (crossing_with P e0 es) eqn:Hw; [done|].
      destruct j as [|j]; [lia|]. simpl in Hj.
      destruct i as [|i]; simpl in Hi.
      * injection Hi as ->.
        eapply crossing_with_false; [done| |done]. by eapply list_elem_of_lookup_2.
      * eapply (proj1 IH Hrun i j); [lia|done..].
    + intros Hall.
      assert (Hw : crossing_with P e0 es = false).
      { apply crossing_with_false. intros e2 [j Hj]%list_elem_of_lookup_1 Hsh.
        by apply (Hall 0%nat (S j) e0 e2); [lia|..]. }
      rewrite Hw. apply IH. intros i j e e2 Hij Hi Hj.
      by apply (Hall (S i) (S j)); [lia|..].
Qed.

Lemma shares_apart (e e2 : edge) : shares e2 e = false ↔ apart e e2.
Proof.
  unfold shares, apart. rewrite !orb_false_iff, !Z.eqb_neq. tauto.
Qed.

Lemma find_crossing_clear P es : find_crossing P es = false ↔ no_crossing P es.
Proof.
  rewrite find_crossing_false. unfold no_crossing. split.
  - intros Hall i j e e2 Hij Hi Hj Hapart. apply (Hall i j); try done.
    by apply shares_apart.
  - intros Hall i j e e2 Hij Hi Hj Hsh. apply (Hall i j); try done.
    by apply shares_apart.
Qed.


Lemma find_crossing_true P es :
  find_crossing P es = true ↔
  ∃ (i j : nat) (e e2 : edge),
    (i < j)%nat ∧ es !! i = Some e ∧ es !! j = Some e2 ∧ shares e2 e = false ∧
    cross (P e2.(a)) (P e2.(b)) (P e.(a)) (P e.(b)) = true.
Proof.
  induction es as [|e0 es IH]; simpl.
  - split; [done|]. intros (i & j & e & e2 & _ & Hi & _). by rewrite lookup_nil in Hi.
  - destruct (crossing_with P e0 es) eqn:Hw.
    + split; [intros _|done].
      assert (Hex : ∃ j e2, es !! j = Some e2 ∧ shares e2 e0 = false ∧
                cross (P e2.(a)) (P e2.(b)) (P e0.(a)) (P e0.(b)) = true).
      { clear IH. induction es as [|e' es IH]; simpl in Hw; [done|].
        destruct (shares e' e0) eqn:Hsh.
        - destruct (IH Hw) as (j & e2 & ? & ? & ?). by exists (S j), e2.
        - destruct (cross (P e'.(a)) (P e'.(b)) (P e0.(a)) (P e0.(b))) eqn:Hc.
          + by exists 0%nat, e'.
          + destruct (IH Hw) as (j & e2 & ? & ? & ?). by exists (S j), e2. }
      destruct Hex as (j & e2 & Hj & Hsh & Hc).
      exists 0%nat, (S j), e0, e2. split_and!; [lia|done..].
    + rewrite IH. split.
      * intros (i & j & e & e2 & Hij & Hi & Hj & Hsh & Hc).
        exists (S i), (S j), e, e2. split_and!; [lia|done..].
      * intros (i & j & e & e2 & Hij & Hi & Hj & Hsh & Hc).
        destruct j as [|j]; [lia|]. destruct i as [|i]; simpl in *.
        -- injection Hi as ->.
           exfalso.
           pose proof (proj1 (crossing_with_false P e es) Hw e2) as Hno.
           rewrite Hno in Hc; [done| |done]. by eapply list_elem_of_lookup_2.
        -- exists i, j, e, e2. split_and!; [lia|done..].
Qed.

(** ** [execute_move] *)

Lemma wrap_id (z : Z) : in_int z → wrap z = z.
Proof.
  unfold in_int, INT_MIN, INT_MAX, wrap. intros Hz.
  rewrite Z.mod_small; lia.
Qed.

Lemma dup_game_state σ st : (dup_game σ st).2 = st.
Proof. by destruct st. Qed.

Lemma graph_edges_dup σ st st' :
  st'.(graph) = st.(graph) → graph_edges (dup_game σ st).1 st' = graph_edges σ st'.
Proof.
  intros Hg. unfold graph_edges, dup_game. simpl. rewrite Hg, lookup_alter_eq.
  by destruct (σ !! st.(graph)).
Qed.

(** Giving back the copy made by [dup_game] restores the store. *)
Lemma free_game_dup σ st ret :
  ret.(graph) = st.(graph) → graph_live σ st → free_game (dup_game σ st).1 ret = σ.
Proof.
  intros Hg (g & Hlook & Hrc). unfold free_game, dup_game. simpl.
  rewrite Hg, lookup_alter_eq, Hlook. simpl.
  unfold iadd, isub. unfold INT_MAX in Hrc.
  rewrite (wrap_id (refcount g + 1)) by (unfold in_int, INT_MIN, INT_MAX; lia).
  rewrite wrap_id by (unfold in_int, INT_MIN, INT_MAX; lia).
  replace (refcount g + 1 - 1) with (refcount g) by lia.
  destruct (refcount g <=? 0) eqn:Hle; [lia|].
  apply map_eq. intros k. destruct (decide (k = st.(graph))) as [->|Hne].
  - rewrite lookup_insert_eq, Hlook. by destruct g.
  - by rewrite lookup_insert_ne, lookup_alter_ne.
Qed.

(** The loop changes the points and the two solve flags only. *)
Lemma move_loop_keeps fuel nv ret move ret' :
  move_loop fuel nv ret move = Done (Some ret') →
  ret'.(params) = ret.(params) ∧ ret'.(graph) = ret.(graph) ∧
  ret'.(completed) = ret.(completed).
Proof.
  revert ret move. induction fuel as [|fuel IH]; intros ret move;
    rewrite move_loop_unfold; destruct (is_char (cur move) NUL);
    try (by intros [= <-]); try done.
  assert (Hloop : ∀ ret0 m,
    ret0.(params) = ret.(params) ∧ ret0.(graph) = ret.(graph) ∧
    ret0.(completed) = ret.(completed) →
    (if is_char (cur m) "P" then
       match sscanf_point (advance m) with
       | Some (pv, xv, yv, dv, rest) =>
           if (0 <=? pv) && (pv <? nv) && (0 <? dv) then
             move_loop fuel nv (set_pt ret0 pv (mkpoint xv yv dv))
                       (if is_char (cur rest) ";" then advance rest else rest)
           else Done None
       | None => Done None
       end
     else Done None) = Done (Some ret') →
    ret'.(params) = ret.(params) ∧ ret'.(graph) = ret.(graph) ∧
    ret'.(completed) = ret.(completed)).
  { intros ret0 m (H1 & H2 & H3) Hrun.
    destruct (is_char (cur m) "P"); [|done].
    destruct (sscanf_point (advance m)) as [[[[[pv xv] yv] dv] rest0]|]; [|done].
    destruct ((0 <=? pv) && (pv <? nv) && (0 <? dv)); [|done].
    apply IH in Hrun as (? & ? & ?). simpl in *. split_and!; congruence. }
  destruct (is_char (cur move) "S"); apply Hloop; done.
Qed.

(** A move written as the specification says is accepted, and the state it
    produces is determined field by field. *)
Lemma execute_move_accept σ st move ups solved :
  move_text st.(params).(n) move ups solved →
  ∃ ret,
    execute_move σ st move = ((dup_game σ st).1, Some ret) ∧
    ret.(params) = st.(params) ∧ ret.(graph) = st.(graph) ∧
    ret.(pts) = apply_updates ups st.(pts) ∧
    ret.(cheated) = st.(cheated) || solved ∧
    ret.(just_solved) = solved ∧
    ret.(completed) =
      st.(completed) || negb (find_crossing (pt ret.(pts)) (graph_edges σ st)) ∧
    graph_edges (dup_game σ st).1 ret = graph_edges σ st.
Proof.
  intros Hmove. unfold execute_move.
  destruct (dup_game σ st) as [σ1 ret0] eqn:Hdup.
  assert (ret0 = st) as -> by (by rewrite <- (dup_game_state σ st), Hdup).
  assert (σ1 = (dup_game σ st).1) as -> by (by rewrite Hdup).
  rewrite (move_loop_complete _ _ _ _ Hmove) by lia.
  set (ret := moved _ ups solved).
  assert (Hedges : ∀ r, r.(graph) = st.(graph) →
            graph_edges (dup_game σ st).1 r = graph_edges σ st).
  { intros r Hr. rewrite graph_edges_dup by done. unfold graph_edges. by rewrite Hr. }
  destruct (completed ret) eqn:Hc.
  - exists ret. subst ret. simpl in *. rewrite Hc. split_and!; auto.
  - eexists. split; [done|]. subst ret. simpl in *. rewrite Hc.
    split_and!; auto. by rewrite Hedges.
Qed.

(** An accepted move is written as the specification says. *)
Lemma execute_move_inv σ st move σ' ret :
  no_nul move → execute_move σ st move = (σ', Some ret) →
  ∃ ups solved, move_text st.(params).(n) move ups solved.
Proof.
  intros Hnul. unfold execute_move.
  destruct (dup_game σ st) as [σ1 ret0].
  destruct (move_loop _ _ _ move) as [|[ret1|]] eqn:Hrun; [done| |done].
  intros _. apply move_loop_sound in Hrun as (ups & solved & Htext & _); eauto.
Qed.

(** ** Text of sample moves *)

Lemma int_text_digits (ds : string) :
  ds ≠ "" → all_chars isdigit ds = true → int_text ds (to_int false (digits_value ds 0)).
Proof. intros Hne Hds. by apply (int_text_intro "" "" ds false); [|constructor|..]. Qed.

Lemma record_text_digits nv (tp tx ty td : string) :
  tp ≠ "" → tx ≠ "" → ty ≠ "" → td ≠ "" →
  all_chars isdigit tp = true → all_chars isdigit tx = true →
  all_chars isdigit ty = true → all_chars isdigit td = true →
  0 <= to_int false (digits_value tp 0) < nv → 0 < to_int false (digits_value td 0) →
  record_text nv ("P" +:+ tp +:+ ":" +:+ tx +:+ "," +:+ ty +:+ "/" +:+ td)
    (to_int false (digits_value tp 0),
     mkpoint (to_int false (digits_value tx 0)) (to_int false (digits_value ty 0)) (to_int false (digits_value td 0))).
Proof. intros. constructor; auto using int_text_digits. Qed.

(** ** The crossing predicate on degenerate input *)

(** C6: with the collinear points p1 = (0,0,1), p2 = (1,0,1) and p3 = (2,0,1),
    [cross p1 p3 p2 p2] is true (a point on the segment counts as a crossing)
    and [cross p1 p2 p3 p3] is false (a point beyond the far end does not). *)
Theorem cross_degenerate :
  cross (mkpoint 0 0 1) (mkpoint 2 0 1) (mkpoint 1 0 1) (mkpoint 1 0 1) = true ∧
  cross (mkpoint 0 0 1) (mkpoint 1 0 1) (mkpoint 2 0 1) (mkpoint 2 0 1) = false.
Proof. split; reflexivity. Qed.

(** C2: [cross] is not symmetric.  With all denominators 1, the point (2,0)
    beyond the segment (0,0)-(1,0) does not cross it when it comes second and
    crosses it when it comes first.  With the overlapping collinear segments
    (0,0)-(1,0) and (3/4,0)-(2,0), written over the denominators 1 and 4, the
    answer again depends on the order of the two segments; and with the point
    (3/4,0) on the segment (0,0)-(1,0), on the order of the endpoints. *)
Theorem cross_not_symmetric :
  (cross (mkpoint 0 0 1) (mkpoint 1 0 1) (mkpoint 2 0 1) (mkpoint 2 0 1) = false ∧
   cross (mkpoint 2 0 1) (mkpoint 2 0 1) (mkpoint 0 0 1) (mkpoint 1 0 1) = true) ∧
  (cross (mkpoint 0 0 1) (mkpoint 1 0 1) (mkpoint 3 0 4) (mkpoint 8 0 4) = false ∧
   cross (mkpoint 3 0 4) (mkpoint 8 0 4) (mkpoint 0 0 1) (mkpoint 1 0 1) = true) ∧
  (cross (mkpoint 0 0 1) (mkpoint 1 0 1) (mkpoint 3 0 4) (mkpoint 3 0 4) = false ∧
   cross (mkpoint 1 0 1) (mkpoint 0 0 1) (mkpoint 3 0 4) (mkpoint 3 0 4) = true).
Proof. repeat split; reflexivity. Qed.

(** The asymmetry of [cross] reaches the completion check: with two
    overlapping collinear edges the empty move leaves a completed state,
    although [cross] with the two edges the other way round finds them
    crossing. *)
Example overlap_declared_solved :
  ∃ σ' ret,
    execute_move overlap_store overlap_state "" = (σ', Some ret) ∧
    ret.(completed) = true ∧
    cross (pt ret.(pts) 0) (pt ret.(pts) 1) (pt ret.(pts) 2) (pt ret.(pts) 3) = true.
Proof. eexists _, _. split; [reflexivity|]. by split. Qed.

(** ** Completion *)

(** C1: the completion check misses a crossing.  The edges 0-1 and 2-3 have
    no endpoint in common.  When the point 0 is put at (3/4,0), the edge 0-1
    from there to (2,0) lies over the edge 2-3 from (0,0) to (1,0): [cross]
    finds the pair crossing when the edge 0-1 comes first, the scan asks it
    with the edge 2-3 first only, where it answers no, and the state is
    declared completed. *)
Theorem completion_misses_overlap :
  overlap_state.(completed) = false ∧
  graph_edges overlap_store overlap_state = [mkedge 0 1; mkedge 2 3] ∧
  apart (mkedge 0 1) (mkedge 2 3) ∧
  ∃ σ' ret,
    execute_move overlap_store overlap_state "P0:3,0/4" = (σ', Some ret) ∧
    ret.(pts) = [mkpoint 3 0 4; mkpoint 8 0 4; mkpoint 0 0 1; mkpoint 1 0 1] ∧
    graph_edges σ' ret = [mkedge 0 1; mkedge 2 3] ∧
    cross (pt ret.(pts) 0) (pt ret.(pts) 1) (pt ret.(pts) 2) (pt ret.(pts) 3) = true ∧
    cross (pt ret.(pts) 2) (pt ret.(pts) 3) (pt ret.(pts) 0) (pt ret.(pts) 1) = false ∧
    ret.(completed) = true.
Proof.
  split; [reflexivity|]. split; [reflexivity|]. split; [by repeat split|].
  eexists _, _. split; [reflexivity|]. by repeat split.
Qed.

(** C3: once a state is completed, every move that is accepted leaves a
    completed state, whatever the updated points are: the check is skipped
    and the flag is copied. *)
Theorem completed_sticky σ st move σ' ret :
  st.(completed) = true →
  execute_move σ st move = (σ', Some ret) →
  ret.(completed) = true.
Proof.
  intros Hc. unfold execute_move.
  destruct (dup_game σ st) as [σ1 ret0] eqn:Hdup.
  assert (ret0 = st) as -> by (by rewrite <- (dup_game_state σ st), Hdup).
  destruct (move_loop _ _ _ move) as [|[ret1|]] eqn:Hrun; [done| |done].
  apply move_loop_keeps in Hrun as (_ & _ & Hkeep). simpl in Hkeep.
  rewrite Hc in Hkeep. rewrite Hkeep. by intros [= _ <-].
Qed.

Lemma completed_sticky_witness :
  ∃ σ' ret,
    execute_move square_store solved_state "P2:2,2/1;P3:0,2/1" = (σ', Some ret) ∧
    find_crossing (pt ret.(pts)) (graph_edges σ' ret) = true ∧
    ret.(completed) = true.
Proof.
  eexists _, _. split; [reflexivity|]. split; [reflexivity|].
  eapply (completed_sticky square_store solved_state "P2:2,2/1;P3:0,2/1");
    reflexivity.
Defined.

(** ** Refused moves *)

(** C4, as the source has it: a move that is not a sequence of well-formed
    records -- some token of it is neither a solve marker nor a record
    [P<i>:<x>,<y>/<d>] whose numbers, as the [int]s that [%d] stores for
    them, have [0 <= i < n] and [d > 0] -- is refused as a whole: no state
    is returned and the store, with the graph of the input state, is as it
    was. *)
Theorem malformed_move_rejected σ st move :
  no_nul move → graph_live σ st →
  (∀ ups solved, ¬ move_text st.(params).(n) move ups solved) →
  execute_move σ st move = (σ, None).
Proof.
  intros Hnul Hlive Hbad. unfold execute_move.
  destruct (dup_game σ st) as [σ1 ret0] eqn:Hdup.
  assert (ret0 = st) as -> by (by rewrite <- (dup_game_state σ st), Hdup).
  assert (σ1 = (dup_game σ st).1) as -> by (by rewrite Hdup).
  destruct (move_loop _ _ _ move) as [|[ret1|]] eqn:Hrun.
  - by apply move_loop_total in Hrun; [|lia].
  - apply move_loop_sound in Hrun as (ups & solved & Htext & _); [|done].
    by apply Hbad in Htext.
  - f_equal. by apply free_game_dup.
Qed.

Lemma malformed_move_rejected_witness :
  execute_move square_store tangled_state "P2:0,2/1;P4:2,2/1" = (square_store, None).
Proof.
  apply (malformed_move_rejected square_store tangled_state "P2:0,2/1;P4:2,2/1").
  - reflexivity.
  - exists square_graph. split; [reflexivity|]. unfold INT_MAX. simpl. lia.
  - intros ups solved Htext.
    pose proof (move_loop_complete _ _ _ _ Htext 18%nat tangled_state) as Hrun.
    vm_compute in Hrun. specialize (Hrun ltac:(lia)). discriminate Hrun.
Defined.

(** C4 fails as stated: a record whose index or denominator is out of range
    as it is written is accepted when the [int] stored for it is in range.
    With four points, the index 4294967298 is read as 2 and the denominator
    -4294967295 as 1. *)
Lemma wrapped_record_accepted :
  tangled_state.(params).(n) = 4 ∧
  (∃ σ' ret,
     execute_move square_store tangled_state "P4294967298:0,2/1" = (σ', Some ret) ∧
     ret.(pts) = <[2%nat := mkpoint 0 2 1]> tangled_state.(pts)) ∧
  (∃ σ' ret,
     execute_move square_store tangled_state "P2:0,2/-4294967295" = (σ', Some ret) ∧
     ret.(pts) = <[2%nat := mkpoint 0 2 1]> tangled_state.(pts)).
Proof.
  split; [reflexivity|]. split; eexists _, _; split; reflexivity.
Qed.


(** ** The solve marker *)

(** C5, as the source has it: the just-solved flag of the state an accepted
    move produces is raised exactly when the letter [S], the solve marker,
    occurs in the move; completing the puzzle does not raise it, and a later
    accepted move without a marker leaves it down. *)
Theorem just_solved_iff_marker σ st move σ' ret :
  no_nul move →
  execute_move σ st move = (σ', Some ret) →
  ret.(just_solved) = has_char "S" move.
Proof.
  intros Hnul Hrun.
  destruct (execute_move_inv _ _ _ _ _ Hnul Hrun) as (ups & solved & Htext).
  destruct (execute_move_accept σ st move ups solved Htext)
    as (ret' & Hrun' & _ & _ & _ & _ & Hjust & _).
  rewrite Hrun in Hrun'. injection Hrun' as _ <-.
  rewrite Hjust. by eapply move_text_solved.
Qed.

Lemma just_solved_iff_marker_witness :
  ∃ σ' ret,
    execute_move square_store tangled_state "S;P2:0,2/1;P3:2,2/1" = (σ', Some ret) ∧
    ret.(just_solved) = true.
Proof.
  eexists _, _. split; [reflexivity|].
  eapply (just_solved_iff_marker square_store tangled_state "S;P2:0,2/1;P3:2,2/1");
    reflexivity.
Defined.

(** C5 fails as stated: the move that untangles the square completes the
    puzzle, and the just-solved flag of the new state is down. *)
Lemma just_solved_not_raised :
  ∃ σ' ret,
    execute_move square_store tangled_state "P2:0,2/1;P3:2,2/1" = (σ', Some ret) ∧
    tangled_state.(completed) = false ∧
    ret.(completed) = true ∧
    ret.(just_solved) = false.
Proof. eexists _, _. split; [reflexivity|]. by split_and!. Qed.

(** C9, as the source has it: a solve marker, [S] or [S;], is accepted in
    front of any record of a move, leading or not, and in front of several
    records of one move; the state produced then has both the cheated flag
    and the just-solved flag raised.  A marker that no record follows, at
    the end of a move, makes the whole move refused. *)
Theorem solve_marker_accepted σ st s1 ups1 f1 mk s2 ups2 f2 :
  move_text st.(params).(n) s1 ups1 f1 →
  marker_text mk true →
  move_text st.(params).(n) s2 ups2 f2 →
  is_char (cur s2) "P" = true →
  (∃ σ' ret,
     execute_move σ st (s1 +:+ mk +:+ s2) = (σ', Some ret) ∧
     ret.(pts) = apply_updates (ups1 ++ ups2) st.(pts) ∧
     ret.(cheated) = true ∧ ret.(just_solved) = true) ∧
  (graph_live σ st → execute_move σ st (s1 +:+ mk) = (σ, None)).
Proof.
  intros H1 Hmk H2 HP. split.
  - pose proof (move_text_app _ _ _ _ _ _ _ H1 (move_text_mark _ _ _ _ _ Hmk H2 HP))
      as Htext.
    destruct (execute_move_accept σ st _ _ _ Htext)
      as (ret & Hrun & _ & _ & Hpts & Hcheat & Hjust & _).
    exists (dup_game σ st).1, ret. split_and!; [done..| |].
    + by rewrite Hcheat, !orb_true_r.
    + by rewrite Hjust, orb_true_r.
  - intros Hlive. unfold execute_move.
    destruct (dup_game σ st) as [σ1 ret0] eqn:Hdup.
    assert (ret0 = st) as -> by (by rewrite <- (dup_game_state σ st), Hdup).
    assert (σ1 = (dup_game σ st).1) as -> by (by rewrite Hdup).
    assert (Hmkc : isdigit (cur mk) = false ∧ is_char (cur mk) ";" = false)
      by (by inversion Hmk).
    destruct Hmkc as [Hmd Hms].
    destruct (move_loop_app _ _ _ _ mk H1 Hmd Hms (S (String.length (s1 +:+ mk)))
                (set_just_solved st false)) as (fuel' & Hfuel' & ->); [lia|].
    assert (Hnull : ∀ r, move_loop fuel' st.(params).(n) r mk = Done None).
    { intros r. destruct fuel' as [|fuel']; [lia|].
      inversion Hmk; subst; reflexivity. }
    rewrite Hnull. f_equal. by apply free_game_dup.
Qed.

Lemma solve_marker_accepted_witness :
  (∃ σ' ret,
     execute_move square_store tangled_state ("S;P2:0,2/1;" +:+ "S" +:+ "P3:2,2/1")
     = (σ', Some ret) ∧
     ret.(pts) = apply_updates ([(2, mkpoint 0 2 1)] ++ [(3, mkpoint 2 2 1)])
                   tangled_state.(pts) ∧
     ret.(cheated) = true ∧ ret.(just_solved) = true) ∧
  execute_move square_store tangled_state ("S;P2:0,2/1;" +:+ "S") = (square_store, None).
Proof.
  assert (Hlive : graph_live square_store tangled_state).
  { exists square_graph. split; [reflexivity|]. unfold INT_MAX. simpl. lia. }
  refine ((λ H, conj (proj1 H) (proj2 H Hlive))
            (solve_marker_accepted square_store tangled_state
               "S;P2:0,2/1;" [(2, mkpoint 0 2 1)] true "S"
               "P3:2,2/1" [(3, mkpoint 2 2 1)] false _ _ _ _)).
  - apply (move_text_cons 4 "S;" "P2:0,2/1" ";" "" _ _ true false);
      [constructor| |constructor|constructor].
    by apply (record_text_digits 4 "2" "0" "2" "1").
  - constructor.
  - apply (move_text_cons 4 "" "P3:2,2/1" "" "" _ _ false false);
      [constructor| |constructor|constructor].
    by apply (record_text_digits 4 "3" "2" "2" "1").
  - reflexivity.
Defined.

(** C9 fails as stated: a solve marker at the end of the move, after the
    last record, makes the whole move refused. *)
Lemma trailing_marker_refused :
  execute_move square_store tangled_state "P2:0,2/1;S" = (square_store, None).
Proof. reflexivity. Qed.

(** X2: [execute_move] accepts a move, a C string, exactly when it is a
    sequence of well-formed records, each possibly preceded by a solve
    marker and followed by a separator. *)
Theorem execute_move_accepts_iff σ st move :
  no_nul move →
  (∃ σ' ret, execute_move σ st move = (σ', Some ret)) ↔
  (∃ ups solved, move_text st.(params).(n) move ups solved).
Proof.
  intros Hnul. split.
  - intros (σ' & ret & Hrun). by eapply execute_move_inv.
  - intros (ups & solved & Htext).
    destruct (execute_move_accept σ st move ups solved Htext) as (ret & Hrun & _).
    eauto.
Qed.

Lemma execute_move_accepts_iff_witness :
  (∃ σ' ret, execute_move square_store tangled_state "P2:0,2/1;S;P3:2,2/1" = (σ', Some ret)) ↔
  (∃ ups solved, move_text 4 "P2:0,2/1;S;P3:2,2/1" ups solved).
Proof.
  apply (execute_move_accepts_iff square_store tangled_state "P2:0,2/1;S;P3:2,2/1").
  reflexivity.
Defined.

(** ** [validate_desc] *)

Lemma validate_loop_unfold fuel nv desc :
  validate_loop fuel nv desc =
  if is_char (cur desc) NUL then Done None
  else
    match fuel with
    | O => Diverge
    | S fuel =>
        if out_of_range nv (atoi desc)
        then Done (Some "Number out of range in game description")
        else
          let desc := skip_digits desc in
          if negb (is_char (cur desc) "-")
          then Done (Some "Expected '-' after number in game description")
          else
            let desc := advance desc in
            if out_of_range nv (atoi desc)
            then Done (Some "Number out of range in game description")
            else
              let desc := skip_digits desc in
              if is_char (cur desc) NUL then validate_loop fuel nv desc
              else if negb (is_char (cur desc) ",")
              then Done (Some "Expected ',' after number in game description")
              else validate_loop fuel nv (advance desc)
    end.
Proof. by destruct fuel. Qed.

Lemma skip_digits_app (ds rest : string) :
  all_chars isdigit ds = true → isdigit (cur rest) = false →
  skip_digits (ds +:+ rest) = rest.
Proof.
  induction ds as [|c ds IH]; sapp; simpl; intros Hds Hrest.
  - destruct rest as [|c r]; simpl in *; [done|]. by rewrite Hrest.
  - apply andb_true_iff in Hds as [Hc Hds]. rewrite Hc. auto.
Qed.

Lemma skip_digits_length (s : string) :
  (String.length (skip_digits s) <= String.length s)%nat.
Proof.
  induction s as [|c s IH]; simpl; [lia|]. destruct (isdigit c); simpl; lia.
Qed.

Lemma atoi_digits (ds rest : string) (v : Z) :
  num_text ds v → isdigit (cur rest) = false → atoi (ds +:+ rest) = v.
Proof.
  intros [ds' Hne Hds] Hrest. unfold atoi.
  rewrite skip_space_id by (apply digit_not_space; by apply cur_digits).
  rewrite (scan_sign_app "" (ds' +:+ rest) false sign_none (cur_digits _ _ Hne Hds)
           : scan_sign (ds' +:+ rest) = _).
  by rewrite scan_digits_app.
Qed.

Lemma num_text_cur (ds rest : string) (v : Z) :
  num_text ds v → is_char (cur (ds +:+ rest)) NUL = false.
Proof. intros [ds' Hne Hds]. apply digit_not_nul. by apply cur_digits. Qed.

Lemma in_range nv v : 0 <= v < nv → out_of_range nv v = false.
Proof. unfold out_of_range. intros. apply orb_false_iff. split; lia. Qed.

(** One turn of the loop over a token and what follows it. *)
Lemma validate_loop_token fuel nv t u rest :
  token_text nv t u → isdigit (cur rest) = false →
  validate_loop (S fuel) nv (t +:+ rest) =
  if is_char (cur rest) NUL then validate_loop fuel nv rest
  else if negb (is_char (cur rest) ",")
       then Done (Some "Expected ',' after number in game description")
       else validate_loop fuel nv (advance rest).
Proof.
  intros [ta tb av bv Ha Hb Hav Hbv] Hrest.
  rewrite validate_loop_unfold. snorm.
  rewrite (num_text_cur _ _ _ Ha).
  rewrite (atoi_digits _ _ _ Ha) by done. rewrite (in_range _ _ Hav).
  destruct Ha as [ta Hnea Hta], Hb as [tb Hneb Htb].
  cbv zeta. rewrite (skip_digits_app ta) by done. simpl.
  rewrite (atoi_digits tb rest _ (num_text_intro tb Hneb Htb)) by done.
  rewrite (in_range _ _ Hbv).
  by rewrite (skip_digits_app tb).
Qed.

Lemma token_text_length nv t u : token_text nv t u → (0 < String.length t)%nat.
Proof.
  intros [ta tb av bv _ _ _ _]. rewrite !slength_app. simpl. lia.
Qed.

Lemma validate_loop_accepts nv desc toks :
  desc_text nv desc toks →
  ∀ fuel, (String.length desc < fuel)%nat → validate_loop fuel nv desc = Done None.
Proof.
  induction 1 as [|t u Ht|t u rest toks Ht Hrest IH Hne]; intros fuel Hfuel.
  - by destruct fuel.
  - destruct fuel as [|fuel]; [lia|].
    rewrite <- (sapp_nil_r t). rewrite (validate_loop_token _ _ _ _ _ Ht) by done.
    simpl. by destruct fuel.
  - destruct fuel as [|fuel]; [lia|].
    rewrite (validate_loop_token _ _ _ _ _ Ht) by done. sapp. simpl.
    apply IH. pose proof (token_text_length _ _ _ Ht).
    rewrite !slength_app in Hfuel. simpl in Hfuel. lia.
Qed.

(** The bound of [validate_desc] is never reached: a turn of the loop reads
    at least the dash. *)
Lemma validate_loop_total fuel nv desc :
  (String.length desc < fuel)%nat → validate_loop fuel nv desc ≠ Diverge.
Proof.
  revert desc. induction fuel as [|fuel IH]; intros desc Hlen; [lia|].
  rewrite validate_loop_unfold.
  destruct (is_char (cur desc) NUL); [done|].
  destruct (out_of_range nv (atoi desc)); [done|]. cbv zeta.
  pose proof (skip_digits_length desc) as H1.
  destruct (is_char (cur (skip_digits desc)) "-") eqn:Hdash; [|done]. simpl.
  apply is_char_cur in Hdash; [|done].
  assert (String.length (advance (skip_digits desc)) < String.length desc)%nat as H2.
  { rewrite Hdash in H1. simpl in H1. lia. }
  destruct (out_of_range nv (atoi (advance (skip_digits desc)))); [done|].
  pose proof (skip_digits_length (advance (skip_digits desc))) as H3.
  set (s := skip_digits (advance (skip_digits desc))) in *.
  destruct (is_char (cur s) NUL); [apply IH; lia|].
  destruct (is_char (cur s) ","); [|done]. simpl.
  apply IH. destruct s; simpl in *; lia.
Qed.



Example validate_desc_empty (pr : game_params) : validate_desc pr "" = None.
Proof. reflexivity. Qed.

Example validate_desc_3_2 : validate_desc (mkparams 4) "3-2" = None.
Proof. reflexivity. Qed.

Example validate_desc_2_2 : validate_desc (mkparams 4) "2-2" = None.
Proof. reflexivity. Qed.

Example validate_desc_range : validate_desc (mkparams 4) "0-4" ≠ None.
Proof. done. Qed.

(** ** The scrambler *)

(** C8: when the loop of the scrambler ends, the permutation it has drawn
    last puts two edges that share no endpoint across each other on the
    circle: [cross] holds of the permuted circle points of two edges of the
    graph. *)
Theorem scramble_crossing {random_state : Type}
    (shuffle : list Z → random_state → list Z * random_state)
    fuel pts2 es tmp rs tmp' rs' :
  scramble shuffle fuel pts2 es tmp rs = Done (tmp', rs') →
  ∃ (i j : nat) (e e2 : edge),
    (i < j)%nat ∧ es !! i = Some e ∧ es !! j = Some e2 ∧ shares e2 e = false ∧
    cross (permuted pts2 tmp' e2.(a)) (permuted pts2 tmp' e2.(b))
          (permuted pts2 tmp' e.(a)) (permuted pts2 tmp' e.(b)) = true.
Proof.
  revert tmp rs. induction fuel as [|fuel IH]; intros tmp rs; simpl; [done|].
  destruct (shuffle tmp rs) as [tmp1 rs1].
  destruct (find_crossing (permuted pts2 tmp1) es) eqn:Hfound.
  - intros [= <- <-]. by apply find_crossing_true.
  - apply IH.
Qed.

Lemma scramble_crossing_witness :
  scramble sample_shuffle 5 square_circle square_graph.(edges) [0; 1; 2; 3] 0%nat
  = Done ([0; 1; 2; 3], 2%nat) ∧
  ∃ (i j : nat) (e e2 : edge),
    (i < j)%nat ∧ square_graph.(edges) !! i = Some e ∧
    square_graph.(edges) !! j = Some e2 ∧ shares e2 e = false ∧
    cross (permuted square_circle [0; 1; 2; 3] e2.(a))
          (permuted square_circle [0; 1; 2; 3] e2.(b))
          (permuted square_circle [0; 1; 2; 3] e.(a))
          (permuted square_circle [0; 1; 2; 3] e.(b)) = true.
Proof.
  split; [reflexivity|].
  apply (scramble_crossing sample_shuffle 5 square_circle square_graph.(edges)
           [0; 1; 2; 3] 0%nat [0; 1; 2; 3] 2%nat).
  reflexivity.
Defined.

(** ** Sorted sets *)

Section Tree234_facts.
Context {A : Type} (cmp : A → A → Z).
Hypothesis cmp_eq : ∀ u v, cmp u v = 0 ↔ u = v.
Hypothesis cmp_trans : ∀ u v w, cmp u v < 0 → cmp v w < 0 → cmp u w < 0.
Hypothesis cmp_total : ∀ u v, cmp u v < 0 ∨ cmp u v = 0 ∨ cmp v u < 0.

Let lt (u v : A) : Prop := cmp u v < 0.

Lemma cmp_irrefl u : ¬ cmp u u < 0.
Proof. intros H. assert (cmp u u = 0) by by apply cmp_eq. lia. Qed.

Lemma elem_of_add234 (t : list A) (e x : A) : x ∈ add234 cmp t e ↔ x = e ∨ x ∈ t.
Proof.
  induction t as [|e' t IH]; simpl.
  - rewrite list_elem_of_singleton, elem_of_nil. tauto.
  - destruct (cmp e e' <? 0) eqn:Hlt; [by rewrite elem_of_cons|].
    destruct (cmp e e' =? 0) eqn:Heq.
    + apply Z.eqb_eq, cmp_eq in Heq as ->. rewrite elem_of_cons.
      split; [tauto|]. intros [->|?]; [by left|done].
    + rewrite !elem_of_cons, IH. tauto.
Qed.

Lemma sorted_NoDup (t : list A) : StronglySorted lt t → NoDup t.
Proof.
  induction 1 as [|e t Hs IH Hall]; constructor; [|done].
  intros Hin. rewrite Forall_forall in Hall. by apply (cmp_irrefl e), Hall.
Qed.

Lemma elem_of_del234 (t : list A) (e x : A) :
  NoDup t → x ∈ del234 cmp t e ↔ x ∈ t ∧ x ≠ e.
Proof.
  induction 1 as [|e' t Hnotin Hnd IH]; simpl.
  { rewrite elem_of_nil. tauto. }
  destruct (cmp e e' =? 0) eqn:Heq.
  - apply Z.eqb_eq, cmp_eq in Heq as ->. rewrite elem_of_cons.
    split; [|tauto]. intros Hx. split; [tauto|]. by intros ->.
  - apply Z.eqb_neq in Heq. rewrite !elem_of_cons, IH.
    split; [|tauto]. intros [->|[? ?]]; [|tauto].
    split; [tauto|]. intros ->. apply Heq. by apply cmp_eq.
Qed.

Lemma sorted_add234 (t : list A) (e : A) :
  StronglySorted lt t → StronglySorted lt (add234 cmp t e).
Proof.
  induction 1 as [|e' t Hs IH Hall]; simpl.
  - by repeat constructor.
  - destruct (cmp e e' <? 0) eqn:Hlt.
    + apply Z.ltb_lt in Hlt. constructor; [by constructor|].
      constructor; [done|]. eapply Forall_impl; [exact Hall|].
      intros w Hw. by eapply cmp_trans.
    + destruct (cmp e e' =? 0) eqn:Heq; [by constructor|].
      apply Z.ltb_ge in Hlt. apply Z.eqb_neq in Heq.
      constructor; [done|]. apply Forall_forall. intros w Hw.
      apply elem_of_add234 in Hw as [->|Hw].
      * destruct (cmp_total e e') as [?|[?|?]]; [lia|lia|done].
      * rewrite Forall_forall in Hall. by apply Hall.
Qed.

Lemma sorted_del234 (t : list A) (e : A) :
  StronglySorted lt t → StronglySorted lt (del234 cmp t e).
Proof.
  induction 1 as [|e' t Hs IH Hall]; simpl; [constructor|].
  destruct (cmp e e' =? 0); [done|].
  constructor; [done|]. apply Forall_forall. intros w Hw.
  rewrite Forall_forall in Hall. apply Hall.
  apply elem_of_del234 in Hw; [tauto|by apply sorted_NoDup].
Qed.

Lemma find234_is_Some (t : list A) (e : A) : is_Some (find234 cmp t e) ↔ e ∈ t.
Proof.
  induction t as [|e' t IH]; simpl.
  - split; [by intros [? ?]|by intros ?%elem_of_nil].
  - destruct (cmp e e' =? 0) eqn:Heq.
    + apply Z.eqb_eq, cmp_eq in Heq as ->. split; [by left|by eauto].
    + apply Z.eqb_neq in Heq. rewrite IH, elem_of_cons.
      split; [tauto|]. intros [->|?]; [|done]. exfalso. apply Heq. by apply cmp_eq.
Qed.

(** [qsort] *)

Lemma sort_insert_perm (v : A) (l : list A) : sort_insert cmp v l ≡ₚ v :: l.
Proof.
  induction l as [|u l IH]; simpl; [done|].
  destruct (cmp v u <=? 0); [done|]. by rewrite IH, Permutation_swap.
Qed.

Lemma qsort_perm (l : list A) : qsort cmp l ≡ₚ l.
Proof.
  induction l as [|v l IH]; simpl; [done|].
  by rewrite sort_insert_perm, IH.
Qed.

Let le (u v : A) : Prop := cmp u v < 0 ∨ u = v.

Lemma sorted_sort_insert (v : A) (l : list A) :
  StronglySorted le l → StronglySorted le (sort_insert cmp v l).
Proof.
  induction 1 as [|u l Hs IH Hall]; simpl.
  - by repeat constructor.
  - destruct (cmp v u <=? 0) eqn:Hle.
    + apply Z.leb_le in Hle.
      assert (Hvu : le v u).
      { destruct (cmp_total v u) as [?|[?%cmp_eq|?]]; [by left|by right|].
        destruct (Z_le_lt_eq_dec _ _ Hle) as [?|?%cmp_eq]; [by left|by right]. }
      constructor; [by constructor|]. constructor; [done|].
      eapply Forall_impl; [exact Hall|]. intros w Hw.
      destruct Hvu as [Hvu| ->]; [|done]. destruct Hw as [Hw| <-]; [|by left].
      left. by eapply cmp_trans.
    + apply Z.leb_gt in Hle. constructor; [done|].
      rewrite sort_insert_perm. constructor; [|done].
      destruct (cmp_total u v) as [?|[?%cmp_eq|?]]; [by left|by right|lia].
Qed.

Lemma sorted_qsort (l : list A) : StronglySorted le (qsort cmp l).
Proof.
  induction l as [|v l IH]; simpl; [constructor|]. by apply sorted_sort_insert.
Qed.

End Tree234_facts.

(** ** The orders of the generator *)

Lemma vertcmp_lt u v :
  vertcmp u v < 0 ↔
  u.(param) < v.(param) ∨ (u.(param) = v.(param) ∧ u.(vindex) < v.(vindex)).
Proof.
  unfold vertcmp, vertcmpC.
  destruct (Z.ltb_spec u.(param) v.(param)); [lia|].
  destruct (Z.ltb_spec v.(param) u.(param)); [lia|].
  destruct (Z.ltb_spec u.(vindex) v.(vindex)); [lia|].
  destruct (Z.ltb_spec v.(vindex) u.(vindex)); lia.
Qed.

Lemma vertcmp_eq u v : vertcmp u v = 0 ↔ u = v.
Proof.
  unfold vertcmp, vertcmpC. destruct u as [pu iu], v as [pv iv]. simpl.
  destruct (Z.ltb_spec pu pv); [split; [lia|intros [=]; lia]|].
  destruct (Z.ltb_spec pv pu); [split; [lia|intros [=]; lia]|].
  destruct (Z.ltb_spec iu iv); [split; [lia|intros [=]; lia]|].
  destruct (Z.ltb_spec iv iu); [split; [lia|intros [=]; lia]|].
  split; [intros _; f_equal; lia|done].
Qed.

Lemma vertcmp_trans u v w : vertcmp u v < 0 → vertcmp v w < 0 → vertcmp u w < 0.
Proof. rewrite !vertcmp_lt. lia. Qed.

Lemma vertcmp_total u v : vertcmp u v < 0 ∨ vertcmp u v = 0 ∨ vertcmp v u < 0.
Proof.
  rewrite !vertcmp_lt, vertcmp_eq. destruct u as [pu iu], v as [pv iv]. simpl.
  destruct (Z.lt_trichotomy pu pv) as [?|[->|?]]; [lia| |lia].
  destruct (Z.lt_trichotomy iu iv) as [?|[->|?]]; [lia| |lia].
  by right; left.
Qed.

Lemma edgecmp_eq u v : edgecmp u v = 0 ↔ u = v.
Proof.
  unfold edgecmp, edgecmpC. destruct u as [au bu], v as [av bv]. simpl.
  destruct (Z.ltb_spec au av); [split; [lia|intros [=]; lia]|].
  destruct (Z.ltb_spec av au); [split; [lia|intros [=]; lia]|].
  destruct (Z.ltb_spec bu bv); [split; [lia|intros [=]; lia]|].
  destruct (Z.ltb_spec bv bu); [split; [lia|intros [=]; lia]|].
  split; [intros _; f_equal; lia|done].
Qed.

(** ** Edges of the generator *)

Lemma isedge_elem (es : list edge) (u v : Z) :
  isedge es u v = true ↔ mkedge (Z.min u v) (Z.max u v) ∈ es.
Proof.
  unfold isedge. rewrite bool_decide_eq_true.
  apply find234_is_Some, edgecmp_eq.
Qed.

Lemma isedge_sym (es : list edge) (u v : Z) : isedge es u v = isedge es v u.
Proof. unfold isedge. by rewrite Z.min_comm, Z.max_comm. Qed.

Lemma isedge_adjacent (es : list edge) (u v : Z) :
  (∀ e, e ∈ es → e.(a) < e.(b)) →
  isedge es u v = true ↔ adjacent es u v.
Proof.
  intros Hcanon. rewrite isedge_elem. unfold adjacent. split.
  - intros Hin. eexists. split; [exact Hin|]. simpl. lia.
  - intros ([ea eb] & Hin & Hends). pose proof (Hcanon _ Hin) as Hlt. simpl in *.
    replace (Z.min u v) with ea by lia. by replace (Z.max u v) with eb by lia.
Qed.

Lemma degree_add234 (es : list edge) (e : edge) (u : Z) :
  find234 edgecmp es e = None →
  degree (add234 edgecmp es e) u = (if incident e u then 1 else 0) + degree es u.
Proof.
  induction es as [|e' es IH]; simpl; [done|].
  destruct (edgecmp e e' =? 0) eqn:Heq; [done|]. intros Hnone.
  destruct (edgecmp e e' <? 0); simpl; [done|]. rewrite IH by done. lia.
Qed.

Lemma degree_addedge (es : list edge) (j ki u : Z) :
  isedge es ki j = false → j ≠ ki →
  degree (addedge es j ki) u = (if decide (u = j ∨ u = ki) then 1 else 0) + degree es u.
Proof.
  intros Hno Hne. unfold addedge. rewrite degree_add234.
  - f_equal. unfold incident. simpl.
    destruct (Z.eqb_spec (Z.min j ki) u), (Z.eqb_spec (Z.max j ki) u);
      simpl; case_decide; lia.
  - rewrite isedge_sym in Hno. unfold isedge in Hno.
    apply bool_decide_eq_false in Hno.
    destruct (find234 _ _ _); [|done]. exfalso. apply Hno. by eexists.
Qed.

(** ** One degree going up *)

Lemma bump_struct nv st j :
  gen_struct nv st → 0 <= j < nv →
  (st.(vs) !!! Z.to_nat j).(param) < MAXDEGREE →
  (bump st j).(vs) =
    <[Z.to_nat j := mkvertex ((st.(vs) !!! Z.to_nat j).(param) + 1) j]> st.(vs) ∧
  (bump st j).(gen_edges) = st.(gen_edges) ∧
  gen_struct nv (bump st j).
Proof.
  intros [Hlen Hidx Hmem Hsort Hbound] Hj Hdeg.
  set (i := Z.to_nat j) in *.
  assert (Hi : (i < length st.(vs))%nat) by lia.
  destruct (lookup_lt_is_Some_2 _ _ Hi) as [v Hv].
  rewrite (list_lookup_total_correct _ _ _ Hv) in *.
  pose proof (Hidx _ _ Hv) as Hvi.
  assert (Hvj : v.(vindex) = j) by lia.
  pose proof (Hbound v (list_elem_of_lookup_2 _ _ _ Hv)) as Hvb.
  unfold bump. fold i. rewrite (list_lookup_total_correct _ _ _ Hv).
  unfold iadd. rewrite wrap_id by (unfold in_int, INT_MIN, INT_MAX, MAXDEGREE in *; lia).
  rewrite Hvj. set (v' := mkvertex (v.(param) + 1) j).
  split; [done|]. split; [done|].
  assert (Hnd : NoDup st.(vertices)).
  { eapply sorted_NoDup; [|exact Hsort]. apply vertcmp_eq. }
  constructor; simpl.
  - by rewrite length_insert.
  - intros k x Hx. apply list_lookup_insert_Some in Hx as [(<- & <- & _)|[Hne Hx]].
    + simpl. lia.
    + by apply Hidx.
  - intros x. rewrite (elem_of_add234 _ vertcmp_eq).
    rewrite (elem_of_del234 _ vertcmp_eq) by done. rewrite Hmem.
    rewrite !list_elem_of_lookup. split.
    + intros [->|[[k Hk] Hne]].
      * exists i. by rewrite list_lookup_insert_eq.
      * exists k. rewrite list_lookup_insert_ne; [done|]. intros <-. congruence.
    + intros [k Hk]. apply list_lookup_insert_Some in Hk as [(<- & <- & _)|[Hne Hk]].
      * by left.
      * right. split; [by exists k|]. intros ->. apply Hne.
        apply Hidx in Hk. lia.
  - by apply (sorted_add234 _ vertcmp_eq vertcmp_trans vertcmp_total),
             (sorted_del234 _ vertcmp_eq).
  - intros x [k Hk]%list_elem_of_lookup.
    apply list_lookup_insert_Some in Hk as [(<- & <- & _)|[Hne Hk]].
    + simpl. unfold MAXDEGREE in *. lia.
    + apply Hbound. by eapply list_elem_of_lookup_2.
Qed.

(** ** An edge being added *)

Lemma link_inv nv st j ki :
  gen_inv nv st → 0 <= j < nv → 0 <= ki < nv → j ≠ ki →
  (st.(vs) !!! Z.to_nat j).(param) < MAXDEGREE →
  (st.(vs) !!! Z.to_nat ki).(param) < MAXDEGREE →
  isedge st.(gen_edges) ki j = false →
  gen_inv nv (link st j ki).
Proof.
  intros [Hst Hdeg Hedges] Hj Hki Hne Hdj Hdki Hno.
  set (st1 := mkgen st.(vs) st.(vertices) (addedge st.(gen_edges) j ki)).
  assert (Hst1 : gen_struct nv st1) by (by destruct Hst).
  destruct (bump_struct nv st1 j Hst1 Hj Hdj) as (Hvs2 & Hes2 & Hst2).
  set (st2 := bump st1 j) in *.
  assert (Hvki : st2.(vs) !!! Z.to_nat ki = st.(vs) !!! Z.to_nat ki).
  { rewrite Hvs2. apply list_lookup_total_insert_ne. lia. }
  destruct (bump_struct nv st2 ki Hst2 Hki) as (Hvs3 & Hes3 & Hst3).
  { by rewrite Hvki. }
  change (link st j ki) with (bump st2 ki).
  set (st3 := bump st2 ki) in *.
  rewrite Hvki in Hvs3. rewrite Hvs2 in Hvs3.
  change (vs st1) with (vs st) in Hvs3.
  change (gen_edges st1) with (addedge st.(gen_edges) j ki) in Hes2.
  constructor; [done| |].
  - intros k x. rewrite Hvs3, Hes3, Hes2.
    rewrite degree_addedge by done.
    intros Hx. apply list_lookup_insert_Some in Hx as [(<- & <- & _)|[Hne1 Hx]].
    { simpl. rewrite Z2Nat.id by lia. rewrite decide_True by (by right).
      destruct (lookup_lt_is_Some_2 st.(vs) (Z.to_nat ki)) as [w Hw].
      { rewrite (st_length _ _ Hst). lia. }
      rewrite (list_lookup_total_correct _ _ _ Hw).
      rewrite (Hdeg _ _ Hw). rewrite Z2Nat.id by lia. lia. }
    apply list_lookup_insert_Some in Hx as [(<- & <- & _)|[Hne2 Hx]].
    { simpl. rewrite Z2Nat.id by lia. rewrite decide_True by (by left).
      destruct (lookup_lt_is_Some_2 st.(vs) (Z.to_nat j)) as [w Hw].
      { rewrite (st_length _ _ Hst). lia. }
      rewrite (list_lookup_total_correct _ _ _ Hw).
      rewrite (Hdeg _ _ Hw). rewrite Z2Nat.id by lia. lia. }
    rewrite decide_False by lia. rewrite (Hdeg _ _ Hx). lia.
  - intros e. rewrite Hes3, Hes2. unfold addedge.
    rewrite (elem_of_add234 _ edgecmp_eq). intros [->|He]; [simpl; lia|by apply Hedges].
Qed.

(** ** A round of the generator *)

Lemma index234_nat {A} (t : list A) (i : nat) : index234 t (Z.of_nat i) = t !! i.
Proof.
  unfold index234. destruct (Z.ltb_spec (Z.of_nat i) 0); [lia|]. by rewrite Nat2Z.id.
Qed.

Lemma build_vlist_elem ps es j later c :
  c ∈ build_vlist ps es j later ↔
  ∃ kv, kv ∈ later ∧ kv.(param) < MAXDEGREE ∧ isedge es kv.(vindex) j = false ∧
        c = mkvertex
              (((pt ps kv.(vindex)).(x) -! (pt ps j).(x)) *!
               ((pt ps kv.(vindex)).(x) -! (pt ps j).(x)) +!
               ((pt ps kv.(vindex)).(y) -! (pt ps j).(y)) *!
               ((pt ps kv.(vindex)).(y) -! (pt ps j).(y)))
              kv.(vindex).
Proof.
  induction later as [|kv later IH]; simpl.
  { rewrite elem_of_nil. split; [done|]. by intros (? & ?%elem_of_nil & _). }
  destruct (Z.leb_spec MAXDEGREE kv.(param)) as [Hdeg|Hdeg]; simpl.
  { rewrite IH. split.
    - intros (kv' & ? & ?). exists kv'. by rewrite elem_of_cons; eauto.
    - intros (kv' & [->|?]%elem_of_cons & ? & ?); [lia|eauto]. }
  destruct (isedge es kv.(vindex) j) eqn:Hedge.
  { rewrite IH. split.
    - intros (kv' & ? & ?). exists kv'. by rewrite elem_of_cons; eauto.
    - intros (kv' & [->|?]%elem_of_cons & ? & ? & ?); [congruence|eauto]. }
  rewrite elem_of_cons, IH. split.
  - intros [->|(kv' & ? & ?)].
    + exists kv. rewrite elem_of_cons. eauto.
    + exists kv'. rewrite elem_of_cons. eauto.
  - intros (kv' & [->|?]%elem_of_cons & ? & ? & ->); [by left|right; eauto].
Qed.

Lemma build_vlist_sublist ps es j later :
  vindex <$> build_vlist ps es j later `sublist_of` vindex <$> later.
Proof.
  induction later as [|kv later IH]; simpl; [done|].
  destruct (_ || _); simpl; [by apply sublist_cons|by apply sublist_skip].
Qed.

Lemma first_fit_Some ps nv es j vlist ki :
  first_fit ps nv es j vlist = Some ki → ∃ c, c ∈ vlist ∧ c.(vindex) = ki.
Proof.
  induction vlist as [|c vlist IH]; simpl; [done|].
  destruct (hits_point _ _ _ _).
  { intros (c' & ? & ?)%IH. exists c'. by rewrite elem_of_cons; eauto. }
  destruct (hits_edge _ _ _ _).
  { intros (c' & ? & ?)%IH. exists c'. by rewrite elem_of_cons; eauto. }
  intros [= <-]. exists c. by rewrite elem_of_cons; eauto.
Qed.

(** What a successful scan has done: an edge from a vertex of the tree to a
    vertex further on in the tree, both below the maximum degree and not yet
    joined. *)
Lemma scan_Some ps nv st i todo st' :
  scan ps nv st i todo = Some st' →
  ∃ (i' : nat) v kv,
    st.(vertices) !! i' = Some v ∧ v.(param) < MAXDEGREE ∧
    kv ∈ drop (S i') st.(vertices) ∧ kv.(param) < MAXDEGREE ∧
    isedge st.(gen_edges) kv.(vindex) v.(vindex) = false ∧
    st' = link st v.(vindex) kv.(vindex).
Proof.
  revert i. induction todo as [|todo IH]; intros i; simpl; [done|].
  rewrite index234_nat.
  destruct (st.(vertices) !! i) as [v|] eqn:Hv; [|done].
  destruct (Z.leb_spec MAXDEGREE v.(param)) as [Hdeg|Hdeg]; [done|].
  destruct (first_fit _ _ _ _ _) as [ki|] eqn:Hfit; [|by apply IH].
  intros [= <-].
  apply first_fit_Some in Hfit as (c & Hc & <-).
  unfold sorted_vlist in Hc. rewrite qsort_perm in Hc.
  apply build_vlist_elem in Hc as (kv & Hkv & Hkdeg & Hedge & ->).
  by exists i, v, kv.
Qed.

(** The position of a record of the tree in the array. *)
Lemma vertex_position nv st v :
  gen_struct nv st → v ∈ st.(vertices) →
  0 <= v.(vindex) < nv ∧ st.(vs) !! Z.to_nat v.(vindex) = Some v.
Proof.
  intros Hst [p Hp]%(st_members _ _ Hst)%list_elem_of_lookup.
  pose proof (st_index _ _ Hst _ _ Hp) as Hidx.
  pose proof (lookup_lt_Some _ _ _ Hp) as Hlt.
  rewrite (st_length _ _ Hst) in Hlt.
  rewrite Hidx, Nat2Z.id. split; [lia|done].
Qed.

Lemma vertex_index_inj nv st u v :
  gen_struct nv st → u ∈ st.(vertices) → v ∈ st.(vertices) →
  u.(vindex) = v.(vindex) → u = v.
Proof.
  intros Hst [_ Hu]%(vertex_position _ _ _ Hst) [_ Hv]%(vertex_position _ _ _ Hst) Heq.
  rewrite Heq in Hu. congruence.
Qed.

Lemma vertices_NoDup nv st : gen_struct nv st → NoDup st.(vertices).
Proof.
  intros Hst. eapply sorted_NoDup; [apply vertcmp_eq|]. apply (st_sorted _ _ Hst).
Qed.

Lemma scan_inv ps nv st i todo st' :
  gen_inv nv st → scan ps nv st i todo = Some st' → gen_inv nv st'.
Proof.
  intros Hinv (i' & v & kv & Hv & Hvdeg & Hkv & Hkdeg & Hedge & ->)%scan_Some.
  pose proof (inv_struct _ _ Hinv) as Hst.
  pose proof (vertices_NoDup _ _ Hst) as Hnd.
  apply list_elem_of_lookup in Hkv as [k Hk]. rewrite lookup_drop in Hk.
  assert (Hvin : v ∈ st.(vertices)) by by eapply list_elem_of_lookup_2.
  assert (Hkin : kv ∈ st.(vertices)) by by eapply list_elem_of_lookup_2.
  destruct (vertex_position _ _ _ Hst Hvin) as [Hvr Hvp].
  destruct (vertex_position _ _ _ Hst Hkin) as [Hkr Hkp].
  apply link_inv; try done.
  - intros Heq. apply (vertex_index_inj _ _ _ _ Hst Hvin Hkin) in Heq as ->.
    pose proof (NoDup_lookup _ _ _ _ Hnd Hv Hk). lia.
  - by rewrite (list_lookup_total_correct _ _ _ Hvp).
  - by rewrite (list_lookup_total_correct _ _ _ Hkp).
Qed.

(** ** The first state of the generator *)

Lemma foldl_add234_elem (t l : list vertex) x :
  x ∈ foldl (add234 vertcmp) t l ↔ x ∈ t ∨ x ∈ l.
Proof.
  revert t. induction l as [|v l IH]; intros t; simpl.
  - rewrite elem_of_nil. tauto.
  - rewrite IH, (elem_of_add234 _ vertcmp_eq), elem_of_cons. tauto.
Qed.

Lemma foldl_add234_sorted (t l : list vertex) :
  StronglySorted vert_lt t → StronglySorted vert_lt (foldl (add234 vertcmp) t l).
Proof.
  revert t. induction l as [|v l IH]; intros t Ht; simpl; [done|].
  apply IH. by apply (sorted_add234 _ vertcmp_eq vertcmp_trans vertcmp_total).
Qed.

Lemma gen_init_inv nv : gen_inv nv (gen_init nv).
Proof.
  unfold gen_init. set (vs0 := (λ i, mkvertex 0 i) <$> seqZ 0 nv).
  assert (Hlook : ∀ (i : nat) v, vs0 !! i = Some v → v = mkvertex 0 (Z.of_nat i)).
  { intros i v. unfold vs0. rewrite list_lookup_fmap.
    destruct (seqZ 0 nv !! i) as [z|] eqn:Hz; [|done].
    apply lookup_seqZ in Hz as [-> _]. by intros [= <-]. }
  constructor; [constructor|..]; simpl.
  - unfold vs0. by rewrite length_fmap, length_seqZ.
  - by intros i v ->%Hlook.
  - intros v. rewrite foldl_add234_elem, elem_of_nil. tauto.
  - apply foldl_add234_sorted. constructor.
  - intros v [i ->%Hlook]%list_elem_of_lookup. simpl. unfold MAXDEGREE. lia.
  - by intros i v ->%Hlook.
  - by intros e ?%elem_of_nil.
Qed.

(** Every state of the generator satisfies the invariant. *)
Lemma gen_reach_inv ps nv st : gen_reach ps nv st → gen_inv nv st.
Proof.
  induction 1 as [|st st' _ IH Hscan]; [apply gen_init_inv|by eapply scan_inv].
Qed.

(** ** The candidates of the first vertex *)

Lemma pt_grid ps i :
  grid_points ps → 0 <= (pt ps i).(x) < 2 ^ 15 ∧ 0 <= (pt ps i).(y) < 2 ^ 15.
Proof.
  intros Hgrid. unfold pt. destruct (i <? 0); [simpl; lia|].
  rewrite list_lookup_total_alt.
  destruct (ps !! Z.to_nat i) as [p|] eqn:Hp; simpl; [|lia].
  unfold grid_points in Hgrid. rewrite Forall_forall in Hgrid.
  apply Hgrid. by eapply list_elem_of_lookup_2.
Qed.

(** On grid points the arithmetic of [int] gives the squared distance. *)
Lemma sqdist_int (p q : point) :
  0 <= p.(x) < 2 ^ 15 → 0 <= p.(y) < 2 ^ 15 →
  0 <= q.(x) < 2 ^ 15 → 0 <= q.(y) < 2 ^ 15 →
  (p.(x) -! q.(x)) *! (p.(x) -! q.(x)) +! (p.(y) -! q.(y)) *! (p.(y) -! q.(y))
  = sqdist p q.
Proof.
  intros Hpx Hpy Hqx Hqy. unfold sqdist, iadd, isub, imul.
  assert (Hint : ∀ z, - 2 ^ 31 <= z < 2 ^ 31 → wrap z = z).
  { intros z Hz. apply wrap_id. unfold in_int, INT_MIN, INT_MAX. lia. }
  rewrite (Hint (p.(x) - q.(x))) by lia.
  rewrite (Hint (p.(y) - q.(y))) by lia.
  assert (Hsq : ∀ z, - 32767 <= z <= 32767 → 0 <= z * z < 2 ^ 30).
  { intros z Hz. split; [nia|].
    assert (0 <= (32767 - z) * (32767 + z)) by (apply Z.mul_nonneg_nonneg; lia).
    lia. }
  set (dx := p.(x) - q.(x)). set (dy := p.(y) - q.(y)).
  assert (0 <= dx * dx < 2 ^ 30) by (apply Hsq; subst dx; lia).
  assert (0 <= dy * dy < 2 ^ 30) by (apply Hsq; subst dy; lia).
  rewrite (Hint (dx * dx)) by lia. rewrite (Hint (dy * dy)) by lia.
  rewrite Hint by lia. lia.
Qed.

Lemma sorted_strict {A} (R : relation A) (l : list A) :
  StronglySorted (λ u v, R u v ∨ u = v) l → NoDup l → StronglySorted R l.
Proof.
  induction 1 as [|u l Hs IH Hall]; intros Hnd; [constructor|].
  apply NoDup_cons in Hnd as [Hnotin Hnd].
  constructor; [by apply IH|]. apply Forall_forall. intros w Hw.
  rewrite Forall_forall in Hall. destruct (Hall w Hw) as [?| ->]; done.
Qed.

Lemma sorted_impl_elem {A} (R R' : relation A) (l : list A) :
  (∀ u v, u ∈ l → v ∈ l → R u v → R' u v) →
  StronglySorted R l → StronglySorted R' l.
Proof.
  intros Himpl. induction 1 as [|u l Hs IH Hall]; [constructor|].
  constructor.
  - apply IH. intros u' v' Hu Hv. apply Himpl; by right.
  - apply Forall_forall. intros w Hw. rewrite Forall_forall in Hall.
    apply Himpl; [by left|by right|by apply Hall].
Qed.

Lemma sorted_head_first {A} (R : relation A) (l : list A) (i : nat) u v :
  StronglySorted R l → l !! 0%nat = Some u → l !! S i = Some v → R u v.
Proof.
  intros Hs Hu Hv. destruct l as [|u' l]; [done|]. injection Hu as ->.
  apply StronglySorted_inv in Hs as [_ Hall]. rewrite Forall_forall in Hall.
  apply Hall. by eapply list_elem_of_lookup_2.
Qed.

(** C7: in every round of the generator, let [v] be the first vertex of the
    tree, in its (degree, index) order, whose degree is below the maximum.
    The scan starts with [v] and tries the candidates of the list [vlist] it
    sorts for [v]; this list holds exactly the other vertices whose degree
    is below the maximum and that no edge joins to [v]; each is recorded
    with its squared distance to [v], and the list is in the order of that
    distance, the lower index first among equal distances. *)
Theorem candidates_of_first_vertex ps nv st (i : nat) v :
  gen_reach ps nv st →
  grid_points ps →
  list_find (λ u, u.(param) < MAXDEGREE) st.(vertices) = Some (i, v) →
  let j := v.(vindex) in
  let vlist := sorted_vlist ps st 0 j in
  i = 0%nat ∧
  (∀ todo, scan ps nv st 0 (S todo) =
           match first_fit ps nv st.(gen_edges) j vlist with
           | Some ki => Some (link st j ki)
           | None => scan ps nv st 1 todo
           end) ∧
  (∀ u, u ∈ vindex <$> vlist ↔
        0 <= u < nv ∧ u ≠ j ∧ degree st.(gen_edges) u < MAXDEGREE ∧
        ¬ adjacent st.(gen_edges) u j) ∧
  (∀ c, c ∈ vlist → c.(param) = sqdist (pt ps c.(vindex)) (pt ps j)) ∧
  StronglySorted (nearer ps j) vlist.
Proof.
  intros Hreach Hgrid Hfind j vlist.
  pose proof (gen_reach_inv _ _ _ Hreach) as Hinv.
  pose proof (inv_struct _ _ Hinv) as Hst.
  pose proof (vertices_NoDup _ _ Hst) as Hnd.
  apply list_find_Some in Hfind as (Hv & Hvdeg & Hfirst).
  assert (Hi : i = 0%nat).
  { destruct i as [|i]; [done|]. exfalso.
    destruct (lookup_lt_is_Some_2 st.(vertices) 0) as [u Hu].
    { apply lookup_lt_Some in Hv. lia. }
    pose proof (sorted_head_first _ _ _ _ _ (st_sorted _ _ Hst) Hu Hv) as Hlt.
    apply vertcmp_lt in Hlt. apply (Hfirst _ _ Hu); lia. }
  subst i. split; [done|].
  assert (Hvs : st.(vertices) = v :: drop 1 st.(vertices)).
  { destruct st.(vertices) as [|v' t]; [done|]. by injection Hv as ->. }
  assert (Hvin : v ∈ st.(vertices)) by by eapply list_elem_of_lookup_2.
  assert (Hcanon : ∀ e, e ∈ st.(gen_edges) → e.(a) < e.(b)).
  { intros e He. apply (inv_edges _ _ Hinv) in He. lia. }
  assert (Hmem : ∀ c, c ∈ vlist ↔
            ∃ kv, kv ∈ drop 1 st.(vertices) ∧ kv.(param) < MAXDEGREE ∧
                  isedge st.(gen_edges) kv.(vindex) j = false ∧
                  c = mkvertex (sqdist (pt ps kv.(vindex)) (pt ps j)) kv.(vindex)).
  { intros c. unfold vlist, sorted_vlist. rewrite qsort_perm, build_vlist_elem.
    split; intros (kv & ? & ? & ? & ->); exists kv; split_and!; try done.
    - f_equal. apply sqdist_int; by apply pt_grid.
    - f_equal. symmetry. apply sqdist_int; by apply pt_grid. }
  split_and!.
  - intros todo. simpl. rewrite (index234_nat _ 0), Hv.
    by destruct (Z.leb_spec MAXDEGREE v.(param)); [lia|].
  - intros u. rewrite list_elem_of_fmap. split.
    + intros (c & -> & (kv & Hkv & Hkdeg & Hedge & ->)%Hmem). simpl.
      assert (Hkin : kv ∈ st.(vertices)) by (rewrite Hvs; by right).
      destruct (vertex_position _ _ _ Hst Hkin) as [Hkr Hkp].
      split_and!; [lia..| | |].
      * intros Heq. apply (vertex_index_inj _ _ _ _ Hst Hkin Hvin) in Heq as ->.
        rewrite Hvs in Hnd. apply NoDup_cons in Hnd as [Hnotin _]. done.
      * rewrite <- (Z2Nat.id kv.(vindex)) by lia.
        by rewrite <- (inv_degree _ _ Hinv _ _ Hkp).
      * rewrite <- isedge_adjacent by done. by rewrite Hedge.
    + intros (Hur & Hne & Hdeg & Hadj).
      destruct (lookup_lt_is_Some_2 st.(vs) (Z.to_nat u)) as [kv Hkp].
      { rewrite (st_length _ _ Hst). lia. }
      pose proof (st_index _ _ Hst _ _ Hkp) as Hidx. rewrite Z2Nat.id in Hidx by lia.
      assert (Hkin : kv ∈ st.(vertices)).
      { apply (st_members _ _ Hst). by eapply list_elem_of_lookup_2. }
      exists (mkvertex (sqdist (pt ps kv.(vindex)) (pt ps j)) kv.(vindex)).
      split; [done|]. apply Hmem. exists kv. split_and!; [|..|done].
      * rewrite Hvs in Hkin. apply elem_of_cons in Hkin as [->|?]; [|done].
        by destruct Hne.
      * rewrite (inv_degree _ _ Hinv _ _ Hkp). by rewrite Z2Nat.id by lia.
      * rewrite Hidx. destruct (isedge _ u j) eqn:Hedge; [|done].
        by apply isedge_adjacent in Hedge.
  - by intros c (kv & _ & _ & _ & ->)%Hmem.
  - assert (Hndl : NoDup vlist).
    { unfold vlist, sorted_vlist. rewrite qsort_perm.
      apply (NoDup_fmap_1 vindex).
      eapply sublist_NoDup; [|apply build_vlist_sublist].
      apply NoDup_fmap_2_strong.
      - intros u w Hu Hw. apply (vertex_index_inj _ _ _ _ Hst).
        + rewrite Hvs. by right.
        + rewrite Hvs. by right.
      - eapply sublist_NoDup; [done|apply sublist_drop]. }
    pose proof (sorted_qsort vertcmpC vertcmp_eq vertcmp_trans vertcmp_total
                  (build_vlist ps st.(gen_edges) j (drop 1 st.(vertices)))) as Hsorted.
    apply sorted_strict in Hsorted; [|exact Hndl].
    eapply sorted_impl_elem; [|exact Hsorted].
    intros c1 c2 (k1 & _ & _ & _ & ->)%Hmem (k2 & _ & _ & _ & ->)%Hmem Hlt.
    apply vertcmp_lt in Hlt. exact Hlt.
Qed.

Lemma candidates_of_first_vertex_witness :
  let st := link (gen_init 5) 0 4 in
  let vlist := sorted_vlist sample_points st 0 1 in
  scan sample_points 5 (gen_init 5) 0 5 = Some st ∧
  vlist = [mkvertex 1 4; mkvertex 5 0; mkvertex 5 2; mkvertex 5 3] ∧
  (∀ todo, scan sample_points 5 st 0 (S todo) =
           match first_fit sample_points 5 st.(gen_edges) 1 vlist with
           | Some ki => Some (link st 1 ki)
           | None => scan sample_points 5 st 1 todo
           end) ∧
  (∀ u, u ∈ vindex <$> vlist ↔
        0 <= u < 5 ∧ u ≠ 1 ∧ degree st.(gen_edges) u < MAXDEGREE ∧
        ¬ adjacent st.(gen_edges) u 1) ∧
  (∀ c, c ∈ vlist →
        c.(param) = sqdist (pt sample_points c.(vindex)) (pt sample_points 1)) ∧
  StronglySorted (nearer sample_points 1) vlist.
Proof.
  split; [reflexivity|]. split; [reflexivity|].
  refine (proj2 (candidates_of_first_vertex sample_points 5
                   (link (gen_init 5) 0 4) 0 (mkvertex 0 1) _ _ _)).
  - eapply reach_round; [apply reach_init|reflexivity].
  - repeat constructor; simpl; lia.
  - reflexivity.
Defined.

(** X1: in every round of the generator no vertex has more edges than the
    maximum degree, and every edge joins two different points, the lower
    index first. *)
Theorem degree_bounded ps nv st u :
  gen_reach ps nv st → 0 <= u < nv →
  degree st.(gen_edges) u <= MAXDEGREE ∧
  (∀ e, e ∈ st.(gen_edges) → 0 <= e.(a) < e.(b) ∧ e.(b) < nv).
Proof.
  intros Hinv%gen_reach_inv Hu.
  pose proof (inv_struct _ _ Hinv) as Hst. split; [|apply (inv_edges _ _ Hinv)].
  destruct (lookup_lt_is_Some_2 st.(vs) (Z.to_nat u)) as [v Hv].
  { rewrite (st_length _ _ Hst). lia. }
  pose proof (inv_degree _ _ Hinv _ _ Hv) as Hdeg. rewrite Z2Nat.id in Hdeg by lia.
  rewrite <- Hdeg. apply (st_bound _ _ Hst). by eapply list_elem_of_lookup_2.
Qed.

Lemma degree_bounded_witness :
  degree (link (gen_init 5) 0 4).(gen_edges) 4 <= MAXDEGREE ∧
  (∀ e, e ∈ (link (gen_init 5) 0 4).(gen_edges) → 0 <= e.(a) < e.(b) ∧ e.(b) < 5).
Proof.
  apply (degree_bounded sample_points 5 (link (gen_init 5) 0 4) 4).
  - eapply reach_round; [apply reach_init|reflexivity].
  - lia.
Defined.

(** ** The generator stops *)

Lemma degree_sum_insert (l : list vertex) (i : nat) (v v' : vertex) :
  l !! i = Some v →
  degree_sum (<[i := v']> l) = degree_sum l - v.(param) + v'.(param).
Proof.
  revert i. induction l as [|u l IH]; intros [|i]; simpl; try done.
  - intros [= ->]. lia.
  - intros Hv. rewrite (IH _ Hv). lia.
Qed.

Lemma degree_sum_bound (l : list vertex) :
  (∀ v, v ∈ l → v.(param) <= MAXDEGREE) →
  degree_sum l <= MAXDEGREE * Z.of_nat (length l).
Proof.
  induction l as [|u l IH]; simpl; intros Hall; [lia|].
  pose proof (Hall u ltac:(by left)).
  assert (degree_sum l <= MAXDEGREE * Z.of_nat (length l)).
  { apply IH. intros v Hv. apply Hall. by right. }
  lia.
Qed.

(** A round adds one edge: the sum of the degrees goes up by two. *)
Lemma scan_degree_sum ps nv st i todo st' :
  gen_inv nv st → scan ps nv st i todo = Some st' →
  degree_sum st'.(vs) = degree_sum st.(vs) + 2.
Proof.
  intros Hinv (i' & v & kv & Hv & Hvdeg & Hkv & Hkdeg & Hedge & ->)%scan_Some.
  pose proof (inv_struct _ _ Hinv) as Hst.
  pose proof (vertices_NoDup _ _ Hst) as Hnd.
  apply list_elem_of_lookup in Hkv as [k Hk]. rewrite lookup_drop in Hk.
  assert (Hvin : v ∈ st.(vertices)) by by eapply list_elem_of_lookup_2.
  assert (Hkin : kv ∈ st.(vertices)) by by eapply list_elem_of_lookup_2.
  destruct (vertex_position _ _ _ Hst Hvin) as [Hvr Hvp].
  destruct (vertex_position _ _ _ Hst Hkin) as [Hkr Hkp].
  assert (Hne : v.(vindex) ≠ kv.(vindex)).
  { intros Heq. apply (vertex_index_inj _ _ _ _ Hst Hvin Hkin) in Heq as ->.
    pose proof (NoDup_lookup _ _ _ _ Hnd Hv Hk). lia. }
  set (j := v.(vindex)) in *. set (ki := kv.(vindex)) in *.
  set (st1 := mkgen st.(vs) st.(vertices) (addedge st.(gen_edges) j ki)).
  assert (Hst1 : gen_struct nv st1) by (by destruct Hst).
  destruct (bump_struct nv st1 j Hst1 Hvr) as (Hvs2 & _ & Hst2).
  { change (vs st1) with (vs st). by rewrite (list_lookup_total_correct _ _ _ Hvp). }
  set (st2 := bump st1 j) in *.
  assert (Hk2 : st2.(vs) !! Z.to_nat ki = Some kv).
  { rewrite Hvs2. rewrite list_lookup_insert_ne by lia. done. }
  destruct (bump_struct nv st2 ki Hst2 Hkr) as (Hvs3 & _ & _).
  { by rewrite (list_lookup_total_correct _ _ _ Hk2). }
  change (link st j ki) with (bump st2 ki).
  rewrite Hvs3, (degree_sum_insert _ _ _ _ Hk2).
  rewrite (list_lookup_total_correct _ _ _ Hk2).
  rewrite Hvs2. change (vs st1) with (vs st).
  rewrite (degree_sum_insert _ _ _ _ Hvp).
  rewrite (list_lookup_total_correct _ _ _ Hvp). simpl. lia.
Qed.

Lemma grow_stops ps nv fuel st :
  gen_reach ps nv st →
  MAXDEGREE * Z.of_nat (Z.to_nat nv) - degree_sum st.(vs) < 2 * Z.of_nat fuel →
  ∃ st', grow fuel ps nv st = Done st' ∧ gen_reach ps nv st' ∧
         scan ps nv st' 0 (Z.to_nat nv) = None.
Proof.
  revert st. induction fuel as [|fuel IH]; intros st Hreach Hfuel.
  - exfalso. pose proof (gen_reach_inv _ _ _ Hreach) as Hinv.
    pose proof (inv_struct _ _ Hinv) as Hst.
    pose proof (degree_sum_bound st.(vs)) as Hb.
    rewrite (st_length _ _ Hst) in Hb.
    assert (degree_sum st.(vs) <= MAXDEGREE * Z.of_nat (Z.to_nat nv)); [|lia].
    apply Hb. intros v Hv. by apply (st_bound _ _ Hst).
  - simpl. destruct (scan ps nv st 0 (Z.to_nat nv)) as [st1|] eqn:Hscan.
    + apply IH; [by eapply reach_round|].
      rewrite (scan_degree_sum _ _ _ _ _ _ (gen_reach_inv _ _ _ Hreach) Hscan). lia.
    + by exists st.
Qed.

(** X3: the generator stops: its loop, given twice the number of points
    plus one rounds, ends in a state in which the scan finds no edge to
    add. *)
Theorem generator_stops ps nv :
  ∃ st,
    grow (S (2 * Z.to_nat nv)) ps nv (gen_init nv) = Done st ∧
    gen_reach ps nv st ∧
    scan ps nv st 0 (Z.to_nat nv) = None.
Proof.
  apply grow_stops; [apply reach_init|].
  assert (Hzero : ∀ l, degree_sum ((λ i, mkvertex 0 i) <$> l) = 0).
  { induction l as [|z l IH]; [done|]. rewrite fmap_cons.
    change (degree_sum (mkvertex 0 z :: ((λ i, mkvertex 0 i) <$> l)))
      with (0 + degree_sum ((λ i, mkvertex 0 i) <$> l)). by rewrite IH. }
  change (vs (gen_init nv)) with ((λ i, mkvertex 0 i) <$> seqZ 0 nv).
  rewrite Hzero. unfold MAXDEGREE. lia.
Qed.

(** ** Printing and reading back a number *)

Lemma all_chars_app f (s1 s2 : string) :
  all_chars f (s1 +:+ s2) = all_chars f s1 && all_chars f s2.
Proof.
  induction s1 as [|c s1 IH]; sapp; simpl; [done|].
  rewrite <- andb_assoc. by f_equal.
Qed.

Lemma digits_value_app (s1 s2 : string) (acc : Z) :
  digits_value (s1 +:+ s2) acc = digits_value s2 (digits_value s1 acc).
Proof.
  revert acc. induction s1 as [|c s1 IH]; intros acc; sapp; simpl; [done|]. apply IH.
Qed.

Lemma digit_char_spec (v : Z) :
  0 <= v <= 9 → isdigit (digit_char v) = true ∧ digit_val (digit_char v) = v.
Proof.
  intros Hv.
  assert (v = 0 ∨ v = 1 ∨ v = 2 ∨ v = 3 ∨ v = 4 ∨ v = 5 ∨ v = 6 ∨ v = 7 ∨ v = 8 ∨ v = 9)
    as Hcases by lia.
  repeat (destruct Hcases as [->|Hcases]; [by vm_compute|]). by subst.
Qed.

Lemma print_digits_spec (fuel : nat) (v : Z) (acc : string) :
  0 <= v < 10 ^ Z.of_nat fuel → (0 < fuel)%nat →
  ∃ ds, print_digits fuel v acc = ds +:+ acc ∧ ds ≠ "" ∧
        all_chars isdigit ds = true ∧ digits_value ds 0 = v.
Proof.
  revert v acc. induction fuel as [|fuel IH]; intros v acc Hv Hfuel; [lia|].
  cbn [print_digits]. cbv zeta. destruct (digit_char_spec (v mod 10)) as [Hdig Hval].
  { pose proof (Z.mod_pos_bound v 10). lia. }
  destruct (Z.ltb_spec v 10) as [Hsmall|Hbig].
  - exists (String (digit_char (v mod 10)) ""). sapp. cbn [all_chars digits_value].
    rewrite Hdig, Hval. split_and!; try done. pose proof (Z.mod_small v 10). lia.
  - assert (0 < fuel)%nat as Hpos.
    { destruct fuel; [|lia]. simpl in Hv. lia. }
    destruct (IH (v / 10) (String (digit_char (v mod 10)) acc)) as (ds & Hds & Hne & Hall & Hvds);
      [|done|].
    { rewrite Nat2Z.inj_succ, Z.pow_succ_r in Hv by lia.
      split; [apply Z.div_pos; lia|]. apply Z.div_lt_upper_bound; lia. }
    exists (ds +:+ String (digit_char (v mod 10)) ""). split_and!.
    + rewrite Hds. by snorm.
    + by destruct ds.
    + rewrite all_chars_app, Hall. cbn [all_chars]. by rewrite Hdig.
    + rewrite digits_value_app, Hvds. cbn [digits_value]. rewrite Hval.
      pose proof (Z.div_mod v 10). lia.
Qed.

(** An [int] goes through the conversion of the library as it is. *)
Lemma to_int_id (neg : bool) (v : Z) :
  in_int (if neg then - v else v) → to_int neg v = if neg then - v else v.
Proof.
  unfold to_int, in_int, INT_MIN, INT_MAX, LONG_MIN, LONG_MAX. intros Hv.
  rewrite Z.min_r, Z.max_r by lia. apply wrap_id.
  unfold in_int, INT_MIN, INT_MAX. lia.
Qed.

(** What [%d] writes for an [int], [%d] reads back as the same number. *)
Lemma print_int_text (v : Z) : in_int v → int_text (print_int v) v.
Proof.
  unfold in_int, INT_MIN, INT_MAX, print_int. intros Hv.
  destruct (Z.ltb_spec v 0) as [Hneg|Hpos].
  - destruct (print_digits_spec 10 (- v) "") as (ds & -> & Hne & Hall & Hval); [lia|lia|].
    rewrite sapp_nil_r.
    pose proof (int_text_intro "" "-" ds true eq_refl sign_minus Hne Hall) as Ht.
    rewrite Hval, to_int_id, Z.opp_involutive in Ht
      by (rewrite Z.opp_involutive; unfold in_int, INT_MIN, INT_MAX; lia).
    exact Ht.
  - destruct (print_digits_spec 10 v "") as (ds & -> & Hne & Hall & Hval); [lia|lia|].
    rewrite sapp_nil_r.
    pose proof (int_text_intro "" "" ds false eq_refl sign_none Hne Hall) as Ht.
    rewrite Hval, to_int_id in Ht by (unfold in_int, INT_MIN, INT_MAX; lia).
    exact Ht.
Qed.

Lemma print_int_num (v : Z) : 0 <= v <= INT_MAX → num_text (print_int v) v.
Proof.
  unfold INT_MAX, print_int. intros Hv.
  destruct (Z.ltb_spec v 0) as [Hneg|Hpos]; [lia|].
  destruct (print_digits_spec 10 v "") as (ds & -> & Hne & Hall & Hval); [lia|lia|].
  rewrite sapp_nil_r.
  pose proof (num_text_intro ds Hne Hall) as Ht.
  rewrite Hval, to_int_id in Ht by (unfold in_int, INT_MIN, INT_MAX; lia).
  exact Ht.
Qed.

Lemma atoi_int_text (t rest : string) (v : Z) :
  int_text t v → isdigit (cur rest) = false → atoi (t +:+ rest) = v.
Proof.
  intros [ws sg ds neg Hws Hsg Hne Hds] Hrest.
  unfold atoi. rewrite !sapp_assoc.
  rewrite (skip_space_app _ _ Hws).
  rewrite skip_space_id by eauto using cur_sign_digits.
  rewrite (scan_sign_app _ _ _ Hsg) by eauto using cur_digits.
  by rewrite scan_digits_app.
Qed.

(** ** Parameters *)

(** X4: the parameters survive being written and read back, as a parameter
    string ([encode_params], [decode_params]) and through the configuration
    dialog ([game_configure], [custom_params]), for every number of points
    that is an [int]. *)
Theorem params_round_trip (pr : game_params) :
  in_int pr.(n) →
  decode_params (encode_params pr) = pr ∧
  custom_params (game_configure pr) = Some pr.
Proof.
  intros Hn. destruct pr as [nv]. simpl in Hn.
  pose proof (atoi_int_text _ "" _ (print_int_text nv Hn) eq_refl) as Hread.
  rewrite sapp_nil_r in Hread.
  unfold decode_params, encode_params, custom_params, game_configure. simpl.
  by rewrite Hread.
Qed.

Lemma params_round_trip_witness :
  decode_params (encode_params (mkparams (-25))) = mkparams (-25) ∧
  custom_params (game_configure (mkparams (-25))) = Some (mkparams (-25)).
Proof.
  apply (params_round_trip (mkparams (-25))).
  unfold in_int, INT_MIN, INT_MAX. simpl. lia.
Defined.

(** X5: [game_fetch_preset] offers the five presets 0 to 4 and no other:
    they have 6, 10, 15, 20 and 25 points, each is named after its number
    of points and passes [validate_params], as do the default parameters;
    parameters with fewer than four points do not. *)
Theorem presets_valid (i : Z) :
  (is_Some (game_fetch_preset i) ↔ 0 <= i < 5) ∧
  (∀ name pr,
     game_fetch_preset i = Some (name, pr) →
     pr.(n) = [6; 10; 15; 20; 25] !!! Z.to_nat i ∧
     name = encode_params pr +:+ " points" ∧
     validate_params pr = None) ∧
  validate_params default_params = None ∧
  (∀ pr', pr'.(n) < 4 → validate_params pr' ≠ None).
Proof.
  assert (Hsmall : ∀ pr', pr'.(n) < 4 → validate_params pr' ≠ None).
  { intros pr' Hlt. unfold validate_params. by destruct (Z.ltb_spec pr'.(n) 4); [|lia]. }
  assert (Hcases : i = 0 ∨ i = 1 ∨ i = 2 ∨ i = 3 ∨ i = 4 ∨ ¬ 0 <= i < 5) by lia.
  destruct Hcases as [->|[->|[->|[->|[->|Hout]]]]].
  1-5: split_and!; [split; [lia|by eexists]| |done|done];
       by intros name pr [= <- <-].
  assert (Hnone : game_fetch_preset i = None).
  { unfold game_fetch_preset.
    repeat (match goal with
            | |- (if ?c =? ?k then _ else _) = _ => destruct (Z.eqb_spec c k); [lia|]
            end). done. }
  split_and!; [|by rewrite Hnone|done|done].
  rewrite Hnone. split; [by intros [? ?]|lia].
Qed.

Lemma presets_valid_witness :
  (is_Some (game_fetch_preset 3) ↔ 0 <= 3 < 5) ∧
  (∀ name pr,
     game_fetch_preset 3 = Some (name, pr) →
     pr.(n) = [6; 10; 15; 20; 25] !!! Z.to_nat 3 ∧
     name = encode_params pr +:+ " points" ∧
     validate_params pr = None) ∧
  validate_params default_params = None ∧
  (∀ pr', pr'.(n) < 4 → validate_params pr' ≠ None).
Proof. apply (presets_valid 3). Defined.

(** ** The side of the grid *)

Lemma sq_lt (s b : Z) : 0 <= s → 0 <= b → s * s < b * b → s < b.
Proof. intros. nia. Qed.

Lemma shiftr_double (z : Z) : Z.shiftr (z * 2) 1 = z.
Proof. rewrite Z.shiftr_div_pow2 by lia. change (2 ^ 1) with 2. apply Z.div_mul. lia. Qed.

Lemma shiftr_quad (z : Z) : Z.shiftr (z * 4) 2 = z.
Proof. rewrite Z.shiftr_div_pow2 by lia. change (2 ^ 2) with 4. apply Z.div_mul. lia. Qed.

Lemma uwrap_id (z : Z) : 0 <= z < 2 ^ 64 → uwrap z = z.
Proof. apply Z.mod_small. Qed.

(** One turn of the loop of [squarert], with [av] even so that the shift
    loses nothing. *)
Lemma squarert_loop_step (fuel : nat) (dv h bv : Z) :
  0 <= dv < 2 ^ 32 → 0 <= h < 2 ^ 31 → 0 <= bv <= 2 ^ 30 →
  squarert_loop (S fuel) dv (h * 2) (bv * 4) =
  let di := 2 * h + bv * 4 in
  let '(dv, av) := if di <=? dv then (dv - di, h + bv * 4) else (dv, h) in
  if bv =? 0 then Done av else squarert_loop fuel dv av bv.
Proof.
  intros Hd Hh Hb. cbn [squarert_loop]. cbv zeta.
  rewrite shiftr_double, shiftr_quad.
  rewrite (uwrap_id (2 * h)) by lia. rewrite (uwrap_id (2 * h + bv * 4)) by lia.
  destruct (Z.leb_spec (2 * h + bv * 4) dv); [|done].
  rewrite !uwrap_id by lia. done.
Qed.

Lemma squarert_loop_spec (k : nat) (nv s : Z) :
  (k <= 15)%nat → 0 <= s → s * s <= nv →
  nv < (s + 2 * 2 ^ Z.of_nat k) * (s + 2 * 2 ^ Z.of_nat k) → nv < 2 ^ 32 →
  ∃ r, squarert_loop (S k) (nv - s * s) (s * (2 * 2 ^ Z.of_nat k))
                     (2 ^ Z.of_nat k * 2 ^ Z.of_nat k) = Done r ∧
       0 <= r ∧ r * r <= nv < (r + 1) * (r + 1).
Proof.
  revert s. induction k as [|k IH]; intros s Hk Hs Hlow Hhigh Hnv.
  - change (2 ^ Z.of_nat 0) with 1 in *.
    assert (s < 2 ^ 16) by (apply sq_lt; lia).
    replace (s * (2 * 1)) with (s * 2) by lia.
    change (1 * 1) with (0 * 4 + 1).
    cbn [squarert_loop]. cbv zeta. rewrite shiftr_double.
    change (Z.shiftr (0 * 4 + 1) 2 =? 0) with true.
    rewrite (uwrap_id (2 * s)) by lia. rewrite (uwrap_id (2 * s + (0 * 4 + 1))) by lia.
    destruct (Z.leb_spec (2 * s + (0 * 4 + 1)) (nv - s * s)) as [Htake|Hskip].
    + exists (s + 1). rewrite !uwrap_id by lia. split; [done|]. lia.
    + exists s. split; [done|]. lia.
  - set (p := 2 ^ Z.of_nat k) in *.
    assert (Hp : 2 ^ Z.of_nat (S k) = 2 * p).
    { rewrite Nat2Z.inj_succ, Z.pow_succ_r by lia. done. }
    rewrite Hp in *.
    assert (Hpb : 1 <= p <= 2 ^ 14).
    { pose proof (Z.pow_pos_nonneg 2 (Z.of_nat k)).
      pose proof (Z.pow_le_mono_r 2 (Z.of_nat k) 14). subst p. lia. }
    assert (s < 2 ^ 16) by (apply sq_lt; lia).
    assert (0 <= s * p < 2 ^ 30) by nia.
    assert (0 < p * p <= 2 ^ 28) by nia.
    replace (s * (2 * (2 * p))) with (s * p * 2 * 2) by lia.
    replace (2 * p * (2 * p)) with (p * p * 4) by lia.
    rewrite squarert_loop_step by lia. cbv zeta.
    destruct (Z.eqb_spec (p * p) 0) as [?|_]; [lia|].
    destruct (Z.leb_spec (2 * (s * p * 2) + p * p * 4) (nv - s * s)) as [Htake|Hskip].
    + destruct (IH (s + 2 * p)) as (r & Hrun & Hr); [lia|lia|lia|nia|lia|].
      exists r. split; [|done]. rewrite <- Hrun. f_equal; lia.
    + destruct (IH s) as (r & Hrun & Hr); [lia|lia|lia|nia|lia|].
      exists r. split; [|done]. rewrite <- Hrun. f_equal; lia.
Qed.

(** The result of [squarert] is the largest number whose square does not
    exceed the argument. *)
Lemma squarert_spec (nv : Z) :
  0 <= nv < 2 ^ 32 →
  0 <= squarert nv ∧ squarert nv * squarert nv <= nv < (squarert nv + 1) * (squarert nv + 1).
Proof.
  intros Hnv. unfold squarert.
  destruct (squarert_loop_spec 15 nv 0) as (r & Hrun & Hr); [lia|lia|lia|simpl; lia|lia|].
  replace (nv - 0 * 0) with nv in Hrun by lia.
  change (0 * (2 * 2 ^ Z.of_nat 15)) with 0 in Hrun.
  change (2 ^ Z.of_nat 15 * 2 ^ Z.of_nat 15) with (Z.shiftl 1 30) in Hrun.
  by rewrite Hrun.
Qed.

(** X6: [squarert] is the integer square root on every argument below
    [2^32], the range the sixteen turns of its loop cover. *)
Theorem squarert_correct (nv : Z) :
  0 <= nv < 2 ^ 32 → squarert nv = Z.sqrt nv.
Proof.
  intros Hnv.
  destruct (squarert_spec nv Hnv) as (Hpos & Hlow & Hhigh).
  symmetry. apply Z.sqrt_unique. lia.
Qed.

Lemma squarert_correct_witness : squarert 4000000000 = Z.sqrt 4000000000.
Proof. apply (squarert_correct 4000000000). lia. Defined.

(** X7: for every number of points from 1 to 715827882, where three times
    the number is still an [int], the grid of side [COORDLIMIT(n)] has at
    least [n] and at most [3n] cells, and its side is below [2^16]. *)
Theorem COORDLIMIT_room (nv : Z) :
  1 <= nv <= 715827882 →
  let wv := COORDLIMIT nv in
  nv <= wv * wv <= 3 * nv ∧ 3 * nv < (wv + 1) * (wv + 1) ∧ 1 <= wv < 2 ^ 16.
Proof.
  intros Hnv. unfold COORDLIMIT, POINTDENSITY, imul.
  rewrite wrap_id by (unfold in_int, INT_MIN, INT_MAX; lia).
  unfold uwrap. rewrite Z.mod_small by lia.
  destruct (squarert_spec (nv * 3)) as (Hpos & Hlow & Hhigh); [lia|].
  set (wv := squarert (nv * 3)) in *. cbv zeta. nia.
Qed.

Lemma COORDLIMIT_room_witness :
  10 <= COORDLIMIT 10 * COORDLIMIT 10 <= 3 * 10 ∧
  3 * 10 < (COORDLIMIT 10 + 1) * (COORDLIMIT 10 + 1) ∧ 1 <= COORDLIMIT 10 < 2 ^ 16.
Proof. apply (COORDLIMIT_room 10). lia. Defined.

Example COORDLIMIT_10 : COORDLIMIT 10 = 5.
Proof. reflexivity. Qed.

(** ** Writing and reading a description *)

Lemma edgecmp_lt u v :
  edgecmp u v < 0 ↔ u.(a) < v.(a) ∨ (u.(a) = v.(a) ∧ u.(b) < v.(b)).
Proof.
  unfold edgecmp, edgecmpC.
  destruct (Z.ltb_spec u.(a) v.(a)); [lia|].
  destruct (Z.ltb_spec v.(a) u.(a)); [lia|].
  destruct (Z.ltb_spec u.(b) v.(b)); [lia|].
  destruct (Z.ltb_spec v.(b) u.(b)); lia.
Qed.

Lemma edgecmp_trans u v w : edgecmp u v < 0 → edgecmp v w < 0 → edgecmp u w < 0.
Proof. rewrite !edgecmp_lt. lia. Qed.

Lemma edgecmp_total u v : edgecmp u v < 0 ∨ edgecmp u v = 0 ∨ edgecmp v u < 0.
Proof.
  rewrite !edgecmp_lt, edgecmp_eq. destruct u as [au bu], v as [av bv]. simpl.
  destruct (Z.lt_trichotomy au av) as [?|[->|?]]; [lia| |lia].
  destruct (Z.lt_trichotomy bu bv) as [?|[->|?]]; [lia| |lia].
  by right; left.
Qed.

(** An element above all the others goes to the end of the tree. *)
Lemma add234_last {A} (cmp : A → A → Z) (t : list A) (e : A) :
  Forall (λ u, 0 < cmp e u) t → add234 cmp t e = t ++ [e].
Proof.
  induction 1 as [|u t Hu _ IH]; simpl; [done|].
  destruct (Z.ltb_spec (cmp e u) 0); [lia|].
  destruct (Z.eqb_spec (cmp e u) 0); [lia|]. by rewrite IH.
Qed.

Lemma edgecmp_gt u v : edgecmp u v < 0 → 0 < edgecmp v u.
Proof.
  rewrite edgecmp_lt. unfold edgecmp, edgecmpC. intros Hlt.
  destruct (Z.ltb_spec v.(a) u.(a)); [lia|].
  destruct (Z.ltb_spec u.(a) v.(a)); [lia|].
  destruct (Z.ltb_spec v.(b) u.(b)); [lia|].
  destruct (Z.ltb_spec u.(b) v.(b)); lia.
Qed.

(** The edges of a sorted list, added one by one, give the list back. *)
Lemma addedge_sorted (ea : list edge) :
  StronglySorted edge_lt ea → (∀ e, e ∈ ea → e.(a) < e.(b)) →
  foldl (λ es t, addedge es t.1 t.2) [] (edge_pairs ea) = ea.
Proof.
  unfold edge_pairs.
  induction ea as [|e ea IH] using rev_ind; intros Hs Hcanon; [done|].
  rewrite fmap_app, foldl_app. simpl.
  apply StronglySorted_app in Hs as (Hlast & Hs' & _).
  rewrite IH; [|done|intros e' He'; apply Hcanon, elem_of_app; by left].
  unfold addedge. cbn [fst snd].
  assert (e.(a) < e.(b)) as Hlt by (apply Hcanon, elem_of_app; right; by left).
  replace (mkedge (Z.min e.(a) e.(b)) (Z.max e.(a) e.(b))) with e
    by (destruct e as [ea0 eb0]; simpl in *; f_equal; lia).
  apply add234_last. apply Forall_forall. intros u Hu.
  apply edgecmp_gt. apply Hlast; [done|by left].
Qed.

Lemma print_edge_token nv (e : edge) :
  0 <= e.(a) < nv → 0 <= e.(b) < nv → nv <= INT_MAX →
  token_text nv (print_edge e) (e.(a), e.(b)).
Proof.
  intros Ha Hb Hn. unfold print_edge. constructor; try done; apply print_int_num; lia.
Qed.

Lemma print_edges_sep (sep : string) (ea : list edge) :
  ea ≠ [] → print_edges sep ea = sep +:+ print_edges "" ea.
Proof. by destruct ea. Qed.

(** What the writing loop produces is a description. *)
Lemma print_edges_desc nv (ea : list edge) :
  nv <= INT_MAX →
  (∀ e, e ∈ ea → 0 <= e.(a) < nv ∧ 0 <= e.(b) < nv) →
  desc_text nv (print_edges "" ea) (edge_pairs ea).
Proof.
  intros Hn. induction ea as [|e ea IH]; intros Hin; [constructor|].
  assert (token_text nv (print_edge e) (e.(a), e.(b))) as Htok.
  { apply print_edge_token; [apply Hin; by left..|done]. }
  cbn [print_edges]. rewrite sapp_nil_l.
  destruct ea as [|e' ea].
  - cbn [print_edges]. rewrite sapp_nil_r. by constructor.
  - rewrite print_edges_sep by done.
    apply (desc_text_more nv _ (e.(a), e.(b)) _ (edge_pairs (e' :: ea))); [done| |done].
    apply IH. intros e2 He2. apply Hin. by right.
Qed.

Lemma new_game_loop_unfold fuel nv es desc :
  new_game_loop fuel nv es desc =
  if is_char (cur desc) NUL then Done (Some es)
  else
    match fuel with
    | O => Diverge
    | S fuel =>
        let av := atoi desc in
        if out_of_range nv av then Done None
        else
          let desc := skip_digits desc in
          if negb (is_char (cur desc) "-") then Done None
          else
            let desc := advance desc in
            let bv := atoi desc in
            if out_of_range nv bv then Done None
            else
              let desc := skip_digits desc in
              if negb (is_char (cur desc) NUL) && negb (is_char (cur desc) ",")
              then Done None
              else
                let desc := if is_char (cur desc) NUL then desc else advance desc in
                if av =? bv then Done None
                else new_game_loop fuel nv (addedge es av bv) desc
    end.
Proof. by destruct fuel. Qed.

(** One turn of the loop of [new_game] over a token and what follows it. *)
Lemma new_game_loop_token fuel nv es t u rest :
  token_text nv t u → isdigit (cur rest) = false →
  new_game_loop (S fuel) nv es (t +:+ rest) =
  if negb (is_char (cur rest) NUL) && negb (is_char (cur rest) ",") then Done None
  else if u.1 =? u.2 then Done None
  else new_game_loop fuel nv (addedge es u.1 u.2)
         (if is_char (cur rest) NUL then rest else advance rest).
Proof.
  intros [ta tb av bv Ha Hb Hav Hbv] Hrest.
  rewrite new_game_loop_unfold. snorm.
  rewrite (num_text_cur _ _ _ Ha). cbv zeta.
  rewrite (atoi_digits _ _ _ Ha) by done. rewrite (in_range _ _ Hav).
  destruct Ha as [ta Hnea Hta], Hb as [tb Hneb Htb].
  rewrite (skip_digits_app ta) by done.
  change (cur (String "-" (tb +:+ rest))) with "-"%char.
  change (advance (String "-" (tb +:+ rest))) with (tb +:+ rest).
  change (negb (is_char "-" "-")) with false. cbv iota.
  rewrite (atoi_digits tb rest _ (num_text_intro tb Hneb Htb)) by done.
  rewrite (in_range _ _ Hbv).
  by rewrite (skip_digits_app tb).
Qed.

(** [new_game] reads a description whose tokens join different points
    without failing an assertion, and adds its edges in order. *)
Lemma new_game_loop_reads nv desc toks :
  desc_text nv desc toks →
  (∀ u, u ∈ toks → u.1 ≠ u.2) →
  ∀ fuel es, (String.length desc < fuel)%nat →
    new_game_loop fuel nv es desc = Done (Some (foldl (λ es t, addedge es t.1 t.2) es toks)).
Proof.
  induction 1 as [|t u Ht|t u rest toks Ht Hrest IH Hne]; intros Hloops fuel es Hfuel.
  - by destruct fuel.
  - destruct fuel as [|fuel]; [lia|].
    rewrite <- (sapp_nil_r t). rewrite (new_game_loop_token _ _ _ _ _ _ Ht) by done.
    simpl. destruct (Z.eqb_spec u.1 u.2) as [Heq|_].
    { exfalso. by apply (Hloops u); [left|]. }
    by destruct fuel.
  - destruct fuel as [|fuel]; [lia|].
    rewrite (new_game_loop_token _ _ _ _ _ _ Ht) by done. sapp. simpl.
    destruct (Z.eqb_spec u.1 u.2) as [Heq|_].
    { exfalso. by apply (Hloops u); [left|]. }
    apply IH; [intros u' Hu'; apply Hloops; by right|].
    pose proof (token_text_length _ _ _ Ht).
    rewrite !slength_app in Hfuel. simpl in Hfuel. lia.
Qed.

(** Whatever [new_game] reads without failing an assertion, [validate_desc]
    accepts. *)
Lemma new_game_loop_validated fuel nv es desc es' :
  new_game_loop fuel nv es desc = Done (Some es') →
  validate_loop fuel nv desc = Done None.
Proof.
  revert es desc. induction fuel as [|fuel IH]; intros es desc;
    rewrite new_game_loop_unfold, validate_loop_unfold.
  - by destruct (is_char (cur desc) NUL).
  - destruct (is_char (cur desc) NUL); [done|]. cbv zeta.
    destruct (out_of_range nv (atoi desc)); [done|].
    destruct (negb (is_char (cur (skip_digits desc)) "-")); [done|].
    destruct (out_of_range nv (atoi (advance (skip_digits desc)))); [done|].
    set (rest := skip_digits (advance (skip_digits desc))).
    destruct (is_char (cur rest) NUL) eqn:Hnul; simpl.
    + destruct (_ =? _); [done|]. apply IH.
    + destruct (is_char (cur rest) ","); simpl; [|done].
      destruct (_ =? _); [done|]. apply IH.
Qed.

Lemma perm_seqZ_lookup (tmp : list Z) (nv i : Z) :
  tmp ≡ₚ seqZ 0 nv → 0 <= i < nv → 0 <= tmp !!! Z.to_nat i < nv.
Proof.
  intros Hperm Hi.
  assert (Hlen : length tmp = Z.to_nat nv) by (by rewrite Hperm, length_seqZ).
  destruct (lookup_lt_is_Some_2 tmp (Z.to_nat i)) as [v Hv]; [lia|].
  rewrite (list_lookup_total_correct _ _ _ Hv).
  apply list_elem_of_lookup_2 in Hv. rewrite Hperm, elem_of_seqZ in Hv. lia.
Qed.

Lemma perm_seqZ_inj (tmp : list Z) (nv i j : Z) :
  tmp ≡ₚ seqZ 0 nv → 0 <= i < nv → 0 <= j < nv →
  tmp !!! Z.to_nat i = tmp !!! Z.to_nat j → i = j.
Proof.
  intros Hperm Hi Hj Heq.
  assert (Hlen : length tmp = Z.to_nat nv) by (by rewrite Hperm, length_seqZ).
  assert (Hnd : NoDup tmp) by (rewrite Hperm; apply NoDup_seqZ).
  destruct (lookup_lt_is_Some_2 tmp (Z.to_nat i)) as [v Hv]; [lia|].
  destruct (lookup_lt_is_Some_2 tmp (Z.to_nat j)) as [v' Hv']; [lia|].
  rewrite (list_lookup_total_correct _ _ _ Hv) in Heq.
  rewrite (list_lookup_total_correct _ _ _ Hv') in Heq. subst v'.
  pose proof (NoDup_lookup _ _ _ _ Hnd Hv Hv'). lia.
Qed.

(** The edges keep apart under a permutation of the points. *)
Lemma permute_edge_inj (tmp : list Z) (nv : Z) (e e' : edge) :
  tmp ≡ₚ seqZ 0 nv →
  0 <= e.(a) < e.(b) ∧ e.(b) < nv → 0 <= e'.(a) < e'.(b) ∧ e'.(b) < nv →
  permute_edge tmp e = permute_edge tmp e' → e = e'.
Proof.
  intros Hperm He He'. unfold permute_edge. intros [= Hmin Hmax].
  destruct e as [u v], e' as [u' v']. simpl in *.
  assert (Hcases : (tmp !!! Z.to_nat u = tmp !!! Z.to_nat u' ∧
                    tmp !!! Z.to_nat v = tmp !!! Z.to_nat v') ∨
                   (tmp !!! Z.to_nat u = tmp !!! Z.to_nat v' ∧
                    tmp !!! Z.to_nat v = tmp !!! Z.to_nat u')) by lia.
  destruct Hcases as [[Hu Hv]|[Hu Hv]].
  - assert (u = u') by (apply (perm_seqZ_inj tmp nv); [done|lia|lia|done]).
    assert (v = v') by (apply (perm_seqZ_inj tmp nv); [done|lia|lia|done]).
    by subst.
  - assert (u = v') by (apply (perm_seqZ_inj tmp nv); [done|lia|lia|done]).
    assert (v = u') by (apply (perm_seqZ_inj tmp nv); [done|lia|lia|done]).
    lia.
Qed.

Lemma permute_edge_range (tmp : list Z) (nv : Z) (e : edge) :
  tmp ≡ₚ seqZ 0 nv → 0 <= e.(a) < e.(b) ∧ e.(b) < nv →
  0 <= (permute_edge tmp e).(a) < (permute_edge tmp e).(b) ∧
  (permute_edge tmp e).(b) < nv.
Proof.
  intros Hperm He. unfold permute_edge. simpl.
  pose proof (perm_seqZ_lookup tmp nv e.(a) Hperm).
  pose proof (perm_seqZ_lookup tmp nv e.(b) Hperm).
  assert (tmp !!! Z.to_nat e.(a) ≠ tmp !!! Z.to_nat e.(b)).
  { intros Heq. apply (perm_seqZ_inj _ nv) in Heq; [lia|done|lia|lia]. }
  lia.
Qed.

(** The array [ea] after [qsort]: the edges of the graph under the
    permutation, in the strict order of the edge tree. *)
Lemma sorted_permuted_edges (tmp : list Z) (nv : Z) (es : list edge) :
  tmp ≡ₚ seqZ 0 nv →
  StronglySorted edge_lt es →
  (∀ e, e ∈ es → 0 <= e.(a) < e.(b) ∧ e.(b) < nv) →
  let ea := qsort edgecmpC (permute_edge tmp <$> es) in
  ea ≡ₚ permute_edge tmp <$> es ∧ StronglySorted edge_lt ea ∧
  (∀ e, e ∈ ea → 0 <= e.(a) < e.(b) ∧ e.(b) < nv).
Proof.
  intros Hperm Hs Hin ea.
  assert (Hp : ea ≡ₚ permute_edge tmp <$> es) by apply qsort_perm.
  split_and!; [done| |].
  - apply sorted_strict.
    + apply (sorted_qsort edgecmpC); [apply edgecmp_eq|apply edgecmp_trans|apply edgecmp_total].
    + rewrite Hp. apply NoDup_fmap_2_strong.
      * intros e e' He He'. apply (permute_edge_inj tmp nv); auto.
      * apply (sorted_NoDup edgecmp); [apply edgecmp_eq|done].
  - intros e He. rewrite Hp in He. apply list_elem_of_fmap in He as (e0 & -> & He0).
    apply permute_edge_range; auto.
Qed.

(** X8: a graph written by [new_game_desc] is read back by [new_game].  For
    a permutation [tmp] of the points and a tree [es] of edges (lower,
    higher) over the points, the description passes [validate_desc], and
    [new_game] fails no assertion on it: it allocates a new graph with
    reference count 1 whose tree holds the edges of [es] under the
    permutation, and returns a state with the three flags cleared. *)
Theorem desc_round_trip (make_circle : Z → Z → list point) (σ : store)
    (nv : Z) (tmp : list Z) (es : list edge) :
  nv <= INT_MAX →
  tmp ≡ₚ seqZ 0 nv →
  StronglySorted edge_lt es →
  (∀ e, e ∈ es → 0 <= e.(a) < e.(b) ∧ e.(b) < nv) →
  let desc := encode_desc tmp es in
  let wv := wrap (COORDLIMIT nv) in
  validate_desc (mkparams nv) desc = None ∧
  ∃ l ea,
    σ !! l = None ∧
    new_game make_circle σ (mkparams nv) desc =
      Some (<[l := mkgraph 1 ea]> σ,
            mkstate (mkparams nv) wv wv (make_circle nv wv) l false false false) ∧
    ea ≡ₚ permute_edge tmp <$> es ∧
    StronglySorted edge_lt ea.
Proof.
  intros Hn Hperm Hs Hin desc wv.
  destruct (sorted_permuted_edges tmp nv es Hperm Hs Hin) as (Hp & Hsorted & Hrange).
  set (ea := qsort edgecmpC (permute_edge tmp <$> es)) in *.
  assert (Htext : desc_text nv desc (edge_pairs ea)).
  { apply print_edges_desc; [done|]. intros e He. pose proof (Hrange e He). lia. }
  split.
  - unfold validate_desc. change (n (mkparams nv)) with nv.
    by rewrite (validate_loop_accepts nv desc _ Htext) by lia.
  - exists (fresh (dom σ)), ea. split_and!; [|  |done|done].
    + apply not_elem_of_dom, is_fresh.
    + unfold new_game. change (n (mkparams nv)) with nv.
      rewrite (new_game_loop_reads nv desc _ Htext); [|  |lia].
      * rewrite addedge_sorted; [done|done|]. intros e He. pose proof (Hrange e He). lia.
      * intros u (e & -> & He)%list_elem_of_fmap. pose proof (Hrange e He). simpl. lia.
Qed.

Lemma desc_round_trip_witness :
  validate_desc (mkparams 4) (encode_desc [0; 1; 3; 2] square_graph.(edges)) = None ∧
  ∃ l ea,
    square_store !! l = None ∧
    new_game (λ _ _, square_circle) square_store (mkparams 4)
             (encode_desc [0; 1; 3; 2] square_graph.(edges)) =
      Some (<[l := mkgraph 1 ea]> square_store,
            mkstate (mkparams 4) (wrap (COORDLIMIT 4)) (wrap (COORDLIMIT 4))
                    square_circle l false false false) ∧
    ea ≡ₚ permute_edge [0; 1; 3; 2] <$> square_graph.(edges) ∧
    StronglySorted edge_lt ea.
Proof.
  apply (desc_round_trip (λ _ _, square_circle) square_store 4 [0; 1; 3; 2]
                         square_graph.(edges)).
  - vm_compute. discriminate.
  - change (seqZ 0 4) with [0; 1; 2; 3]. do 2 apply perm_skip. apply perm_swap.
  - repeat constructor.
  - intros e He. simpl in He.
    repeat (apply elem_of_cons in He as [->|He]; [simpl; lia|]).
    by apply elem_of_nil in He.
Defined.

(** X9: [new_game] fails no assertion only on descriptions that
    [validate_desc] accepts; the converse fails.  A token [a-a] that joins
    a point to itself passes [validate_desc], and [new_game] fails on it
    the assertion of [addedge]. *)
Theorem new_game_validated (make_circle : Z → Z → list point) (σ : store)
    (nv av : Z) :
  0 <= av < nv → nv <= INT_MAX →
  (∀ desc σ' st,
     new_game make_circle σ (mkparams nv) desc = Some (σ', st) →
     validate_desc (mkparams nv) desc = None) ∧
  validate_desc (mkparams nv) (print_edge (mkedge av av)) = None ∧
  new_game make_circle σ (mkparams nv) (print_edge (mkedge av av)) = None.
Proof.
  intros Hav Hn. split_and!.
  - intros desc σ' st. unfold new_game, validate_desc. change (n (mkparams nv)) with nv.
    destruct (new_game_loop _ _ _ _) as [|[es|]] eqn:Hrun; [done| |done].
    intros _. by rewrite (new_game_loop_validated _ _ _ _ _ Hrun).
  - unfold validate_desc. change (n (mkparams nv)) with nv.
    rewrite (validate_loop_accepts nv _ [(av, av)]); [done| |lia].
    constructor. by apply (print_edge_token nv (mkedge av av)).
  - unfold new_game. change (n (mkparams nv)) with nv.
    rewrite <- (sapp_nil_r (print_edge (mkedge av av))) at 2.
    rewrite (new_game_loop_token _ nv [] _ (av, av) "");
      [|by apply (print_edge_token nv (mkedge av av))|done].
    simpl. by rewrite Z.eqb_refl.
Qed.

Lemma new_game_validated_witness :
  (∀ desc σ' st,
     new_game (λ _ _, square_circle) square_store (mkparams 4) desc = Some (σ', st) →
     validate_desc (mkparams 4) desc = None) ∧
  validate_desc (mkparams 4) (print_edge (mkedge 2 2)) = None ∧
  new_game (λ _ _, square_circle) square_store (mkparams 4) (print_edge (mkedge 2 2)) = None.
Proof.
  apply (new_game_validated (λ _ _, square_circle) square_store 4 2); [lia|].
  vm_compute. discriminate.
Defined.

(** ** The solution kept as [aux] *)

Lemma print_record_text nv (i : Z) (p : point) :
  0 <= i < nv → nv <= INT_MAX → point_ok p →
  record_text nv (print_record i p) (i, p).
Proof.
  intros Hi Hn (Hx & Hy & Hd & Hpos). destruct p as [px py pd]. simpl in *.
  unfold print_record. simpl.
  apply record_text_intro; try done.
  all: apply print_int_text; try done.
  unfold in_int, INT_MIN, INT_MAX in *; lia.
Qed.

Lemma print_record_cur (i : Z) (p : point) (rest : string) :
  is_char (cur (print_record i p +:+ rest)) "P" = true.
Proof. unfold print_record. by snorm. Qed.

(** The records of the solution, the first semicolon apart, are a move. *)
Lemma print_records_text nv (pts2 : list point) (i : Z) (todo : list Z) :
  nv <= INT_MAX →
  (∀ k, k ∈ i :: todo → 0 <= k < nv ∧ point_ok (pt pts2 k)) →
  move_text nv (print_record i (pt pts2 i) +:+ print_records pts2 todo)
            (aux_updates pts2 (i :: todo)) false.
Proof.
  intros Hn. revert i. induction todo as [|k todo IH]; intros i Hall.
  - destruct (Hall i) as [Hi Hok]; [by left|].
    pose proof (move_text_cons nv "" _ "" "" _ [] false false marker_none
                  (print_record_text nv i _ Hi Hn Hok) sep_none (move_text_nil nv)) as Ht.
    by rewrite sapp_nil_l in Ht.
  - destruct (Hall i) as [Hi Hok]; [by left|].
    assert (Hrest : move_text nv (print_record k (pt pts2 k) +:+ print_records pts2 todo)
                      (aux_updates pts2 (k :: todo)) false).
    { apply IH. intros k' Hk'. apply Hall. by right. }
    pose proof (move_text_cons nv "" _ ";" _ _ _ false false marker_none
                  (print_record_text nv i _ Hi Hn Hok) sep_semi Hrest) as Ht.
    rewrite sapp_nil_l in Ht. exact Ht.
Qed.

Lemma aux_string_text nv (pts2 : list point) :
  0 < nv <= INT_MAX →
  (∀ k, 0 <= k < nv → point_ok (pt pts2 k)) →
  move_text nv (aux_string pts2 nv) (aux_updates pts2 (seqZ 0 nv)) true.
Proof.
  intros Hn Hok. unfold aux_string.
  assert (Hseq : seqZ 0 nv = 0 :: seqZ 1 (nv - 1)).
  { rewrite (seqZ_cons 0 nv) by lia. by replace (Z.pred nv) with (nv - 1) by lia. }
  rewrite Hseq. cbn [print_records].
  apply (move_text_mark nv "S;" _ _ false); [constructor| |apply print_record_cur].
  apply print_records_text; [lia|].
  intros k Hk. rewrite <- Hseq, elem_of_seqZ in Hk. split; [lia|]. apply Hok. lia.
Qed.




(** ** The points of the solution *)

Lemma grid_cell_inj (wv c c' : Z) :
  0 < wv → 0 <= c → 0 <= c' →
  Z.rem c wv = Z.rem c' wv → Z.quot c wv = Z.quot c' wv → c = c'.
Proof.
  intros Hw Hc Hc' Hrem Hquot.
  rewrite (Z.quot_rem' c wv), (Z.quot_rem' c' wv). by rewrite Hrem, Hquot.
Qed.

Lemma COORDLIMIT_small (nv : Z) :
  1 <= nv <= 357913941 →
  nv <= COORDLIMIT nv * COORDLIMIT nv ∧ 1 <= COORDLIMIT nv < 2 ^ 15.
Proof.
  intros Hnv. unfold COORDLIMIT, POINTDENSITY, imul.
  rewrite wrap_id by (unfold in_int, INT_MIN, INT_MAX; lia).
  unfold uwrap. rewrite Z.mod_small by lia.
  destruct (squarert_spec (nv * 3)) as (Hpos & Hlow & Hhigh); [lia|].
  set (wv := squarert (nv * 3)) in *. split; [nia|]. split; [nia|].
  apply sq_lt; lia.
Qed.

(** X11: the points [new_game_desc] chooses.  When [shuffle] permutes its
    array, the [n] points lie on the grid of side [COORDLIMIT(n)] with
    denominator 1, no two of them are the same, and their coordinates are
    small enough for the arithmetic of the generator. *)
Theorem choose_points_distinct {random_state : Type}
    (shuffle : list Z → random_state → list Z * random_state)
    (nv : Z) (rs : random_state) :
  (∀ l r, (shuffle l r).1 ≡ₚ l) →
  1 <= nv <= 357913941 →
  let ps := (choose_points shuffle nv rs).1 in
  let wv := COORDLIMIT nv in
  length ps = Z.to_nat nv ∧
  Forall (λ p, 0 <= p.(x) < wv ∧ 0 <= p.(y) < wv ∧ p.(d) = 1) ps ∧
  NoDup ps ∧
  grid_points ps.
Proof.
  intros Hshuffle Hnv. cbv zeta. set (wv := COORDLIMIT nv).
  destruct (COORDLIMIT_small nv Hnv) as [Hroom Hw]. fold wv in Hroom, Hw.
  unfold choose_points. fold wv.
  assert (Hwrap : wrap wv = wv) by (apply wrap_id; unfold in_int, INT_MIN, INT_MAX; lia).
  rewrite Hwrap.
  assert (Hcells : wv *! wv = wv * wv).
  { unfold imul. apply wrap_id. unfold in_int, INT_MIN, INT_MAX. nia. }
  rewrite Hcells.
  pose proof (Hshuffle (seqZ 0 (wv * wv)) rs) as Hperm.
  destruct (shuffle (seqZ 0 (wv * wv)) rs) as [tmp rs'] eqn:Hsh. simpl in Hperm.
  cbn [fst].
  assert (Hcell : ∀ i, 0 <= i < nv → 0 <= tmp !!! Z.to_nat i < wv * wv).
  { intros i Hi. apply (perm_seqZ_lookup tmp (wv * wv)); [done|lia]. }
  assert (Hpoint : ∀ c, 0 <= c < wv * wv →
            irem c wv = Z.rem c wv ∧ idiv c wv = Z.quot c wv ∧
            0 <= Z.rem c wv < wv ∧ 0 <= Z.quot c wv < wv).
  { intros c Hc.
    assert (0 <= Z.rem c wv < wv) by (apply Z.rem_bound_pos; lia).
    assert (0 <= Z.quot c wv < wv).
    { split; [apply Z.quot_pos; lia|apply Z.quot_lt_upper_bound; lia]. }
    unfold irem, idiv.
    rewrite !wrap_id by (unfold in_int, INT_MIN, INT_MAX; lia). done. }
  assert (Hgrid : Forall (λ p, 0 <= p.(x) < wv ∧ 0 <= p.(y) < wv ∧ p.(d) = 1)
                         (grid_cells tmp nv wv)).
  { apply Forall_forall. intros p (i & -> & Hi%elem_of_seqZ)%list_elem_of_fmap.
    destruct (Hpoint (tmp !!! Z.to_nat i)) as (Hx & Hy & ? & ?); [apply Hcell; lia|].
    cbv beta zeta. cbn [x y d]. rewrite Hx, Hy. lia. }
  split_and!.
  - unfold grid_cells. by rewrite length_fmap, length_seqZ.
  - done.
  - unfold grid_cells. apply NoDup_fmap_2_strong; [|apply NoDup_seqZ].
    intros i j Hi%elem_of_seqZ Hj%elem_of_seqZ. cbv beta zeta. intros [= Hx Hy].
    destruct (Hpoint (tmp !!! Z.to_nat i)) as (Hxi & Hyi & _); [apply Hcell; lia|].
    destruct (Hpoint (tmp !!! Z.to_nat j)) as (Hxj & Hyj & _); [apply Hcell; lia|].
    rewrite Hxi, Hxj in Hx. rewrite Hyi, Hyj in Hy.
    apply (perm_seqZ_inj tmp (wv * wv)); [done|lia|lia|].
    apply (grid_cell_inj wv); [lia|apply Hcell; lia|apply Hcell; lia|done|done].
  - unfold grid_points. eapply Forall_impl; [exact Hgrid|]. simpl. intros p. lia.
Qed.

Lemma choose_points_distinct_witness :
  let ps := (choose_points (λ l (r : nat), (reverse l, S r)) 5 O).1 in
  let wv := COORDLIMIT 5 in
  length ps = Z.to_nat 5 ∧
  Forall (λ p, 0 <= p.(x) < wv ∧ 0 <= p.(y) < wv ∧ p.(d) = 1) ps ∧
  NoDup ps ∧
  grid_points ps.
Proof.
  apply (choose_points_distinct (λ l (r : nat), (reverse l, S r)) 5 O).
  - intros l r. simpl. apply reverse_Permutation.
  - lia.
Defined.

(** ** The user interface *)

(** The loop for the nearest point, started on a point: it ends on the
    first point at the least distance. *)
Lemma nearest_spec (dist : Z → Z) (best : Z) (todo : list Z) :
  best ≠ -1 → (∀ i, i ∈ todo → i ≠ -1) →
  ∃ l1 l2 b,
    nearest dist best (dist best) todo = (b, dist b) ∧
    best :: todo = l1 ++ b :: l2 ∧
    (∀ i, i ∈ l1 → dist b < dist i) ∧ (∀ i, i ∈ l2 → dist b <= dist i).
Proof.
  intros Hbest Htodo. revert best Hbest.
  induction todo as [|i todo IH]; intros best Hbest.
  - exists [], [], best. split_and!; [done|done|..]; by intros i ?%elem_of_nil.
  - cbn [nearest].
    destruct (Z.eqb_spec best (-1)) as [?|_]; [done|]. cbn [orb].
    assert (Hi : i ≠ -1) by (apply Htodo; by left).
    assert (Htodo' : ∀ k, k ∈ todo → k ≠ -1) by (intros k Hk; apply Htodo; by right).
    destruct (Z.ltb_spec (dist i) (dist best)) as [Hlt|Hge].
    + destruct (IH Htodo' i Hi) as (l1 & l2 & b & Hrun & Hsplit & Hbefore & Hafter).
      exists (best :: l1), l2, b. split_and!; [done|by rewrite Hsplit|  |done].
      intros k [->|Hk]%elem_of_cons; [|by apply Hbefore].
      assert (b ∈ i :: todo) as Hb by (rewrite Hsplit; apply elem_of_app; right; by left).
      assert (dist b <= dist i); [|lia].
      destruct l1 as [|i' l1]; injection Hsplit as -> Hrest; [lia|].
      assert (dist b < dist i'); [|lia]. apply Hbefore. by left.
    + destruct (IH Htodo' best Hbest) as (l1 & l2 & b & Hrun & Hsplit & Hbefore & Hafter).
      destruct l1 as [|b0 l1]; injection Hsplit as -> Hrest.
      * exists [], (i :: l2), b. split_and!; [done|by rewrite Hrest| |].
        -- by intros k ?%elem_of_nil.
        -- intros k [->|Hk]%elem_of_cons; [lia|by apply Hafter].
      * exists (b0 :: i :: l1), l2, b. split_and!; [done|by rewrite Hrest| |done].
        intros k [->|[->|Hk]%elem_of_cons]%elem_of_cons.
        -- apply Hbefore. by left.
        -- assert (dist b < dist b0) by (apply Hbefore; by left). lia.
        -- apply Hbefore. by right.
Qed.

(** X12: a press of the left button looks for the point nearest to the
    pointer on the screen, the first one among the nearest.  When it lies
    within [DRAG_THRESHOLD] the drag starts on it, at the pointer;
    otherwise nothing changes and nothing is returned. *)
Theorem press_picks_nearest (state : game_state) (ui : game_ui) (ds : game_drawstate)
    (xv yv : Z) :
  0 < state.(params).(n) →
  let dist := screen_dist state ds xv yv in
  ∃ best,
    0 <= best < state.(params).(n) ∧
    (∀ i, 0 <= i < best → dist best < dist i) ∧
    (∀ i, best <= i < state.(params).(n) → dist best <= dist i) ∧
    interpret_move state ui ds xv yv LEFT_BUTTON =
      if dist best <=? 144
      then (mkui best (mkpoint xv yv ds.(tilesize)) ui.(just_dragged) ui.(just_moved)
                 ui.(anim_length), Some "")
      else (ui, None).
Proof.
  intros Hn dist. set (nv := state.(params).(n)) in *.
  assert (Hseq : seqZ 0 nv = 0 :: seqZ 1 (nv - 1)).
  { rewrite (seqZ_cons 0 nv) by lia. by replace (Z.pred nv) with (nv - 1) by lia. }
  destruct (nearest_spec dist 0 (seqZ 1 (nv - 1)))
    as (l1 & l2 & b & Hrun & Hsplit & Hbefore & Hafter); [done| |].
  { intros i Hi%elem_of_seqZ. lia. }
  rewrite <- Hseq in Hsplit.
  assert (Hb : b = Z.of_nat (length l1) ∧ 0 <= b < nv).
  { assert (Hlook : seqZ 0 nv !! length l1 = Some b) by (by rewrite Hsplit, list_lookup_middle).
    apply lookup_seqZ in Hlook. lia. }
  destruct Hb as [Hb Hrange].
  exists b. split_and!; [lia|lia| | |].
  - intros i Hi. apply Hbefore.
    assert (Hlook : seqZ 0 nv !! Z.to_nat i = Some i) by (apply lookup_seqZ; lia).
    rewrite Hsplit, lookup_app_l in Hlook by lia. by eapply list_elem_of_lookup_2.
  - intros i Hi. destruct (decide (i = b)) as [->|Hne]; [lia|]. apply Hafter.
    assert (Hlook : seqZ 0 nv !! Z.to_nat i = Some i) by (apply lookup_seqZ; lia).
    rewrite Hsplit in Hlook.
    rewrite lookup_app_r in Hlook by lia.
    destruct (Z.to_nat i - length l1)%nat as [|k] eqn:Hk; [lia|].
    simpl in Hlook. by eapply list_elem_of_lookup_2.
  - unfold interpret_move. fold nv. rewrite Hseq. cbn [nearest].
    fold dist. change ((-1 =? -1) || (dist 0 <? 0)) with true. cbv iota.
    rewrite Hrun.
    change (DRAG_THRESHOLD *! DRAG_THRESHOLD) with 144. done.
Qed.

Lemma press_picks_nearest_witness :
  let dist := screen_dist tangled_state (mkds 64) 130 126 in
  ∃ best,
    0 <= best < tangled_state.(params).(n) ∧
    (∀ i, 0 <= i < best → dist best < dist i) ∧
    (∀ i, best <= i < tangled_state.(params).(n) → dist best <= dist i) ∧
    interpret_move tangled_state (new_ui (mkpoint 0 0 0) NO_TIME) (mkds 64) 130 126
                   LEFT_BUTTON =
      if dist best <=? 144
      then (mkui best (mkpoint 130 126 64) false false NO_TIME, Some "")
      else (new_ui (mkpoint 0 0 0) NO_TIME, None).
Proof.
  apply (press_picks_nearest tangled_state (new_ui (mkpoint 0 0 0) NO_TIME) (mkds 64)
                             130 126).
  simpl. lia.
Defined.

Lemma nearest_range (dist : Z → Z) (nv : Z) :
  let best := (nearest dist (-1) 0 (seqZ 0 nv)).1 in
  best = -1 ∨ 0 <= best < nv.
Proof.
  destruct (Z.le_gt_cases nv 0) as [Hle|Hgt].
  - rewrite seqZ_nil by lia. by left.
  - right.
    assert (Hseq : seqZ 0 nv = 0 :: seqZ 1 (nv - 1)).
    { rewrite (seqZ_cons 0 nv) by lia. by replace (Z.pred nv) with (nv - 1) by lia. }
    destruct (nearest_spec dist 0 (seqZ 1 (nv - 1)))
      as (l1 & l2 & b & Hrun & Hsplit & _); [done| |].
    { intros i Hi%elem_of_seqZ. lia. }
    rewrite Hseq. cbn [nearest].
    change ((-1 =? -1) || (dist 0 <? 0)) with true. cbv iota. rewrite Hrun. cbn [fst].
    assert (b ∈ seqZ 0 nv) as Hb%elem_of_seqZ; [|lia].
    rewrite Hseq, Hsplit. apply elem_of_app. right. by left.
Qed.

(** X13: the drag point of the user interface is always [-1] or the index
    of a point: so [new_ui] leaves it, and [interpret_move] and
    [game_changed_state] keep it so, whatever the event. *)
Theorem dragpoint_in_range (state : game_state) (ui : game_ui) (ds : game_drawstate)
    (xv yv : Z) (b : button) (q : point) (t : duration) :
  ui_ok state.(params).(n) ui →
  ui_ok state.(params).(n) (new_ui q t) ∧
  ui_ok state.(params).(n) (interpret_move state ui ds xv yv b).1 ∧
  ui_ok state.(params).(n) (game_changed_state ui).
Proof.
  intros Hok. split_and!; [by left| |by left].
  unfold interpret_move. destruct b.
  - pose proof (nearest_range (screen_dist state ds xv yv) state.(params).(n)) as Hbest.
    destruct (nearest _ _ _ _) as [best bestd]. simpl in Hbest.
    by destruct (bestd <=? _).
  - by destruct (0 <=? dragpoint ui).
  - destruct (0 <=? dragpoint ui); [|done].
    destruct (_ || _); by left.
  - done.
Qed.

Lemma dragpoint_in_range_witness :
  ui_ok tangled_state.(params).(n) (new_ui (mkpoint 0 0 0) NO_TIME) ∧
  ui_ok tangled_state.(params).(n)
        (interpret_move tangled_state (mkui 2 (mkpoint 70 5 64) false false NO_TIME)
                        (mkds 64) 130 126 LEFT_BUTTON).1 ∧
  ui_ok tangled_state.(params).(n)
        (game_changed_state (mkui 2 (mkpoint 70 5 64) false false NO_TIME)).
Proof.
  apply (dragpoint_in_range tangled_state (mkui 2 (mkpoint 70 5 64) false false NO_TIME)).
  right. simpl. lia.
Defined.

(** X14: the move that [interpret_move] returns when a drag is released
    inside the window is accepted by [execute_move]: the point dragged is
    put where the pointer was last seen, nothing else changes, and the move
    is not animated.  The pointer is then inside the area of the grid and
    the denominator of the new point is positive. *)
Theorem release_move_accepted (σ : store) (state : game_state) (ui ui' : game_ui)
    (ds : game_drawstate) (xv yv dir : Z) (move : string) :
  let nv := state.(params).(n) in
  let p := ui.(dragpoint) in
  let q := ui.(newpoint) in
  0 <= p < nv → nv <= INT_MAX →
  0 < state.(w) → 0 < state.(h) →
  in_int q.(x) → in_int q.(y) → in_int q.(d) →
  in_int (state.(w) * q.(d)) → in_int (state.(h) * q.(d)) →
  interpret_move state ui ds xv yv LEFT_RELEASE = (ui', Some move) →
  move ≠ "" →
  (0 <= q.(x) < state.(w) * q.(d) ∧ 0 <= q.(y) < state.(h) * q.(d) ∧ 0 < q.(d)) ∧
  ui'.(dragpoint) = -1 ∧ ui'.(just_dragged) = true ∧
  (game_anim_length state state dir (game_changed_state ui')).2 = NO_TIME ∧
  ∃ ret,
    execute_move σ state move = ((dup_game σ state).1, Some ret) ∧
    ret.(pts) = <[Z.to_nat p := q]> state.(pts) ∧
    ret.(cheated) = state.(cheated) ∧ ret.(just_solved) = false.
Proof.
  intros nv p q Hp Hn Hw Hh Hx Hy Hd Hwd Hhd. unfold interpret_move.
  fold p q. destruct (Z.leb_spec 0 p) as [_|?]; [|lia].
  unfold imul. rewrite !wrap_id by done.
  destruct (Z.ltb_spec q.(x) 0) as [?|Hx0]; [by intros [= <- <-]|].
  destruct (Z.leb_spec (state.(w) * q.(d)) q.(x)) as [?|Hx1]; [by intros [= <- <-]|].
  destruct (Z.ltb_spec q.(y) 0) as [?|Hy0]; [by intros [= <- <-]|].
  destruct (Z.leb_spec (state.(h) * q.(d)) q.(y)) as [?|Hy1]; [by intros [= <- <-]|].
  cbn [orb]. intros [= <- <-] _.
  assert (Hpos : 0 < q.(d)) by nia.
  split_and!; try done.
  assert (Htext : move_text nv (print_record p q) [(p, q)] false).
  { pose proof (move_text_cons nv "" _ "" "" _ [] false false marker_none
                  (print_record_text nv p q Hp Hn (conj Hx (conj Hy (conj Hd Hpos))))
                  sep_none (move_text_nil nv)) as Ht.
    by rewrite sapp_nil_l, !sapp_nil_r in Ht. }
  destruct (execute_move_accept σ state _ _ _ Htext)
    as (ret & Hrun & _ & _ & Hret & Hch & Hjs & _).
  exists ret. split_and!; try done.
  by rewrite Hch, orb_false_r.
Qed.

Lemma release_move_accepted_witness :
  (0 <= 70 < 3 * 64 ∧ 0 <= 5 < 3 * 64 ∧ 0 < 64) ∧
  dragpoint (mkui (-1) (mkpoint 70 5 64) true false NO_TIME) = -1 ∧
  just_dragged (mkui (-1) (mkpoint 70 5 64) true false NO_TIME) = true ∧
  (game_anim_length tangled_state tangled_state 1
     (game_changed_state (mkui (-1) (mkpoint 70 5 64) true false NO_TIME))).2 = NO_TIME ∧
  ∃ ret,
    execute_move square_store tangled_state "P2:70,5/64" =
      ((dup_game square_store tangled_state).1, Some ret) ∧
    ret.(pts) = <[2%nat := mkpoint 70 5 64]> tangled_state.(pts) ∧
    ret.(cheated) = tangled_state.(cheated) ∧ ret.(just_solved) = false.
Proof.
  apply (release_move_accepted square_store tangled_state
           (mkui 2 (mkpoint 70 5 64) false false NO_TIME)
           (mkui (-1) (mkpoint 70 5 64) true false NO_TIME) (mkds 64) 0 0 1 "P2:70,5/64");
    try (vm_compute; (reflexivity || discriminate || (split; discriminate))).
  vm_compute. split; [done|done].
Defined.

(** X15: the completion flash.  After a move that [execute_move] accepts,
    [game_flash_length] answers [FLASH_TIME] exactly when the game was
    neither completed nor cheated before, the move carries no solve marker,
    and the completion check finds nothing: [cross], called with the later
    edge of the tree first and the earlier edge second, answers no for
    every two edges that have no endpoint in common.  In every other case
    it answers [0.0F]. *)
Theorem flash_iff (σ σ' : store) (state ret : game_state) (move : string)
    (dir : Z) (ui : game_ui) :
  no_nul move →
  execute_move σ state move = (σ', Some ret) →
  (game_flash_length state ret dir ui = FLASH_TIME ↔
   state.(completed) = false ∧ state.(cheated) = false ∧
   has_char "S" move = false ∧
   no_crossing (pt ret.(pts)) (graph_edges σ state)) ∧
  (game_flash_length state ret dir ui ≠ FLASH_TIME →
   game_flash_length state ret dir ui = NO_TIME).
Proof.
  intros Hnul Hrun.
  destruct (execute_move_inv _ _ _ _ _ Hnul Hrun) as (ups & solved & Htext).
  destruct (execute_move_accept σ state _ _ _ Htext)
    as (ret' & Hrun' & _ & _ & _ & Hch & _ & Hco & _).
  rewrite Hrun in Hrun'. injection Hrun' as _ <-.
  rewrite <- (move_text_solved _ _ _ _ Htext), <- find_crossing_clear.
  unfold game_flash_length. rewrite Hch, Hco.
  destruct state.(completed), state.(cheated), solved,
    (find_crossing (pt ret.(pts)) (graph_edges σ state)); simpl;
    (split; [split; (done || by intros (? & ? & ? & ?))|done]).
Qed.

Lemma flash_iff_witness :
  (game_flash_length tangled_state solved_state 1 (new_ui (mkpoint 0 0 0) NO_TIME)
     = FLASH_TIME ↔
   tangled_state.(completed) = false ∧ tangled_state.(cheated) = false ∧
   has_char "S" "P2:0,2/1;P3:2,2/1" = false ∧
   no_crossing (pt solved_state.(pts)) (graph_edges square_store tangled_state)) ∧
  (game_flash_length tangled_state solved_state 1 (new_ui (mkpoint 0 0 0) NO_TIME)
     ≠ FLASH_TIME →
   game_flash_length tangled_state solved_state 1 (new_ui (mkpoint 0 0 0) NO_TIME)
     = NO_TIME).
Proof.
  apply (flash_iff square_store (dup_game square_store tangled_state).1 tangled_state
           solved_state "P2:0,2/1;P3:2,2/1" 1 (new_ui (mkpoint 0 0 0) NO_TIME));
    reflexivity.
Defined.

(** X16: [solve_game] returns the string kept in [aux], whatever it is,
    and the error message when there is none.  The solution string of
    [new_game_desc], returned so, is a move that [execute_move] accepts in
    every state of the game: it is never followed by the completion flash,
    and it is animated for [SOLVEANIM_TIME] when played forwards after a
    move that was not a drag. *)
Theorem solve_move_shown (σ : store) (state currstate : game_state)
    (pts2 : list point) (dir : Z) (ui : game_ui) :
  let nv := currstate.(params).(n) in
  0 < nv <= INT_MAX →
  length pts2 = Z.to_nat nv → Forall point_ok pts2 →
  solve_game state currstate None = inr "Solution not known for this puzzle" ∧
  (∀ aux, solve_game state currstate (Some aux) = inl aux) ∧
  ∃ ret,
    execute_move σ currstate (aux_string pts2 nv) = ((dup_game σ currstate).1, Some ret) ∧
    game_flash_length currstate ret dir ui = NO_TIME ∧
    (ui.(just_moved) = false → 0 <= dir →
     (game_anim_length currstate ret dir ui).2 = SOLVEANIM_TIME).
Proof.
  intros nv Hn Hlen Hok. split; [done|]. split; [done|].
  assert (Hpts : ∀ k, 0 <= k < nv → point_ok (pt pts2 k)).
  { intros k Hk. unfold pt. destruct (Z.ltb_spec k 0); [lia|].
    destruct (lookup_lt_is_Some_2 pts2 (Z.to_nat k)) as [p Hp]; [lia|].
    rewrite (list_lookup_total_correct _ _ _ Hp).
    rewrite Forall_forall in Hok. apply Hok. by eapply list_elem_of_lookup_2. }
  destruct (execute_move_accept σ currstate _ _ _ (aux_string_text nv pts2 Hn Hpts))
    as (ret & Hrun & _ & _ & _ & Hch & Hjs & _).
  exists ret. split_and!; [done| |].
  - unfold game_flash_length. rewrite Hch, orb_true_r. simpl. by rewrite !andb_false_r.
  - intros Hmoved Hdir. unfold game_anim_length. rewrite Hmoved.
    destruct (Z.ltb_spec dir 0); [lia|]. by rewrite Hjs.
Qed.

Lemma solve_move_shown_witness :
  solve_game tangled_state tangled_state None = inr "Solution not known for this puzzle" ∧
  (∀ aux, solve_game tangled_state tangled_state (Some aux) = inl aux) ∧
  ∃ ret,
    execute_move square_store tangled_state
                 (aux_string (centre <$> solved_state.(pts)) 4) =
      ((dup_game square_store tangled_state).1, Some ret) ∧
    game_flash_length tangled_state ret 1 (new_ui (mkpoint 0 0 0) NO_TIME) = NO_TIME ∧
    ((new_ui (mkpoint 0 0 0) NO_TIME).(just_moved) = false → 0 <= 1 →
     (game_anim_length tangled_state ret 1 (new_ui (mkpoint 0 0 0) NO_TIME)).2 =
       SOLVEANIM_TIME).
Proof.
  apply (solve_move_shown square_store tangled_state tangled_state
           (centre <$> solved_state.(pts)) 1 (new_ui (mkpoint 0 0 0) NO_TIME)).
  - vm_compute. split; [done|discriminate].
  - reflexivity.
  - repeat constructor; vm_compute; congruence.
Defined.

(** ** The completion check as the source makes it *)

(** X17: from a state that is not completed, a well-formed move is accepted,
    and the state it produces is completed exactly when the scan over the
    edge tree finds nothing: [cross], called with the later edge of the
    tree first and the earlier edge second, answers no for every two edges
    that have no endpoint in common.  It is not asked with the two edges
    the other way round. *)
Theorem completed_iff_scan σ st move ups solved :
  st.(completed) = false →
  move_text st.(params).(n) move ups solved →
  ∃ σ' ret,
    execute_move σ st move = (σ', Some ret) ∧
    ret.(pts) = apply_updates ups st.(pts) ∧
    graph_edges σ' ret = graph_edges σ st ∧
    (ret.(completed) = true ↔ no_crossing (pt ret.(pts)) (graph_edges σ' ret)).
Proof.
  intros Hc Hmove.
  destruct (execute_move_accept σ st move ups solved Hmove)
    as (ret & Hrun & _ & _ & Hpts & _ & _ & Hdone & Hedges).
  exists (dup_game σ st).1, ret. split_and!; [done..|].
  rewrite Hedges, Hdone, Hc, <- find_crossing_clear. simpl.
  by destruct (find_crossing _ _).
Qed.

Lemma completed_iff_scan_witness :
  ∃ σ' ret,
    execute_move square_store tangled_state "P2:0,2/1;P3:2,2/1" = (σ', Some ret) ∧
    ret.(pts) = apply_updates [(2, mkpoint 0 2 1); (3, mkpoint 2 2 1)] tangled_state.(pts) ∧
    graph_edges σ' ret = graph_edges square_store tangled_state ∧
    (ret.(completed) = true ↔ no_crossing (pt ret.(pts)) (graph_edges σ' ret)).
Proof.
  apply (completed_iff_scan square_store tangled_state "P2:0,2/1;P3:2,2/1"
           [(2, mkpoint 0 2 1); (3, mkpoint 2 2 1)] false).
  - reflexivity.
  - apply (move_text_cons 4 "" "P2:0,2/1" ";" "P3:2,2/1" _ _ false false);
      [constructor| |constructor|].
    + by apply (record_text_digits 4 "2" "0" "2" "1").
    + apply (move_text_cons 4 "" "P3:2,2/1" "" "" _ _ false false);
        [constructor| |constructor|constructor].
      by apply (record_text_digits 4 "3" "2" "2" "1").
Defined.

(** ** Numerals beyond the range of the integer types *)

(** A numeral that fits a [long] is cut to its low 32 bits; beyond a [long]
    the library holds the value at [LONG_MAX] or [LONG_MIN], which give the
    [int]s -1 and 0.  With four points the index 18446744073709551617 is
    refused and the index -18446744073709551617 is read as 0. *)
Example numerals_beyond_long :
  atoi "4294967298" = 2 ∧
  atoi "18446744073709551617" = -1 ∧
  atoi "-18446744073709551617" = 0 ∧
  scan_int "9223372036854775808:" = Some (-1, ":") ∧
  execute_move square_store tangled_state "P18446744073709551617:5,5/1"
    = (square_store, None) ∧
  pts <$> (execute_move square_store tangled_state "P-18446744073709551617:5,5/1").2
    = Some (<[0%nat := mkpoint 5 5 1]> tangled_state.(pts)) ∧
  validate_desc (mkparams 4) "18446744073709551617-1"
    = Some "Number out of range in game description".
Proof. split_and!; vm_compute; reflexivity. Qed.
